(** * Audit-log lifecycle of the Coraza forward-auth middleware

    A shallow embedding of [src/audit/log_processor.go], [src/audit/log.go]
    and [src/audit/metrics.go]: backup file naming, log rotation, the
    retention sweep, the line-by-line parser and the default record
    handler; and of the code around them: the options [main.go] reads
    from the environment, the directives of [src/coraza/coraza.go] and
    the handlers of [src/middleware/middleware.go].

    Go strings are byte strings and are modelled by [string]; [int64],
    [time.Duration] and unix seconds are modelled by [Z] with the range
    checks of the Go library written out.  The file system is a finite
    map from path strings to file nodes; every operating-system call can
    fail, which is modelled by an explicit fault oracle. *)

From Stdlib Require Import ZArith Ascii String Lia.
From stdpp Require Import gmap strings list sorting.

Set Implicit Arguments.

Open Scope Z_scope.

#[local] Arguments String.append !s1 s2 : simpl nomatch.

(** ** Byte strings *)

Module Str.

Definition slash : ascii := "/"%char.

(** [strings.HasPrefix(s, prefix)]. *)
Definition HasPrefix (s pre : string) : bool := String.prefix pre s.

(** [s[n:]] for [n <= len(s)]. *)
Fixpoint drop (n : nat) (s : string) : string :=
  match n, s with
  | O, _ => s
  | S n', String _ s' => drop n' s'
  | S _, EmptyString => EmptyString
  end.

(** [strings.TrimPrefix(s, prefix)]: [s] without the leading [prefix],
    and [s] itself when it does not start with [prefix]. *)
Definition TrimPrefix (s pre : string) : string :=
  if HasPrefix s pre then drop (String.length pre) s else s.

(** [s] cut at every byte [sep]; the pieces do not contain [sep], and
    there is one more piece than there are separators. *)
Fixpoint split (sep : ascii) (s : string) : list string :=
  match s with
  | EmptyString => [EmptyString]
  | String c s' =>
      if Ascii.eqb c sep then EmptyString :: split sep s'
      else match split sep s' with
           | h :: t => String c h :: t
           | [] => [String c EmptyString]
           end
  end.

(** The elements of a path between its slashes; ["a//b"] has the
    elements ["a"], [""] and ["b"]. *)
Definition elements (s : string) : list string := split slash s.

Fixpoint has_slash (s : string) : bool :=
  match s with
  | EmptyString => false
  | String c s' => Ascii.eqb c slash || has_slash s'
  end.

(** Removes every trailing slash. *)
Fixpoint strip_slashes (s : string) : string :=
  match s with
  | EmptyString => EmptyString
  | String c s' =>
      match strip_slashes s' with
      | EmptyString => if Ascii.eqb c slash then EmptyString else String c EmptyString
      | r => String c r
      end
  end.

End Str.

(** ** Package [path] of the Go library *)

Module Path.

(** [path.Base]: the last element of the path, after trailing slashes
    are removed; ["."] for the empty path and ["/"] for a path of
    slashes only. *)
Definition Base (p : string) : string :=
  if String.eqb p "" then "."
  else
    match List.last (Str.elements (Str.strip_slashes p)) "" with
    | EmptyString => "/"
    | e => e
    end.

(** The inner loop of the [".."] case of [path.Clean]:
    [for out.w > dotdot && out.index(out.w) != '/' { out.w-- }]. *)
Fixpoint back_to (out : string) (dotdot : nat) (w : nat) : nat :=
  match w with
  | O => O
  | S w' =>
      if (dotdot <? w)%nat && negb (bool_decide (String.get w out = Some Str.slash))
      then back_to out dotdot w'
      else w
  end.

Definition backtrack (out : string) (dotdot : nat) : string :=
  String.substring 0 (back_to out dotdot (String.length out - 1)) out.

(** One round of the loop of [path.Clean], on the path element [e] that
    starts at the read position; the state is the output buffer and the
    index [dotdot] below which the buffer cannot be shortened. *)
Definition clean_elem (rooted : bool) (st : string * nat) (e : string)
  : string * nat :=
  let '(out, dotdot) := st in
  if String.eqb e "" then st
  else if String.eqb e "." then st
  else if String.eqb e ".." then
    if (dotdot <? String.length out)%nat then (backtrack out dotdot, dotdot)
    else if negb rooted then
      let out1 := if (0 <? String.length out)%nat then out +:+ "/" else out in
      let out2 := out1 +:+ ".." in
      (out2, String.length out2)
    else st
  else
    let w := String.length out in
    let out1 :=
      if (rooted && negb (w =? 1)%nat) || (negb rooted && negb (w =? 0)%nat)
      then out +:+ "/" else out in
    (out1 +:+ e, dotdot).

Definition is_rooted (p : string) : bool :=
  match p with
  | String c _ => Ascii.eqb c Str.slash
  | EmptyString => false
  end.

(** [path.Clean]. *)
Definition Clean (p : string) : string :=
  if String.eqb p "" then "."
  else
    let rooted := is_rooted p in
    let st0 := if rooted then ("/", 1%nat) else ("", 0%nat) in
    let out := fst (fold_left (clean_elem rooted) (Str.elements p) st0) in
    if String.eqb out "" then "." else out.

(** [path.Join] of two elements: empty elements are ignored and the
    result is cleaned; joining nothing but empty elements gives [""]. *)
Definition Join (a b : string) : string :=
  if String.eqb a "" then (if String.eqb b "" then "" else Clean b)
  else Clean (a +:+ "/" +:+ b).

(** [path.Dir]: everything up to the last slash, cleaned. *)
Fixpoint up_to_last_slash (p : string) : string :=
  match p with
  | EmptyString => EmptyString
  | String c p' => if Str.has_slash p then String c (up_to_last_slash p') else EmptyString
  end.

Definition Dir (p : string) : string := Clean (up_to_last_slash p).

End Path.

(** ** Errors and results *)

(** Go [error] values, as far as the audit package builds or forwards
    them.  [fmt_Errorf msg e] is [fmt.Errorf(msg + ": %w", e)]. *)
Inductive error : Type :=
| errors_New (msg : string)
| fmt_Errorf (msg : string) (wrapped : error)
| os_Error (op : string) (path : string)
| strconv_ErrSyntax
| strconv_ErrRange
| bufio_ErrTooLong.

Inductive result (A : Type) : Type :=
| Ok (a : A)
| Fail (e : error).
Arguments Ok {A} a.
Arguments Fail {A} e.

Definition is_ok {A} (r : result A) : bool :=
  match r with Ok _ => true | Fail _ => false end.

(** ** Package [strconv] of the Go library, base 10 and 64 bits *)

Module Strconv.

Definition maxUint64 : Z := 2 ^ 64 - 1.
Definition cutoff10 : Z := maxUint64 / 10 + 1.
Definition minInt64 : Z := - 2 ^ 63.
Definition maxInt64 : Z := 2 ^ 63 - 1.

Definition int64 (z : Z) : Prop := minInt64 <= z <= maxInt64.

Definition digit_val (c : ascii) : option Z :=
  let n := Z.of_nat (nat_of_ascii c) in
  if (48 <=? n) && (n <=? 57) then Some (n - 48) else None.

Definition digit_char (d : Z) : ascii := ascii_of_nat (Z.to_nat (48 + d)).

(** The loop of [strconv.ParseUint(s, 10, 64)]: any byte that is not a
    decimal digit is a syntax error; an accumulator that leaves the
    unsigned 64-bit range is a range error. *)
Fixpoint parse_digits (s : string) (n : Z) : result Z :=
  match s with
  | EmptyString => Ok n
  | String c s' =>
      match digit_val c with
      | None => Fail strconv_ErrSyntax
      | Some d =>
          if cutoff10 <=? n then Fail strconv_ErrRange
          else
            let n1 := n * 10 + d in
            if maxUint64 <? n1 then Fail strconv_ErrRange
            else parse_digits s' n1
      end
  end.

Definition ParseUint (s : string) : result Z :=
  match s with
  | EmptyString => Fail strconv_ErrSyntax
  | _ => parse_digits s 0
  end.

(** [strconv.ParseInt(s, 10, 64)].  The Go function also returns a
    clamped value next to a range error; its callers here look at the
    error only. *)
Definition ParseInt (s : string) : result Z :=
  match s with
  | EmptyString => Fail strconv_ErrSyntax
  | String c s' =>
      let '(neg, body) :=
        if Ascii.eqb c "+" then (false, s')
        else if Ascii.eqb c "-" then (true, s')
        else (false, s) in
      match ParseUint body with
      | Fail e => Fail e
      | Ok un =>
          if negb neg && (2 ^ 63 <=? un) then Fail strconv_ErrRange
          else if neg && (2 ^ 63 <? un) then Fail strconv_ErrRange
          else Ok (if neg then - un else un)
      end
  end.

(** Decimal digits of [u], most significant first, in front of [acc];
    [fuel] bounds the number of digits. *)
Fixpoint format_digits (fuel : nat) (u : Z) (acc : string) : string :=
  match fuel with
  | O => acc
  | S f =>
      let acc' := String (digit_char (u mod 10)) acc in
      if u <? 10 then acc' else format_digits f (u / 10) acc'
  end.

Definition FormatUint (u : Z) : string :=
  format_digits (S (Z.to_nat (Z.log2 u))) u "".

(** [strconv.FormatInt(i, 10)]; [strconv.Itoa] is the same function. *)
Definition FormatInt (i : Z) : string :=
  if i <? 0 then String "-" (FormatUint (- i)) else FormatUint i.

(** The naming convention in the words of the specification: an
    optional sign and a non-empty run of decimal digits whose value is a
    signed 64-bit number. *)
Fixpoint all_digits (s : string) : bool :=
  match s with
  | EmptyString => true
  | String c s' => bool_decide (is_Some (digit_val c)) && all_digits s'
  end.

Fixpoint digits_value (s : string) (acc : Z) : Z :=
  match s with
  | EmptyString => acc
  | String c s' => digits_value s' (acc * 10 + default 0 (digit_val c))
  end.

Definition decimal_int64 (s : string) : option Z :=
  let '(neg, body) :=
    match s with
    | String c s' =>
        if Ascii.eqb c "+" then (false, s')
        else if Ascii.eqb c "-" then (true, s')
        else (false, s)
    | EmptyString => (false, s)
    end in
  if bool_decide (body = "") || negb (all_digits body) then None
  else
    let v := if neg then - digits_value body 0 else digits_value body 0 in
    if (minInt64 <=? v) && (v <=? maxInt64) then Some v else None.

End Strconv.

(** ** Package [time] of the Go library *)

Module GoTime.

(** An instant: seconds since the unix epoch and nanoseconds within the
    second.  [Duration] is a signed 64-bit count of nanoseconds. *)
Record Time : Type := mkTime { sec : Z; nsec : Z }.

Definition Second : Z := 1000000000.
Definition minDuration : Z := - 2 ^ 63.
Definition maxDuration : Z := 2 ^ 63 - 1.

(** [t.Unix()]. *)
Definition Unix_of (t : Time) : Z := sec t.

(** [time.Unix(sec, nsec)]; [nsec] outside [0, 999999999] is carried
    into the seconds. *)
Definition Unix (s ns : Z) : Time :=
  if (ns <? 0) || (Second <=? ns) then
    let n := Z.quot ns Second in
    let s1 := s + n in
    let ns1 := ns - n * Second in
    if ns1 <? 0 then mkTime (s1 - 1) (ns1 + Second) else mkTime s1 ns1
  else mkTime s ns.

(** [t.Sub(u)] for times without a monotonic reading: the difference in
    nanoseconds, replaced by the largest or smallest duration when it
    does not fit. *)
Definition Sub (t u : Time) : Z :=
  let d := (sec t - sec u) * Second + (nsec t - nsec u) in
  if maxDuration <? d then maxDuration
  else if d <? minDuration then minDuration
  else d.

(** [t] truncated to whole seconds. *)
Definition whole_seconds (t : Time) : Time := mkTime (sec t) 0.

End GoTime.

(** ** Package [bufio] of the Go library: a [Scanner] with [ScanLines] *)

Module Bufio.

Definition MaxScanTokenSize : Z := 65536.

(** [dropCR]: one trailing carriage return is removed. *)
Fixpoint dropCR (s : string) : string :=
  match s with
  | EmptyString => EmptyString
  | String c EmptyString => if Ascii.eqb c "013" then EmptyString else s
  | String c s' => String c (dropCR s')
  end.

(** The pieces of the input that [ScanLines] turns into tokens: every
    newline-terminated piece, and the last piece when it is not empty. *)
Fixpoint line_pieces (pieces : list string) : list string :=
  match pieces with
  | [] => []
  | [final] => if String.eqb final "" then [] else [final]
  | l :: rest => l :: line_pieces rest
  end.

(** Tokens are handed out until a piece does not fit the buffer. *)
Fixpoint tokens (pieces : list string) : list string * option error :=
  match pieces with
  | [] => ([], None)
  | l :: rest =>
      if MaxScanTokenSize <=? Z.of_nat (String.length l) then ([], Some bufio_ErrTooLong)
      else let '(ts, e) := tokens rest in (dropCR l :: ts, e)
  end.

(** All calls of [scanner.Scan()] on a reader that delivers [data] and
    then ends, either at end of file or with the read error [read_err]:
    the lines returned by [scanner.Text()], in order, and the final
    [scanner.Err()]. *)
Definition Scan (data : string) (read_err : option error)
  : list string * option error :=
  let '(ts, e) := tokens (line_pieces (Str.split "010" data)) in
  (ts, match e with Some e' => Some e' | None => read_err end).

End Bufio.

(** ** Record model ([src/audit/log.go]) *)

Record MessageData : Type := mkMessageData {
  md_File : string;
  md_Line : Z;
  md_ID : Z;
  md_Rev : string;
  md_Msg : string;
  md_Data : string;
  md_Severity : Z;
  md_Ver : string;
  md_Maturity : Z;
  md_Accuracy : Z;
  md_Tags : list string;
  md_Raw : string
}.

Record Message : Type := mkMessage {
  msg_Message : string;
  msg_Data : MessageData
}.

Record TransactionRequest : Type := mkRequest {
  req_Method : string;
  req_Protocol : string;
  req_URI : string;
  req_HTTPVersion : string;
  req_Headers : gmap string (list string);
  req_Body : string
}.

Record TransactionResponse : Type := mkResponse {
  resp_Protocol : string;
  resp_Status : Z;
  resp_Headers : gmap string (list string);
  resp_Body : string
}.

Record Transaction : Type := mkTransaction {
  tx_Timestamp : string;
  tx_UnixTimestamp : Z;
  tx_ID : string;
  tx_ClientIP : string;
  tx_ClientPort : Z;
  tx_HostIP : string;
  tx_HostPort : Z;
  tx_ServerID : string;
  tx_Request : option TransactionRequest;
  tx_Response : option TransactionResponse
}.

Record Log : Type := mkLog {
  log_Transaction : Transaction;
  log_Messages : list Message
}.

(** ** The world the processor acts on *)

(** What [os.ReadDir] tells about an entry: a directory, a regular
    file, or anything else (symbolic link, device, socket, pipe). *)
Inductive Kind : Type := Regular | Directory | Irregular.

Global Instance Kind_eq_dec : EqDecision Kind.
Proof. solve_decision. Defined.

Record Node : Type := mkNode { kind : Kind; content : string }.

Record DirEntry : Type := mkDirEntry { de_Name : string; de_Kind : Kind }.

(** Calls into the operating system that change or read file contents,
    in the order they are made. *)
Inductive Syscall : Type :=
| SysOpen (path : string)
| SysCreate (path : string)
| SysCopy (dst src : string) (data : string) (complete : bool)
| SysClose (path : string)
| SysTruncate (path : string)
| SysRemove (path : string).

Inductive Level : Type := LevelDebug | LevelInfo | LevelWarn | LevelError.

Global Instance Level_eq_dec : EqDecision Level.
Proof. solve_decision. Defined.

(** Arguments of a structured log call ([...any]). *)
Inductive any : Type :=
| AStr (s : string)
| AInt (z : Z)
| AStrs (l : list string)
| AErr (e : error)
| ADuration (d : Z).

Record LogRecord : Type := mkLogRecord {
  lr_Level : Level;
  lr_Msg : string;
  lr_Args : list any
}.

(** A prometheus [CounterVec]: one counter per vector of label values. *)
Definition Inc (labels : list string) (c : gmap (list string) nat)
  : gmap (list string) nat :=
  <[labels := S (default 0%nat (c !! labels))]> c.

Definition counter (c : gmap (list string) nat) (labels : list string) : nat :=
  default 0%nat (c !! labels).

Section Audit.

(** State private to a record handler installed by a caller (a test
    that captures the records, for instance). *)
Variable U : Type.

(** [json.Unmarshal([]byte(line), &logEntry)] into a zero [Log], and
    [url.Parse] reduced to the host and path it yields: library
    functions the audit package calls and does not define. *)
Variable json_Unmarshal : string -> result Log.
Variable url_Parse : string -> result (string * string).

Record World : Type := mkWorld {
  fs : gmap string Node;
  syscalls : list Syscall;
  slog : list LogRecord;
  metricAuditLogTransactionsCount : gmap (list string) nat;
  metricAuditLogRuleViolations : gmap (list string) nat;
  user : U
}.

Definition set_fs (f : gmap string Node) (w : World) : World :=
  mkWorld f (syscalls w) (slog w) (metricAuditLogTransactionsCount w)
    (metricAuditLogRuleViolations w) (user w).

Definition sys (c : Syscall) (w : World) : World :=
  mkWorld (fs w) (syscalls w ++ [c]) (slog w) (metricAuditLogTransactionsCount w)
    (metricAuditLogRuleViolations w) (user w).

(** [p.logger.<Level>(msg, args...)]. *)
Definition emit (l : Level) (msg : string) (args : list any) (w : World) : World :=
  mkWorld (fs w) (syscalls w) (slog w ++ [mkLogRecord l msg args])
    (metricAuditLogTransactionsCount w) (metricAuditLogRuleViolations w) (user w).

Definition set_transactions (c : gmap (list string) nat) (w : World) : World :=
  mkWorld (fs w) (syscalls w) (slog w) c (metricAuditLogRuleViolations w) (user w).

Definition set_violations (c : gmap (list string) nat) (w : World) : World :=
  mkWorld (fs w) (syscalls w) (slog w) (metricAuditLogTransactionsCount w) c (user w).

(** *** Operating-system calls

    A call fails when the state of the file system forces it to (the
    file is missing, the path is a directory) or when the fault flag
    handed to it is set, which stands for every other cause
    (permissions, a full disk, a failing device).  Nodes that are
    neither regular files nor directories are never read or written.
    Two different path strings name two different files. *)

(** [os.Open(path)]: the handle is the path it was opened under. *)
Definition os_Open (path : string) (fault : bool) (w : World)
  : result string * World :=
  match fs w !! path with
  | None => (Fail (os_Error "open" path), w)
  | Some n =>
      if fault || bool_decide (kind n = Irregular)
      then (Fail (os_Error "open" path), w)
      else (Ok path, sys (SysOpen path) w)
  end.

(** [os.Create(path)]: an existing regular file is emptied, a missing
    one is created empty. *)
Definition os_Create (path : string) (fault : bool) (w : World)
  : result string * World :=
  let create := (Ok path, sys (SysCreate path) (set_fs (<[path := mkNode Regular ""]> (fs w)) w)) in
  if fault then (Fail (os_Error "open" path), w)
  else
    match fs w !! path with
    | None => create
    | Some n =>
        match kind n with
        | Regular => create
        | _ => (Fail (os_Error "open" path), w)
        end
    end.

(** Bytes written through a handle reach the file at once: an
    [os.File] has no buffer of its own. *)
Definition write (path : string) (data : string) (w : World) : World :=
  match fs w !! path with
  | Some n => set_fs (<[path := mkNode (kind n) (content n +:+ data)]> (fs w)) w
  | None => w
  end.

(** [io.Copy(dst, src)] on two freshly opened handles.  [fault] is the
    number of bytes after which reading or writing fails, if it does. *)
Definition io_Copy (dst src : string) (fault : option nat) (w : World)
  : result Z * World :=
  match fs w !! src with
  | Some (mkNode Regular data) =>
      match fault with
      | Some n =>
          let part := String.substring 0 n data in
          (Fail (os_Error "copy" src), sys (SysCopy dst src part false) (write dst part w))
      | None =>
          (Ok (Z.of_nat (String.length data)), sys (SysCopy dst src data true) (write dst data w))
      end
  | _ => (Fail (os_Error "read" src), w)
  end.

(** [f.Close()]; closing twice is an error that the callers ignore. *)
Definition os_Close (path : string) (w : World) : World := sys (SysClose path) w.

(** [os.Truncate(path, 0)]. *)
Definition os_Truncate0 (path : string) (fault : bool) (w : World)
  : result unit * World :=
  match fs w !! path with
  | Some (mkNode Regular _) =>
      if fault then (Fail (os_Error "truncate" path), w)
      else (Ok tt, sys (SysTruncate path) (set_fs (<[path := mkNode Regular ""]> (fs w)) w))
  | _ => (Fail (os_Error "truncate" path), w)
  end.

(** [os.Remove(path)]. *)
Definition os_Remove (path : string) (fault : bool) (w : World)
  : result unit * World :=
  match fs w !! path with
  | Some _ =>
      if fault then (Fail (os_Error "remove" path), w)
      else (Ok tt, sys (SysRemove path) (set_fs (delete path (fs w)) w))
  | None => (Fail (os_Error "remove" path), w)
  end.

(** [os.Stat(path)]: the size, or [None] for a missing file
    ([os.IsNotExist]), or another error. *)
Definition os_Stat (path : string) (fault : bool) (w : World)
  : result (option Z) :=
  match fs w !! path with
  | None => Ok None
  | Some n =>
      if fault then Fail (os_Error "stat" path)
      else Ok (Some (Z.of_nat (String.length (content n))))
  end.

(** A name that a directory entry can have. *)
Definition entry_name (n : string) : bool :=
  negb (Str.has_slash n) && negb (String.eqb n "") && negb (String.eqb n ".")
  && negb (String.eqb n "..").

(** [k] names an entry of directory [dir]. *)
Definition child_of (dir k : string) : bool :=
  entry_name (Path.Base k) && String.eqb (Path.Join dir (Path.Base k)) k.

Definition name_le (a b : DirEntry) : Prop :=
  String.leb (de_Name a) (de_Name b) = true.

Global Instance name_le_dec a b : Decision (name_le a b).
Proof. unfold name_le. apply _. Defined.

(** [os.ReadDir(dir)]: the entries of the directory, sorted by name. *)
Definition os_ReadDir (dir : string) (fault : bool) (w : World)
  : result (list DirEntry) :=
  if fault then Fail (os_Error "open" dir)
  else
    Ok (merge_sort name_le
          (omap (fun kn : string * Node =>
                   if child_of dir kn.1
                   then Some (mkDirEntry (Path.Base kn.1) (kind kn.2))
                   else None)
                (map_to_list (fs w)))).

(** *** The processor ([src/audit/log_processor.go]) *)

Definition Handler : Type := Log -> World -> result unit * World.

(** The channels and the mutex of the Go struct have no counterpart
    here: every function below runs from its first statement to its
    return, as it does while it holds [p.Lock]. *)
Record LogProcessor : Type := mkLogProcessor {
  auditLogDir : string;
  auditLogFile : string;
  logHandler : Handler;
  ProcessingJobInterval : Z;
  ExpirationJobInterval : Z;
  LogExpiration : Z
}.

Record AuditLogProcessorOptions : Type := mkOptions {
  opt_AuditLogPath : string;
  opt_ProcessingJobInterval : Z;
  opt_ExpirationJobInterval : Z;
  opt_LogExpiration : Z
}.

(** [src/audit/metrics.go]. *)
Definition request_labels (request : option TransactionRequest)
  : string * string * string :=
  match request with
  | Some r =>
      match url_Parse (req_URI r) with
      | Ok (host, path) => (req_Method r, host, path)
      | Fail _ => (req_Method r, "unknown", "unknown")
      end
  | None => ("unknown", "unknown", "unknown")
  end.

Definition sendTransactionMetrics (log : Log) (w : World) : World :=
  let request := tx_Request (log_Transaction log) in
  let response := tx_Response (log_Transaction log) in
  let statusCode :=
    match response with
    | Some r => Strconv.FormatInt (resp_Status r)
    | None => "unknown"
    end in
  let '(method, host, path) := request_labels request in
  set_transactions
    (Inc [statusCode; method; host; path] (metricAuditLogTransactionsCount w)) w.

(** [fmt.Sprintf("%s-%d", msg.Data.File, msg.Data.ID)]. *)
Definition ruleID (msg : Message) : string :=
  md_File (msg_Data msg) +:+ "-" +:+ Strconv.FormatInt (md_ID (msg_Data msg)).

Definition sendRuleViolationMetrics (log : Log) (w : World) : World :=
  let request := tx_Request (log_Transaction log) in
  let '(method, host, path) := request_labels request in
  fold_left
    (fun w msg =>
       set_violations
         (Inc [ruleID msg; method; host; path] (metricAuditLogRuleViolations w)) w)
    (log_Messages log) w.

Definition defaultLogHandler (log : Log) (w : World) : result unit * World :=
  let w := emit LevelDebug "Processing log entry"
             [AStr "id"; AStr (tx_ID (log_Transaction log));
              AStr "messages"; AInt (Z.of_nat (length (log_Messages log)))] w in
  match log_Messages log with
  | [] => (Ok tt, w)
  | _ =>
      let logFields :=
        [AStr "id"; AStr (tx_ID (log_Transaction log));
         AStr "client_ip"; AStr (tx_ClientIP (log_Transaction log))] in
      let logFields :=
        match tx_Request (log_Transaction log) with
        | Some request =>
            logFields ++ [AStr "method"; AStr (req_Method request);
                          AStr "uri"; AStr (req_URI request);
                          AStr "protocol"; AStr (req_Protocol request)]
        | None => logFields
        end in
      let rules :=
        flat_map (fun msg => ["rule_id"; ruleID msg; "message"; md_Msg (msg_Data msg)])
          (log_Messages log) in
      let logFields := logFields ++ [AStr "rules"; AStrs rules] in
      let w := emit LevelWarn "Rule violations" logFields w in
      let w := sendTransactionMetrics log w in
      let w := sendRuleViolationMetrics log w in
      (Ok tt, w)
  end.

Definition NewLogProcessor (options : AuditLogProcessorOptions) : LogProcessor :=
  {| auditLogDir := Path.Dir (opt_AuditLogPath options);
     auditLogFile := Path.Base (opt_AuditLogPath options);
     logHandler := defaultLogHandler;
     ProcessingJobInterval := opt_ProcessingJobInterval options;
     ExpirationJobInterval := opt_ExpirationJobInterval options;
     LogExpiration := opt_LogExpiration options |}.

(** [processor.logHandler = handler], as the tests do. *)
Definition with_handler (h : Handler) (p : LogProcessor) : LogProcessor :=
  {| auditLogDir := auditLogDir p;
     auditLogFile := auditLogFile p;
     logHandler := h;
     ProcessingJobInterval := ProcessingJobInterval p;
     ExpirationJobInterval := ExpirationJobInterval p;
     LogExpiration := LogExpiration p |}.

Definition generateNewBackupFilename (p : LogProcessor) (timestamp : GoTime.Time)
  : string :=
  let timestampStr := Strconv.FormatInt (GoTime.Unix_of timestamp) in
  Path.Join (auditLogDir p) (auditLogFile p +:+ "." +:+ timestampStr).

Definition parseTimestampFromBackupFilename (p : LogProcessor) (filename : string)
  : result GoTime.Time :=
  let base := Path.Base filename in
  let timestampStr := Str.TrimPrefix base (auditLogFile p +:+ ".") in
  match Strconv.ParseInt timestampStr with
  | Fail err => Fail (fmt_Errorf "invalid timestamp in filename" err)
  | Ok timestampInt => Ok (GoTime.Unix timestampInt 0)
  end.

Definition isBackupFile (p : LogProcessor) (filename : string) : bool :=
  let base := Path.Base filename in
  if negb (Str.HasPrefix base (auditLogFile p +:+ ".")) then false
  else is_ok (parseTimestampFromBackupFilename p filename).

(** What the outside decides during one rotation: the wall clock and
    which system calls fail. *)
Record RotateEnv : Type := mkRotateEnv {
  rot_now : GoTime.Time;
  rot_open_fault : bool;
  rot_create_fault : bool;
  rot_copy_fault : option nat;
  rot_truncate_fault : bool
}.

Definition rotateLogs (p : LogProcessor) (env : RotateEnv) (w : World)
  : result string * World :=
  let logPath := Path.Join (auditLogDir p) (auditLogFile p) in
  match os_Open logPath (rot_open_fault env) w with
  | (Fail err, w) => (Fail (fmt_Errorf "failed to open audit log" err), w)
  | (Ok auditLog, w) =>
      let copyName := generateNewBackupFilename p (rot_now env) in
      match os_Create copyName (rot_create_fault env) w with
      | (Fail err, w) =>
          (Fail (fmt_Errorf "failed to create copy of audit log" err),
           os_Close auditLog w)
      | (Ok copyFile, w) =>
          match io_Copy copyFile auditLog (rot_copy_fault env) w with
          | (Fail err, w) =>
              (Fail (fmt_Errorf "failed to copy audit log contents" err),
               os_Close auditLog (os_Close copyFile w))
          | (Ok _, w) =>
              let w := os_Close auditLog w in
              match os_Truncate0 logPath (rot_truncate_fault env) w with
              | (Fail err, w) =>
                  (Fail (fmt_Errorf "failed to truncate audit log" err),
                   os_Close auditLog (os_Close copyFile w))
              | (Ok _, w) =>
                  (Ok copyName, os_Close auditLog (os_Close copyFile w))
              end
          end
      end
  end.

Record ExpireEnv : Type := mkExpireEnv {
  exp_now : GoTime.Time;
  exp_readdir_fault : bool;
  exp_remove_fault : string -> bool
}.

(** The body of the loop over the directory entries. *)
Definition expire_entry (p : LogProcessor) (env : ExpireEnv) (w : World)
  (file : DirEntry) : World :=
  if bool_decide (de_Kind file = Directory) || negb (bool_decide (de_Kind file = Regular))
  then w
  else if negb (isBackupFile p (de_Name file)) then w
  else
    match parseTimestampFromBackupFilename p (de_Name file) with
    | Fail err =>
        emit LevelWarn "Failed to parse timestamp from backup log filename, skipping"
          [AStr "file"; AStr (de_Name file); AStr "error"; AErr err] w
    | Ok timestamp =>
        if LogExpiration p <? GoTime.Sub (exp_now env) timestamp then
          let fullPath := Path.Join (auditLogDir p) (de_Name file) in
          match os_Remove fullPath (exp_remove_fault env fullPath) w with
          | (Fail err, w) =>
              emit LevelWarn "Failed to delete expired audit log file"
                [AStr "file"; AStr fullPath; AStr "error"; AErr err] w
          | (Ok _, w) =>
              emit LevelInfo "Deleted expired audit log file"
                [AStr "file"; AStr fullPath] w
          end
        else w
    end.

Definition expireBackupLogFiles (p : LogProcessor) (env : ExpireEnv) (w : World)
  : result unit * World :=
  let w := emit LevelInfo "Checking for expired audit log files to delete"
             [AStr "expiration"; ADuration (LogExpiration p)] w in
  match os_ReadDir (auditLogDir p) (exp_readdir_fault env) w with
  | Fail err => (Fail (fmt_Errorf "failed to read audit log directory" err), w)
  | Ok files => (Ok tt, fold_left (expire_entry p env) files w)
  end.

Definition checkIfLogsExist (p : LogProcessor) (stat_fault : bool) (w : World)
  : result bool :=
  let logPath := Path.Join (auditLogDir p) (auditLogFile p) in
  match os_Stat logPath stat_fault w with
  | Ok None => Ok false
  | Fail err => Fail (fmt_Errorf "failed to stat audit log" err)
  | Ok (Some size) => if size =? 0 then Ok false else Ok true
  end.

(** What the outside decides while one file is parsed: whether it can
    be opened, and after how many bytes reading fails, if it does. *)
Record ReadEnv : Type := mkReadEnv {
  rd_open_fault : bool;
  rd_read_fault : option (nat * error)
}.

(** The bytes that the opened file delivers to the scanner, and how the
    delivery ends.  The bytes are those the file holds when it is
    opened. *)
Definition delivered (file : string) (env : ReadEnv) (w : World)
  : string * option error :=
  match fs w !! file with
  | Some (mkNode Regular data) =>
      match rd_read_fault env with
      | Some (n, err) => (String.substring 0 n data, Some err)
      | None => (data, None)
      end
  | _ => ("", Some (os_Error "read" file))
  end.

(** Everything [scanner.Scan()] returns for the opened file: its lines
    in order, and the final [scanner.Err()]. *)
Definition scanned (file : string) (env : ReadEnv) (w : World)
  : list string * option error :=
  let '(data, read_err) := delivered file env w in
  Bufio.Scan data read_err.

(** What happened to one scanned line: it did not deserialize and was
    skipped, or its record was given to [p.logHandler], which returned
    [res]. *)
Inductive LineOutcome : Type :=
| Skipped (err : error)
| Dispatched (logEntry : Log) (res : result unit).

(** The loop [for scanner.Scan() { ... }] over the lines the scanner
    returns.  [trace] records the outcome of every line so far. *)
Fixpoint process_lines (h : Handler) (lines : list string) (w : World)
  (processingErrors : bool) (trace : list LineOutcome)
  : World * bool * list LineOutcome :=
  match lines with
  | [] => (w, processingErrors, trace)
  | line :: rest =>
      let w := emit LevelDebug "Processing audit log entry" [AStr "line"; AStr line] w in
      match json_Unmarshal line with
      | Fail err =>
          let w := emit LevelWarn "Failed to parse log entry, skipping"
                     [AStr "error"; AErr err; AStr "line"; AStr line] w in
          process_lines h rest w true (trace ++ [Skipped err])
      | Ok logEntry =>
          match h logEntry w with
          | (Fail err, w) =>
              let w := emit LevelWarn "Failed to process log entry"
                         [AStr "error"; AErr err] w in
              process_lines h rest w true (trace ++ [Dispatched logEntry (Fail err)])
          | (Ok u, w) =>
              process_lines h rest w processingErrors
                (trace ++ [Dispatched logEntry (Ok u)])
          end
      end
  end.

(** The result, the world afterwards, and the outcome of every scanned
    line, in file order. *)
Definition ProcessLogFile (p : LogProcessor) (env : ReadEnv) (filename : string)
  (w : World) : result unit * World * list LineOutcome :=
  let w := emit LevelInfo "Processing audit log file" [AStr "file"; AStr filename] w in
  match os_Open filename (rd_open_fault env) w with
  | (Fail err, w) => (Fail (fmt_Errorf "failed to open log file" err), w, [])
  | (Ok file, w) =>
      let '(lines, scanner_Err) := scanned file env w in
      let '(w, processingErrors, trace) :=
        process_lines (logHandler p) lines w false [] in
      if processingErrors then
        (Fail (errors_New "errors occurred during log processing"),
         os_Close file w, trace)
      else
        match scanner_Err with
        | Some err =>
            (Fail (fmt_Errorf "failed to read log file" err), os_Close file w, trace)
        | None =>
            let w := emit LevelInfo "Completed processing audit log file"
                       [AStr "file"; AStr filename] w in
            (Ok tt, os_Close file w, trace)
        end
  end.


(** A line fails when it does not deserialize, or when the handler
    returns an error for its record. *)
Definition failed (o : LineOutcome) : bool :=
  match o with
  | Skipped _ => true
  | Dispatched _ (Fail _) => true
  | Dispatched _ (Ok _) => false
  end.

(** *** The two periodic jobs

    A job is run against the sequence of signals its [select] receives:
    ticks of its ticker, each with what the outside decides during that
    tick, and the stop signal. *)

Inductive Signal (E : Type) : Type :=
| Tick (env : E)
| StopSignal.
#[global] Arguments Tick {E} env.
#[global] Arguments StopSignal {E}.

Inductive JobStatus : Type :=
| Exited
| Waiting
| Panicked (msg : string).

Fixpoint run_job {E : Type} (body : E -> World -> World)
  (signals : list (Signal E)) (w : World) : JobStatus * World :=
  match signals with
  | [] => (Waiting, w)
  | StopSignal :: _ => (Exited, w)
  | Tick env :: rest => run_job body rest (body env w)
  end.

Record TickEnv : Type := mkTickEnv {
  tick_stat_fault : bool;
  tick_rotate : RotateEnv;
  tick_read : ReadEnv
}.

Definition processing_tick (p : LogProcessor) (env : TickEnv) (w : World) : World :=
  match checkIfLogsExist p (tick_stat_fault env) w with
  | Fail err => emit LevelError "Failed to check for audit logs" [AStr "error"; AErr err] w
  | Ok false => w
  | Ok true =>
      let w := emit LevelInfo "Detected audit log data, starting processing" [] w in
      match rotateLogs p (tick_rotate env) w with
      | (Fail err, w) =>
          emit LevelError "Failed to rotate audit log" [AStr "error"; AErr err] w
      | (Ok filename, w) =>
          match ProcessLogFile p (tick_read env) filename w with
          | (Fail err, w, _) =>
              emit LevelError "Failed to process audit log file"
                [AStr "error"; AErr err; AStr "file"; AStr filename] w
          | (Ok _, w, _) => w
          end
      end
  end.

(** [time.NewTicker(d)] panics unless [d] is positive. *)
Definition NewTicker_panics (d : Z) : bool := d <=? 0.

Definition StartProcessingJob (p : LogProcessor) (signals : list (Signal TickEnv))
  (w : World) : JobStatus * World :=
  let w := emit LevelInfo "Starting audit log processing job"
             [AStr "interval"; ADuration (ProcessingJobInterval p)] w in
  if NewTicker_panics (ProcessingJobInterval p)
  then (Panicked "non-positive interval for NewTicker", w)
  else run_job (processing_tick p) signals w.

Definition expiration_tick (p : LogProcessor) (env : ExpireEnv) (w : World) : World :=
  match expireBackupLogFiles p env w with
  | (Fail err, w) =>
      emit LevelError "Failed to expire backup log files" [AStr "error"; AErr err] w
  | (Ok _, w) => w
  end.

Definition StartExpirationJob (p : LogProcessor) (signals : list (Signal ExpireEnv))
  (w : World) : JobStatus * World :=
  let w := emit LevelInfo "Starting audit log expiration job"
             [AStr "interval"; ADuration (ExpirationJobInterval p);
              AStr "expiration"; ADuration (LogExpiration p)] w in
  if NewTicker_panics (ExpirationJobInterval p)
  then (Panicked "non-positive interval for NewTicker", w)
  else run_job (expiration_tick p) signals w.

End Audit.

(** ** The process environment and the start-up code ([main.go]) *)

Definition Env : Type := gmap string string.

(** [os.Getenv]: the value of the variable, and [""] when the variable
    is not set. *)
Definition os_Getenv (env : Env) (key : string) : string :=
  default "" (env !! key).

(** How a function of [main.go] ends: it returns, or it ends the
    process with [os.Exit]. *)
Inductive Exits (A : Type) : Type :=
| Returns (a : A)
| os_Exit (code : Z).
Arguments Returns {A} a.
Arguments os_Exit {A} code.

Definition getEnvOrDefault (env : Env) (envVar defaultValue : string) : string :=
  let value := os_Getenv env envVar in
  if negb (String.eqb value "") then value else defaultValue.

(** The package-level variables of [main.go], which are set from the
    environment when the program starts. *)
Record Globals : Type := mkGlobals {
  expirationStr : string;
  expirationJobIntervalStr : string;
  processingJobIntervalStr : string;
  auditLogPath : string;
  logLevel : string
}.

Definition globals (env : Env) : Globals :=
  {| expirationStr := getEnvOrDefault env "AUDIT_LOG_EXPIRATION" "24h";
     expirationJobIntervalStr := getEnvOrDefault env "AUDIT_LOG_EXPIRATION_JOB_INTERVAL" "1h";
     processingJobIntervalStr := getEnvOrDefault env "AUDIT_LOG_PROCESSING_JOB_INTERVAL" "10s";
     auditLogPath := getEnvOrDefault env "AUDIT_LOG_PATH" "/var/log/coraza-audit.log";
     logLevel := getEnvOrDefault env "LOG_LEVEL" "info" |}.

Definition getLogLevel (g : Globals) : Level :=
  if String.eqb (logLevel g) "info" then LevelInfo
  else if String.eqb (logLevel g) "warn" then LevelWarn
  else if String.eqb (logLevel g) "error" then LevelError
  else if String.eqb (logLevel g) "debug" then LevelDebug
  else LevelInfo.

Definition set_LogExpiration (d : Z) (o : AuditLogProcessorOptions)
  : AuditLogProcessorOptions :=
  mkOptions (opt_AuditLogPath o) (opt_ProcessingJobInterval o)
    (opt_ExpirationJobInterval o) d.

Definition set_ExpirationJobInterval (d : Z) (o : AuditLogProcessorOptions)
  : AuditLogProcessorOptions :=
  mkOptions (opt_AuditLogPath o) (opt_ProcessingJobInterval o) d (opt_LogExpiration o).

Definition set_ProcessingJobInterval (d : Z) (o : AuditLogProcessorOptions)
  : AuditLogProcessorOptions :=
  mkOptions (opt_AuditLogPath o) d (opt_ExpirationJobInterval o) (opt_LogExpiration o).

Section Main.

(** [time.ParseDuration], a library function [main.go] calls and does
    not define. *)
Variable time_ParseDuration : string -> result Z.

(** The result, and the calls of [slog.Error] made on the way. *)
Definition auditLogProcessorOptions (g : Globals)
  : Exits AuditLogProcessorOptions * list LogRecord :=
  let opts := mkOptions (auditLogPath g) 0 0 0 in
  match (if negb (String.eqb (expirationStr g) "") then
           match time_ParseDuration (expirationStr g) with
           | Fail err => Fail err
           | Ok logExpiration => Ok (set_LogExpiration logExpiration opts)
           end
         else Ok opts) with
  | Fail err =>
      (os_Exit 1, [mkLogRecord LevelError "Failed to parse log expiration duration"
                     [AStr "error"; AErr err]])
  | Ok opts =>
      match (if negb (String.eqb (expirationJobIntervalStr g) "") then
               match time_ParseDuration (expirationJobIntervalStr g) with
               | Fail err => Fail err
               | Ok expirationJobInterval =>
                   Ok (set_ExpirationJobInterval expirationJobInterval opts)
               end
             else Ok opts) with
      | Fail err =>
          (os_Exit 1, [mkLogRecord LevelError "Failed to parse log expiration job interval"
                         [AStr "error"; AErr err]])
      | Ok opts =>
          match (if negb (String.eqb (processingJobIntervalStr g) "") then
                   match time_ParseDuration (processingJobIntervalStr g) with
                   | Fail err => Fail err
                   | Ok processingJobInterval =>
                       Ok (set_ProcessingJobInterval processingJobInterval opts)
                   end
                 else Ok opts) with
          | Fail err =>
              (os_Exit 1, [mkLogRecord LevelError "Failed to parse log processing job interval"
                             [AStr "error"; AErr err]])
          | Ok opts => (Returns opts, [])
          end
      end
  end.

End Main.

(** ** Package [strings] of the Go library *)

Module Strings.

(** [strings.Contains]. *)
Fixpoint Contains (s substr : string) : bool :=
  String.prefix substr s
  || match s with
     | String _ s' => Contains s' substr
     | EmptyString => false
     end.

(** [strings.Split(s, sep)] for a separator of one byte. *)
Definition Split (s : string) (sep : ascii) : list string := Str.split sep s.

(** The table [asciiSpace]: tab, newline, vertical tab, form feed,
    carriage return and space. *)
Definition asciiSpace (c : ascii) : bool :=
  let n := nat_of_ascii c in
  ((9 <=? n)%nat && (n <=? 13)%nat) || (n =? 32)%nat.

(** [c >= utf8.RuneSelf]: the byte is not an ASCII character. *)
Definition not_ascii (c : ascii) : bool := (128 <=? nat_of_ascii c)%nat.

(** The second loop of [strings.TrimSpace], on the bytes from the end:
    what is left of them, and whether a byte that is not ASCII stopped
    the loop. *)
Fixpoint scan_right (reversed : list ascii) : list ascii * bool :=
  match reversed with
  | [] => ([], false)
  | c :: rest =>
      if not_ascii c then (reversed, true)
      else if asciiSpace c then scan_right rest
      else (reversed, false)
  end.

Section Unicode.

(** [strings.TrimFunc(s, unicode.IsSpace)] and
    [strings.TrimRightFunc(s, unicode.IsSpace)], to which
    [strings.TrimSpace] hands over when it meets a byte that is not
    ASCII. *)
Variable TrimFunc_IsSpace : string -> string.
Variable TrimRightFunc_IsSpace : string -> string.

Definition trim_right (s : string) : string :=
  let '(kept, fallback) := scan_right (rev (list_ascii_of_string s)) in
  let s' := string_of_list_ascii (rev kept) in
  if fallback then TrimRightFunc_IsSpace s' else s'.

(** [strings.TrimSpace]. *)
Fixpoint TrimSpace (s : string) : string :=
  match s with
  | EmptyString => EmptyString
  | String c s' =>
      if not_ascii c then TrimFunc_IsSpace s
      else if asciiSpace c then TrimSpace s'
      else trim_right s
  end.

End Unicode.

End Strings.

(** ** Package [net] of the Go library: host and port of an address *)

Module Net.

(** [bytealg.IndexByteString] and [bytealg.LastIndexByteString]. *)
Fixpoint IndexByte (s : string) (c : ascii) : option nat :=
  match s with
  | EmptyString => None
  | String c' s' => if Ascii.eqb c' c then Some 0%nat else S <$> IndexByte s' c
  end.

Fixpoint LastIndexByte (s : string) (c : ascii) : option nat :=
  match s with
  | EmptyString => None
  | String c' s' =>
      match LastIndexByte s' c with
      | Some i => Some (S i)
      | None => if Ascii.eqb c' c then Some 0%nat else None
      end
  end.

(** [s[i:j]] for [i <= j <= len(s)]. *)
Definition slice (s : string) (i j : nat) : string := String.substring i (j - i) s.

Inductive AddrError : Type := mkAddrError (Err Addr : string).

Definition first_is (s : string) (c : ascii) : bool :=
  match s with
  | String c' _ => Ascii.eqb c' c
  | EmptyString => false
  end.

(** [net.SplitHostPort]. *)
Definition SplitHostPort (hostport : string) : AddrError + string * string :=
  let missingPort := "missing port in address" in
  let tooManyColons := "too many colons in address" in
  let addrErr why := inl (mkAddrError why hostport) in
  match LastIndexByte hostport ":" with
  | None => addrErr missingPort
  | Some i =>
      let finish (host : string) (j k : nat) :=
        if bool_decide (is_Some (IndexByte (Str.drop j hostport) "[")) then
          addrErr "unexpected '[' in address"
        else if bool_decide (is_Some (IndexByte (Str.drop k hostport) "]")) then
          addrErr "unexpected ']' in address"
        else inr (host, Str.drop (i + 1) hostport) in
      if first_is hostport "[" then
        match IndexByte hostport "]" with
        | None => addrErr "missing ']' in address"
        | Some end_ =>
            if (end_ + 1 =? String.length hostport)%nat then addrErr missingPort
            else if (end_ + 1 =? i)%nat then finish (slice hostport 1 end_) 1%nat (end_ + 1)%nat
            else if first_is (Str.drop (end_ + 1) hostport) ":" then addrErr tooManyColons
            else addrErr missingPort
        end
      else
        let host := slice hostport 0 i in
        if bool_decide (is_Some (IndexByte host ":")) then addrErr tooManyColons
        else finish host 0%nat 0%nat
  end.

(** [net.JoinHostPort]: a host with a colon is taken for an IPv6
    literal and put in brackets. *)
Definition JoinHostPort (host port : string) : string :=
  if bool_decide (is_Some (IndexByte host ":")) then "[" +:+ host +:+ "]:" +:+ port
  else host +:+ ":" +:+ port.

End Net.

(** ** The WAF configuration ([src/coraza/coraza.go]) *)

(** A [coraza.WAFConfig], as far as this program builds one: the
    directive texts in the order they were added.  [WithDirectives]
    returns a configuration with one more text at the end. *)
Definition WAFConfig : Type := list string.

Definition WithDirectives (cfg : WAFConfig) (directives : string) : WAFConfig :=
  cfg ++ [directives].

Definition tab : string := String "009" "".

(** [src/audit/log_processor.go]; the text is the raw string literal of
    the source with the log path in the place of [%s]. *)
Definition SetAuditLogDirectives {U : Type} (p : LogProcessor U) (cfg : WAFConfig)
  : WAFConfig :=
  let nl := String "010" "" in
  let auditLogDirectives :=
    nl +:+ tab +:+ "  SecAuditLog " +:+ Path.Join (auditLogDir p) (auditLogFile p)
    +:+ nl +:+ tab +:+ tab +:+ "SecAuditLogParts AFHKZ"
    +:+ nl +:+ tab +:+ tab +:+ "SecAuditLogFormat JSON"
    +:+ nl +:+ tab +:+ tab +:+ "SecAuditLogType Serial"
    +:+ nl +:+ tab +:+ tab +:+ "SecAuditEngine On" in
  WithDirectives cfg auditLogDirectives.

(** The result, and the calls of [slog] made on the way. *)
Definition loadDirectivesFromEnv (env : Env) : result string * list LogRecord :=
  let directives := os_Getenv env "DIRECTIVES" in
  if String.eqb directives "" then
    (Fail (errors_New "DIRECTIVES environment variable is required but not set"), [])
  else
    let requiredDirectives := ["SecRuleEngine"] in
    let warnings :=
      flat_map (fun required =>
                  if negb (Strings.Contains directives required)
                  then [mkLogRecord LevelWarn "Missing recommended directive"
                          [AStr "directive"; AStr required]]
                  else []) requiredDirectives in
    (Ok directives,
     warnings ++ [mkLogRecord LevelInfo "Loaded WAF directives from environment"
                    [AStr "length"; AInt (Z.of_nat (String.length directives))]]).

(** ** The HTTP middleware ([src/middleware/middleware.go]) *)

Record URL : Type := mkURL {
  url_Scheme : string;
  url_Host : string;
  url_Path : string
}.

(** An [http.Request], as far as the middleware reads or writes it.
    The keys of [rq_Header] are in canonical form, as the server stores
    them. *)
Record Request : Type := mkHttpRequest {
  rq_Method : string;
  rq_URL : URL;
  rq_Host : string;
  rq_RemoteAddr : string;
  rq_Header : gmap string (list string)
}.

(** [h.Get(key)] for a key in canonical form: the first value stored
    under the key, and [""] when there is none. *)
Definition Header_Get (h : gmap string (list string)) (key : string) : string :=
  match h !! key with
  | Some (v :: _) => v
  | _ => ""
  end.

(** [r.UserAgent()]. *)
Definition UserAgent (r : Request) : string := Header_Get (rq_Header r) "User-Agent".

(** Calls on an [http.ResponseWriter].  [RW_Error msg code] is
    [http.Error(w, msg, code)], which sets headers, calls
    [w.WriteHeader(code)] and writes the message. *)
Inductive RWCall : Type :=
| RW_Header_Set (key value : string)
| RW_Header_Del (key : string)
| RW_WriteHeader (code : Z)
| RW_Write (data : string)
| RW_Error (msg : string) (code : Z).

(** What serving one request amounts to: the calls made on the
    response writer, in order; the request, which every handler of a
    chain holds by the same pointer, as it is when the handler is done;
    the log calls made; and the value of the panic, when the handler
    ends in one. *)
Record Served : Type := mkServed {
  sv_calls : list RWCall;
  sv_request : Request;
  sv_slog : list LogRecord;
  sv_panic : option any
}.

Definition HttpHandler : Type := Request -> Served.

Definition StatusOK : Z := 200.
Definition StatusInternalServerError : Z := 500.

Definition PanicMiddleware (next : HttpHandler) : HttpHandler :=
  fun r =>
    let served := next r in
    match sv_panic served with
    | Some err =>
        {| sv_calls := sv_calls served
                       ++ [RW_Error "Internal Server Error" StatusInternalServerError];
           sv_request := sv_request served;
           sv_slog := sv_slog served
                      ++ [mkLogRecord LevelError "Recovered from panic in HTTP handler"
                            [AStr "error"; err]];
           sv_panic := None |}
    | None => served
    end.

(** [lrw.statusCode] after the calls the wrapped handler has made:
    every [WriteHeader] that goes through the [loggingResponseWriter]
    overwrites it. *)
Definition statusCode_after (calls : list RWCall) (statusCode : Z) : Z :=
  fold_left (fun statusCode call =>
               match call with
               | RW_WriteHeader code => code
               | RW_Error _ code => code
               | _ => statusCode
               end) calls statusCode.

(** [elapsed] is what [time.Since(start)] returns, in nanoseconds. *)
Definition LoggingMiddleware (next : HttpHandler) (logLevel : Level) (elapsed : Z)
  : HttpHandler :=
  fun r =>
    let served := next r in
    match sv_panic served with
    | Some _ => served
    | None =>
        let r := sv_request served in
        let statusCode := statusCode_after (sv_calls served) StatusOK in
        {| sv_calls := sv_calls served;
           sv_request := r;
           sv_slog := sv_slog served
                      ++ [mkLogRecord logLevel "HTTP request"
                            [AStr "method"; AStr (rq_Method r);
                             AStr "path"; AStr (url_Path (rq_URL r));
                             AStr "remote_addr"; AStr (rq_RemoteAddr r);
                             AStr "user_agent"; AStr (UserAgent r);
                             AStr "status"; AInt statusCode;
                             AStr "duration_ms"; AInt (Z.quot elapsed 1000000)]];
           sv_panic := None |}
    end.

Definition set_RemoteAddr (a : string) (r : Request) : Request :=
  mkHttpRequest (rq_Method r) (rq_URL r) (rq_Host r) a (rq_Header r).

Definition set_Scheme (v : string) (r : Request) : Request :=
  mkHttpRequest (rq_Method r)
    (mkURL v (url_Host (rq_URL r)) (url_Path (rq_URL r)))
    (rq_Host r) (rq_RemoteAddr r) (rq_Header r).

Definition set_Hosts (v : string) (r : Request) : Request :=
  mkHttpRequest (rq_Method r)
    (mkURL (url_Scheme (rq_URL r)) v (url_Path (rq_URL r)))
    v (rq_RemoteAddr r) (rq_Header r).

Definition set_Path (v : string) (r : Request) : Request :=
  mkHttpRequest (rq_Method r)
    (mkURL (url_Scheme (rq_URL r)) (url_Host (rq_URL r)) v)
    (rq_Host r) (rq_RemoteAddr r) (rq_Header r).

Definition set_Method (v : string) (r : Request) : Request :=
  mkHttpRequest v (rq_URL r) (rq_Host r) (rq_RemoteAddr r) (rq_Header r).

Section Proxy.

Variable TrimFunc_IsSpace : string -> string.
Variable TrimRightFunc_IsSpace : string -> string.

(** The request as [ProxyHeaderMiddleware] hands it to the next
    handler. *)
Definition forwarded (r : Request) : Request :=
  let r :=
    let xff := Header_Get (rq_Header r) "X-Forwarded-For" in
    if negb (String.eqb xff "") then
      match Strings.Split xff "," with
      | ips0 :: _ =>
          let clientIP :=
            Strings.TrimSpace TrimFunc_IsSpace TrimRightFunc_IsSpace ips0 in
          if negb (String.eqb clientIP "") then
            match Net.SplitHostPort (rq_RemoteAddr r) with
            | inr (_, port) => set_RemoteAddr (Net.JoinHostPort clientIP port) r
            | inl _ => set_RemoteAddr (clientIP +:+ ":0") r
            end
          else r
      | [] => r
      end
    else r in
  let r :=
    let proto := Header_Get (rq_Header r) "X-Forwarded-Proto" in
    if negb (String.eqb proto "") then set_Scheme proto r else r in
  let r :=
    let host := Header_Get (rq_Header r) "X-Forwarded-Host" in
    if negb (String.eqb host "") then set_Hosts host r else r in
  let r :=
    let uri := Header_Get (rq_Header r) "X-Forwarded-Uri" in
    if negb (String.eqb uri "") then set_Path uri r else r in
  let r :=
    let method := Header_Get (rq_Header r) "X-Forwarded-Method" in
    if negb (String.eqb method "") then set_Method method r else r in
  r.

Definition ProxyHeaderMiddleware (next : HttpHandler) : HttpHandler :=
  fun r => next (forwarded r).

End Proxy.

(** ** Vocabulary of the properties *)

(** An element that [path.Clean] keeps as it is. *)
Definition plain (e : string) : Prop := e <> "" /\ e <> "." /\ e <> "..".

Definition with_slash (rooted : bool) (out : string) : string :=
  if (rooted && negb (String.length out =? 1)%nat)
     || (negb rooted && negb (String.length out =? 0)%nat)
  then out +:+ "/" else out.

(** While a rooted path is cleaned the buffer keeps its leading slash. *)
Definition rooted_ok (rooted : bool) (st : string * nat) : Prop :=
  rooted = true -> st.2 = 1%nat /\ exists r, st.1 = String Str.slash r.

Definition finish (out : string) : string :=
  if String.eqb out "" then "." else out.

(** The decision the loop body takes for one directory entry. *)
Definition expired {U : Type} (p : LogProcessor U) (now : GoTime.Time)
  (file : DirEntry) : bool :=
  bool_decide (de_Kind file = Regular)
  && isBackupFile p (de_Name file)
  && match parseTimestampFromBackupFilename p (de_Name file) with
     | Ok timestamp => LogExpiration p <? GoTime.Sub now timestamp
     | Fail _ => false
     end.

(** The same decision in the words of the specification: [k] is a
    regular file of the log directory, its name is the base name, a
    dot and a decimal unix time, and its age exceeds the retention. *)
Definition expired_backup {U : Type} (p : LogProcessor U) (now : GoTime.Time)
  (w : World U) (k : string) : Prop :=
  exists (n : Node) (suffix : string) (ts : Z),
    fs w !! k = Some n
    /\ child_of (auditLogDir p) k = true
    /\ kind n = Regular
    /\ Path.Base k = auditLogFile p +:+ "." +:+ suffix
    /\ Strconv.decimal_int64 suffix = Some ts
    /\ LogExpiration p < GoTime.Sub now (GoTime.mkTime ts 0).

(** What the loop does with one line: a line that deserializes is
    given to the handler, as the record it deserializes to; any other
    line is skipped. *)
Definition line_outcome (json_Unmarshal : string -> result Log)
  (line : string) (o : LineOutcome) : Prop :=
  match json_Unmarshal line with
  | Ok logEntry => exists res, o = Dispatched logEntry res
  | Fail err => o = Skipped err
  end.


(** The error [ProcessLogFile] returns when a line failed. *)
Definition aggregate_failure : error :=
  errors_New "errors occurred during log processing".




(** A record handler that leaves the files and the trace of system
    calls as they are, as the default handler and the handlers of the
    test suite do. *)
Definition keeps_files {U : Type} (h : Handler U) : Prop :=
  forall (log : Log) (w : World U),
    fs (h log w).2 = fs w /\ syscalls (h log w).2 = syscalls w.

(** Text made of lines: every line is followed by a newline. *)
Definition newline : string := String "010" "".

Fixpoint has_byte (c : ascii) (s : string) : bool :=
  match s with
  | EmptyString => false
  | String c' s' => Ascii.eqb c' c || has_byte c s'
  end.

Definition unlines (ls : list string) : string :=
  fold_right (fun l acc => l +:+ newline +:+ acc) "" ls.

(** A line the scanner's buffer can hold. *)
Definition short_line (l : string) : bool :=
  negb (has_byte "010" l) && (Z.of_nat (String.length l) <? Bufio.MaxScanTokenSize).

(** The client address [ProxyHeaderMiddleware] reads from a request:
    the leftmost entry of [X-Forwarded-For], without the space around
    it. *)
Definition client_ip (TrimFunc_IsSpace TrimRightFunc_IsSpace : string -> string)
  (r : Request) : string :=
  Strings.TrimSpace TrimFunc_IsSpace TrimRightFunc_IsSpace
    (hd "" (Strings.Split (Header_Get (rq_Header r) "X-Forwarded-For") ",")).

(** The status a response ends up with, in the words of the
    documentation of [net/http]: the code of the last [WriteHeader]
    that went through the writer, and 200 when there was none. *)
Definition status_of (call : RWCall) : option Z :=
  match call with
  | RW_WriteHeader code => Some code
  | RW_Error _ code => Some code
  | _ => None
  end.

Definition last_status (calls : list RWCall) : Z :=
  List.last (omap status_of calls) StatusOK.

(** The record [LoggingMiddleware] writes for a request. *)
Definition access_record (logLevel : Level) (elapsed : Z) (r : Request) (status : Z)
  : LogRecord :=
  mkLogRecord logLevel "HTTP request"
    [AStr "method"; AStr (rq_Method r);
     AStr "path"; AStr (url_Path (rq_URL r));
     AStr "remote_addr"; AStr (rq_RemoteAddr r);
     AStr "user_agent"; AStr (UserAgent r);
     AStr "status"; AInt status;
     AStr "duration_ms"; AInt (Z.quot elapsed 1000000)].



(** A path written without redundancy: file names separated by single
    slashes, behind a leading slash when the path is absolute. *)
Fixpoint join_with_slash (es : list string) : string :=
  match es with
  | [] => ""
  | [e] => e
  | e :: es' => e +:+ "/" +:+ join_with_slash es'
  end.

Definition plain_path (rooted : bool) (es : list string) : string :=
  (if rooted then "/" else "") +:+ join_with_slash es.

(** ** A concrete installation used in the examples *)

Module Demo.

Definition decode (line : string) : result Log :=
  match line with
  | String "{" rest =>
      Ok (mkLog (mkTransaction "" 0 rest "10.0.0.7" 0 "" 0 "" None None) [])
  | _ => Fail (errors_New "invalid character")
  end.

Definition parse_url (uri : string) : result (string * string) := Ok ("", uri).

Definition W : Type := World (list Log).

Definition world (files : list (string * Node)) : W :=
  mkWorld (list_to_map files) [] [] ∅ ∅ ([] : list Log).

Definition options : AuditLogProcessorOptions :=
  mkOptions "/var/log/audit.log" 10000000000 1000000000 60000000000.

Definition p : LogProcessor (list Log) :=
  NewLogProcessor (list Log) parse_url options.

Definition calm (now : Z) : RotateEnv :=
  mkRotateEnv (GoTime.mkTime now 500) false false None false.

Definition nl : string := String "010" "".

Definition w0 : W :=
  world [("/var/log/audit.log", mkNode Regular ("{a}" +:+ nl +:+ "{b}" +:+ nl));
         ("/var/log/audit.log.100", mkNode Regular "old");
         ("/var/log/other.txt", mkNode Regular "x")].

(** A handler that keeps the records it is given, as the test suite's
    does, and one that rejects the record with the ID ["b}"]. *)
Definition capture : Handler (list Log) :=
  fun l w =>
    (Ok tt, mkWorld (fs w) (syscalls w) (slog w) (metricAuditLogTransactionsCount w)
              (metricAuditLogRuleViolations w) (user w ++ [l])).


Definition w1 : W :=
  world [("/var/log/audit.log", mkNode Regular "");
         ("/var/log/audit.log.100",
          mkNode Regular ("{a}" +:+ nl +:+ "bad" +:+ nl +:+ "{b}" +:+ nl));
         ("/var/log/audit.log.200",
          mkNode Regular ("{a}" +:+ nl +:+ "{b}" +:+ nl))].

Definition quiet : ReadEnv := mkReadEnv false None.

(** A decoder that reports one rule match for the lines that start
    with ["{!"], and the scenario of four well-formed lines, three of
    them with a rule match. *)
Definition rule : Message :=
  mkMessage "SQLi" (mkMessageData "rules.conf" 7 942100 "" "SQL injection" "" 2 "" 0 0 [] "").

Definition decode_rules (line : string) : result Log :=
  match line with
  | String "{" (String "!" rest) =>
      Ok (mkLog (mkTransaction "" 0 rest "10.0.0.7" 0 "" 0 "" None None) [rule])
  | String "{" rest =>
      Ok (mkLog (mkTransaction "" 0 rest "10.0.0.7" 0 "" 0 "" None None) [])
  | _ => Fail (errors_New "invalid character")
  end.

Definition four_lines : string :=
  "{!a}" +:+ nl +:+ "{!b}" +:+ nl +:+ "{c}" +:+ nl +:+ "{!d}" +:+ nl.

Definition w2 : W := world [("/var/log/audit.log", mkNode Regular four_lines)].

Definition tick (now : Z) : TickEnv := mkTickEnv false (calm now) quiet.

(** The processor with the capturing handler, and a backup file in
    which a line of 65536 bytes stands between two records. *)
Definition capturing : LogProcessor (list Log) := with_handler capture p.

Definition long_line : string :=
  string_of_list_ascii (List.repeat "x"%char (Z.to_nat Bufio.MaxScanTokenSize)).

Definition w3 : W :=
  world [("/var/log/audit.log.300",
          mkNode Regular (unlines ["{a}"] +:+ long_line +:+ nl +:+ "{b}" +:+ nl))].

Definition sweep (now : Z) : ExpireEnv :=
  mkExpireEnv (GoTime.mkTime now 0) false (fun _ => false).

(** Requests as Traefik forwards them, after the test suite of the
    middleware, and two handlers: one that answers 200 and one that
    panics after it has answered. *)
Definition request (remoteAddr : string) (headers : list (string * string)) : Request :=
  mkHttpRequest "GET" (mkURL "" "" "/test") "localhost" remoteAddr
    (list_to_map (map (fun kv => (kv.1, [kv.2])) headers)).

Definition fwd : Request -> Request := forwarded id id.

Definition answers : HttpHandler :=
  fun r => mkServed [RW_WriteHeader StatusOK] r [] None.

Definition panics : HttpHandler :=
  fun r => mkServed [RW_WriteHeader StatusOK] r [] (Some (AStr "boom")).

End Demo.

(** * Properties *)

Example Base_ex1 : Path.Base "/var/log/audit.log" = "audit.log". Proof. reflexivity. Qed.
Example Base_ex2 : Path.Base "a/b//" = "b". Proof. reflexivity. Qed.
Example Base_ex3 : Path.Base "///" = "/". Proof. reflexivity. Qed.
Example Base_ex4 : Path.Base "" = ".". Proof. reflexivity. Qed.
Example Clean_ex1 : Path.Clean "a//b/./c/.." = "a/b". Proof. reflexivity. Qed.
Example Clean_ex2 : Path.Clean "/../a/../.." = "/". Proof. reflexivity. Qed.
Example Clean_ex3 : Path.Clean "../../a/../../b" = "../../../b". Proof. reflexivity. Qed.
Example Clean_ex4 : Path.Clean "a/.." = ".". Proof. reflexivity. Qed.
Example Clean_ex5 : Path.Clean "abc/def/../../.." = "..". Proof. reflexivity. Qed.
Example Join_ex1 : Path.Join "/var/log" "audit.log.17" = "/var/log/audit.log.17". Proof. reflexivity. Qed.
Example Join_ex2 : Path.Join "." "audit.log" = "audit.log". Proof. reflexivity. Qed.
Example Dir_ex1 : Path.Dir "/var/log/audit.log" = "/var/log". Proof. reflexivity. Qed.
Example Dir_ex2 : Path.Dir "audit.log" = ".". Proof. reflexivity. Qed.
Example Dir_ex3 : Path.Dir "/audit.log" = "/". Proof. reflexivity. Qed.

Example Scan_ex1 :
  Bufio.Scan ("a" +:+ Demo.nl +:+ "b" +:+ Demo.nl) None = (["a"; "b"], None).
Proof. reflexivity. Qed.
Example Scan_ex2 :
  Bufio.Scan ("a" +:+ String "013" Demo.nl +:+ Demo.nl +:+ "b") None = (["a"; ""; "b"], None).
Proof. reflexivity. Qed.
Example Scan_ex3 : Bufio.Scan "" None = ([], None).
Proof. reflexivity. Qed.
Example Scan_ex4 :
  Bufio.Scan ("a" +:+ Demo.nl +:+ "b") (Some (os_Error "read" "f"))
  = (["a"; "b"], Some (os_Error "read" "f")).
Proof. reflexivity. Qed.

Example ParseInt_ex1 : Strconv.ParseInt "1700000000" = Ok 1700000000. Proof. reflexivity. Qed.
Example ParseInt_ex2 : Strconv.ParseInt "-12" = Ok (-12). Proof. reflexivity. Qed.
Example ParseInt_ex3 : Strconv.ParseInt "+12" = Ok 12. Proof. reflexivity. Qed.
Example ParseInt_ex4 : Strconv.ParseInt "12a" = Fail strconv_ErrSyntax. Proof. reflexivity. Qed.
Example ParseInt_ex5 : Strconv.ParseInt "9223372036854775808" = Fail strconv_ErrRange. Proof. reflexivity. Qed.
Example ParseInt_ex6 : Strconv.ParseInt "-9223372036854775808" = Ok (-9223372036854775808). Proof. reflexivity. Qed.
Example ParseInt_ex7 : Strconv.ParseInt "99999999999999999999999" = Fail strconv_ErrRange. Proof. reflexivity. Qed.
Example ParseInt_ex8 : Strconv.ParseInt "-" = Fail strconv_ErrSyntax. Proof. reflexivity. Qed.
Example FormatInt_ex1 : Strconv.FormatInt 1700000000 = "1700000000". Proof. reflexivity. Qed.
Example FormatInt_ex2 : Strconv.FormatInt (-45) = "-45". Proof. reflexivity. Qed.
Example FormatInt_ex3 : Strconv.FormatInt 0 = "0". Proof. reflexivity. Qed.


Example rotate_demo :
  let '(r, w) := rotateLogs Demo.p (Demo.calm 1700000000) Demo.w0 in
  r = Ok "/var/log/audit.log.1700000000"
  /\ fs w !! "/var/log/audit.log" = Some (mkNode Regular "")
  /\ fs w !! "/var/log/audit.log.1700000000"
     = Some (mkNode Regular ("{a}" +:+ Demo.nl +:+ "{b}" +:+ Demo.nl)).
Proof. vm_compute. auto. Qed.

(** ** Byte strings *)

Lemma append_assoc (a b c : string) : (a +:+ b) +:+ c = a +:+ (b +:+ c).
Proof. induction a as [|x a IH]; [done|]. simpl. by rewrite IH. Qed.

Lemma append_nil_r (a : string) : a +:+ "" = a.
Proof. induction a as [|x a IH]; [done|]. simpl. by rewrite IH. Qed.

Lemma length_append (a b : string) :
  String.length (a +:+ b) = (String.length a + String.length b)%nat.
Proof. induction a as [|x a IH]; [done|]. simpl. by rewrite IH. Qed.

(** ** Decimal numbers: [strconv.ParseInt] and [strconv.FormatInt] *)

Section StrconvFacts.
Import Strconv.

Lemma digit_val_range c d : digit_val c = Some d -> 0 <= d < 10.
Proof.
  unfold digit_val. case_match; [|discriminate].
  intros [= <-]. lia.
Qed.

Lemma digit_val_char d : 0 <= d < 10 -> digit_val (digit_char d) = Some d.
Proof.
  intros H.
  assert (d = 0 \/ d = 1 \/ d = 2 \/ d = 3 \/ d = 4 \/ d = 5 \/ d = 6
          \/ d = 7 \/ d = 8 \/ d = 9) as Hd by lia.
  repeat destruct Hd as [-> | Hd]; try reflexivity. subst. reflexivity.
Qed.

Lemma digits_value_ge s : forall n, 0 <= n -> n <= digits_value s n.
Proof.
  induction s as [|c s IH]; intros n Hn; simpl; [lia|].
  destruct (digit_val c) as [d|] eqn:Hc; simpl.
  - apply digit_val_range in Hc. etrans; [|apply IH]; lia.
  - etrans; [|apply IH]; lia.
Qed.

Lemma maxUint64_val : maxUint64 = 18446744073709551615.
Proof. reflexivity. Qed.

Lemma cutoff10_val : cutoff10 = 1844674407370955162.
Proof. reflexivity. Qed.

Lemma pow63_val : 2 ^ 63 = 9223372036854775808.
Proof. reflexivity. Qed.

(** On a run of digits the loop of [ParseUint] computes the positional
    value, and reports a range error exactly when that value does not
    fit 64 bits. *)
Lemma parse_digits_value s : forall n,
  0 <= n <= maxUint64 -> all_digits s = true ->
  parse_digits s n =
    if digits_value s n <=? maxUint64 then Ok (digits_value s n)
    else Fail strconv_ErrRange.
Proof.
  induction s as [|c s IH]; intros n Hn Hs;
    cbn [parse_digits digits_value all_digits] in *.
  - destruct (Z.leb_spec n maxUint64); [reflexivity | lia].
  - apply andb_true_iff in Hs as [Hc Hs].
    apply bool_decide_eq_true in Hc as [d Hc]. rewrite Hc.
    cbn [default from_option id].
    pose proof (digit_val_range _ Hc) as Hd.
    pose proof (digits_value_ge s (n := n * 10 + d)) as Hge.
    rewrite maxUint64_val, cutoff10_val in *.
    destruct (Z.leb_spec 1844674407370955162 n) as [Hcut|Hcut].
    { destruct (Z.leb_spec (digits_value s (n * 10 + d)) 18446744073709551615);
        [lia | reflexivity]. }
    destruct (Z.ltb_spec 18446744073709551615 (n * 10 + d)) as [Hov|Hov].
    { destruct (Z.leb_spec (digits_value s (n * 10 + d)) 18446744073709551615);
        [lia | reflexivity]. }
    apply IH; [lia | exact Hs].
Qed.

Lemma parse_digits_not_digits s : forall n,
  all_digits s = false -> exists e, parse_digits s n = Fail e.
Proof.
  induction s as [|c s IH]; intros n Hs; simpl in *; [discriminate|].
  destruct (digit_val c) as [d|] eqn:Hc; [|eauto].
  destruct (cutoff10 <=? n); [eauto|].
  destruct (maxUint64 <? n * 10 + d); [eauto|].
  apply IH. rewrite bool_decide_eq_true_2 in Hs by eauto. exact Hs.
Qed.

Lemma ParseUint_digits body :
  body <> "" -> all_digits body = true ->
  ParseUint body =
    if digits_value body 0 <=? maxUint64 then Ok (digits_value body 0)
    else Fail strconv_ErrRange.
Proof.
  intros Hne Hd. destruct body as [|c s]; [done|].
  unfold ParseUint. apply parse_digits_value; [rewrite maxUint64_val; lia | exact Hd].
Qed.

Lemma ParseUint_reject body :
  body = "" \/ all_digits body = false -> exists e, ParseUint body = Fail e.
Proof.
  intros [-> | Hd]; [simpl; eauto|].
  destruct body as [|c s]; [discriminate|].
  unfold ParseUint. by apply parse_digits_not_digits.
Qed.

(** The sign, the digits and the range check of [ParseInt], once the
    sign has been taken off. *)
Lemma ParseInt_body (neg : bool) body z :
  match ParseUint body with
  | Fail e => Fail e
  | Ok un =>
      if negb neg && (2 ^ 63 <=? un) then Fail strconv_ErrRange
      else if neg && (2 ^ 63 <? un) then Fail strconv_ErrRange
      else Ok (if neg then - un else un)
  end = Ok z
  <->
  (if bool_decide (body = "") || negb (all_digits body) then None
   else
     let v := if neg then - digits_value body 0 else digits_value body 0 in
     if (minInt64 <=? v) && (v <=? maxInt64) then Some v else None) = Some z.
Proof.
  destruct (decide (body = "")) as [->|Hne].
  { simpl. split; discriminate. }
  rewrite bool_decide_eq_false_2 by done. simpl.
  destruct (all_digits body) eqn:Hd; simpl.
  2:{ destruct (ParseUint_reject (body := body)) as [e ->]; [by right|].
      split; discriminate. }
  rewrite ParseUint_digits by done.
  pose proof (digits_value_ge body (n := 0)) as Hge.
  unfold minInt64, maxInt64. rewrite maxUint64_val, pow63_val.
  set (v := digits_value body 0) in *.
  destruct neg; simpl;
    repeat (match goal with
            | |- context [Z.leb ?a ?b] => destruct (Z.leb_spec a b)
            | |- context [Z.ltb ?a ?b] => destruct (Z.ltb_spec a b)
            end; simpl);
    split; intros Heq; try discriminate; try (injection Heq as <-; done); try lia.
Qed.

(** The parser accepts exactly the names of the convention: an
    optional sign, digits, a value that fits 64 bits. *)
Lemma ParseInt_decimal s z : ParseInt s = Ok z <-> decimal_int64 s = Some z.
Proof.
  destruct s as [|c s]; [simpl; split; discriminate|].
  unfold ParseInt, decimal_int64.
  destruct (Ascii.eqb c "+"); [apply ParseInt_body|].
  destruct (Ascii.eqb c "-"); apply ParseInt_body.
Qed.

Lemma ParseInt_fail_iff s : is_ok (ParseInt s) = false <-> decimal_int64 s = None.
Proof.
  split; intros H.
  - destruct (decimal_int64 s) as [z|] eqn:Hz; [|done].
    apply ParseInt_decimal in Hz. by rewrite Hz in H.
  - destruct (ParseInt s) as [z|e] eqn:Hz; [|done].
    apply ParseInt_decimal in Hz. congruence.
Qed.

Lemma format_digits_app fuel : forall u acc,
  format_digits fuel u acc = format_digits fuel u "" +:+ acc.
Proof.
  induction fuel as [|f IH]; intros u acc; simpl; [done|].
  destruct (u <? 10); [done|].
  rewrite IH. rewrite (IH _ (String _ "")).
  by rewrite append_assoc.
Qed.

Lemma format_digits_nonempty fuel u acc : format_digits (S fuel) u acc <> "".
Proof.
  simpl. destruct (u <? 10); [done|].
  rewrite format_digits_app. destruct (format_digits fuel (u / 10) ""); done.
Qed.

Lemma format_digits_all_digits fuel : forall u acc,
  0 <= u -> all_digits (format_digits fuel u acc) = all_digits acc.
Proof.
  induction fuel as [|f IH]; intros u acc Hu; simpl; [done|].
  assert (all_digits (String (digit_char (u mod 10)) acc) = all_digits acc) as Hd.
  { simpl. rewrite digit_val_char by (apply Z.mod_pos_bound; lia).
    by rewrite bool_decide_eq_true_2 by eauto. }
  destruct (u <? 10); [done|].
  rewrite IH by (apply Z.div_pos; lia). done.
Qed.

Lemma format_digits_value fuel : forall u acc,
  0 <= u < 10 ^ Z.of_nat (S fuel) ->
  digits_value (format_digits (S fuel) u acc) 0 = digits_value acc u.
Proof.
  induction fuel as [|f IH]; intros u acc Hu.
  - change (10 ^ Z.of_nat 1) with 10 in Hu.
    cbn [format_digits]. destruct (Z.ltb_spec u 10); [|lia].
    cbn [digits_value]. rewrite digit_val_char by (apply Z.mod_pos_bound; lia).
    cbn [default from_option id]. rewrite Z.mod_small by lia. done.
  - change (format_digits (S (S f)) u acc) with
      (let acc' := String (digit_char (u mod 10)) acc in
       if u <? 10 then acc' else format_digits (S f) (u / 10) acc').
    cbv zeta.
    destruct (Z.ltb_spec u 10) as [Hlt|Hge].
    + cbn [digits_value]. rewrite digit_val_char by (apply Z.mod_pos_bound; lia).
      cbn [default from_option id]. rewrite Z.mod_small by lia. done.
    + rewrite IH.
      * cbn [digits_value]. rewrite digit_val_char by (apply Z.mod_pos_bound; lia).
        cbn [default from_option id]. f_equal. pose proof (Z.div_mod u 10). lia.
      * split; [apply Z.div_pos; lia|].
        apply Z.div_lt_upper_bound; [lia|].
        rewrite (Nat2Z.inj_succ (S f)), Z.pow_succ_r in Hu by lia. lia.
Qed.

Lemma FormatUint_fuel u : 0 <= u -> u < 10 ^ Z.of_nat (S (Z.to_nat (Z.log2 u))).
Proof.
  intros Hu.
  pose proof (Z.log2_nonneg u) as Hl.
  rewrite Nat2Z.inj_succ, Z2Nat.id by done.
  destruct (decide (u = 0)) as [->|Hne]; [reflexivity|].
  destruct (Z.log2_spec u) as [_ Hup]; [lia|].
  assert (2 ^ Z.succ (Z.log2 u) <= 10 ^ Z.succ (Z.log2 u))
    by (apply Z.pow_le_mono_l; lia).
  lia.
Qed.

Lemma FormatUint_value u : 0 <= u -> digits_value (FormatUint u) 0 = u.
Proof.
  intros Hu. unfold FormatUint.
  rewrite format_digits_value; [reflexivity|].
  split; [done | by apply FormatUint_fuel].
Qed.

Lemma FormatUint_all_digits u : 0 <= u -> all_digits (FormatUint u) = true.
Proof. intros Hu. unfold FormatUint. by rewrite format_digits_all_digits. Qed.

Lemma FormatUint_nonempty u : FormatUint u <> "".
Proof. apply format_digits_nonempty. Qed.

Lemma all_digits_no_slash s : all_digits s = true -> Str.has_slash s = false.
Proof.
  induction s as [|c s IH]; [done|].
  cbn [all_digits Str.has_slash]. intros [Hc Hs]%andb_true_iff.
  rewrite IH by done. rewrite orb_false_r.
  destruct (Ascii.eqb_spec c Str.slash) as [->|]; [|done].
  apply bool_decide_eq_true in Hc as [d Hd]. discriminate.
Qed.

Lemma digit_not_sign c s :
  all_digits (String c s) = true -> Ascii.eqb c "+" = false /\ Ascii.eqb c "-" = false.
Proof.
  cbn [all_digits]. intros [Hc _]%andb_true_iff.
  apply bool_decide_eq_true in Hc as [d Hd].
  split; apply Ascii.eqb_neq; intros ->; discriminate.
Qed.

(** Formatting a signed 64-bit number and parsing it again gives the
    number back. *)
Lemma decimal_int64_FormatInt i : int64 i -> decimal_int64 (FormatInt i) = Some i.
Proof.
  intros [Hlo Hhi]. unfold FormatInt.
  destruct (Z.ltb_spec i 0) as [Hneg|Hpos].
  - unfold decimal_int64. change (Ascii.eqb "-" "+") with false.
    change (Ascii.eqb "-" "-") with true. cbv iota beta.
    rewrite bool_decide_eq_false_2 by apply FormatUint_nonempty.
    rewrite FormatUint_all_digits, FormatUint_value by lia.
    cbn [negb orb]. cbv zeta. rewrite Z.opp_involutive.
    destruct (Z.leb_spec minInt64 i); [|lia].
    destruct (Z.leb_spec i maxInt64); [|lia]. done.
  - pose proof (FormatUint_all_digits Hpos) as Hd.
    pose proof (@FormatUint_nonempty i) as Hne.
    pose proof (FormatUint_value Hpos) as Hv.
    unfold decimal_int64.
    destruct (FormatUint i) as [|c s] eqn:Hf; [done|].
    destruct (digit_not_sign _ _ Hd) as [-> ->].
    rewrite bool_decide_eq_false_2 by done. rewrite Hd, Hv.
    cbn [negb orb]. cbv zeta.
    destruct (Z.leb_spec minInt64 i); [|lia].
    destruct (Z.leb_spec i maxInt64); [|lia]. done.
Qed.

Lemma ParseInt_FormatInt i : int64 i -> ParseInt (FormatInt i) = Ok i.
Proof. intros Hi. apply ParseInt_decimal. by apply decimal_int64_FormatInt. Qed.

Lemma FormatInt_no_slash i : Str.has_slash (FormatInt i) = false.
Proof.
  unfold FormatInt. destruct (Z.ltb_spec i 0).
  - cbn [Str.has_slash]. change (Ascii.eqb "-" Str.slash) with false.
    apply all_digits_no_slash, FormatUint_all_digits. lia.
  - by apply all_digits_no_slash, FormatUint_all_digits.
Qed.

End StrconvFacts.

(** ** Paths: [path.Base], [path.Clean] and [path.Join] *)

Section PathFacts.
Import Str Path.

Lemma split_nonempty sep s : split sep s <> [].
Proof.
  destruct s as [|c s]; simpl; [done|].
  destruct (Ascii.eqb c sep); [done|]. by destruct (split sep s).
Qed.

Lemma elements_no_slash s : has_slash s = false -> elements s = [s].
Proof.
  unfold elements. induction s as [|c s IH]; [done|].
  simpl. intros [Hc Hs]%orb_false_iff. rewrite Hc, IH by done. done.
Qed.

(** The elements of a path are those before its last slash and one
    last element, and appending bytes other than slashes extends the
    last element. *)
Lemma elements_last a :
  exists init l, elements a = init ++ [l] /\
    forall s, has_slash s = false -> elements (a +:+ s) = init ++ [l +:+ s].
Proof.
  unfold elements. induction a as [|c a (init & l & Ha & Hs)].
  - exists [], "". split; [done|]. intros s Hn. by apply elements_no_slash.
  - simpl. destruct (Ascii.eqb c slash).
    + exists ("" :: init), l. rewrite Ha. split; [done|].
      intros s Hn. by rewrite Hs.
    + destruct init as [|h t].
      * exists [], (String c l). rewrite Ha. split; [done|].
        intros s Hn. by rewrite Hs.
      * exists (String c h :: t), l. rewrite Ha. split; [done|].
        intros s Hn. by rewrite Hs.
Qed.

Lemma elements_snoc a n :
  has_slash n = false -> elements (a +:+ String slash n) = elements a ++ [n].
Proof.
  intros Hn. unfold elements. induction a as [|c a IH]; simpl.
  - fold (elements n). by rewrite elements_no_slash.
  - destruct (Ascii.eqb c slash); [by rewrite IH|].
    rewrite IH. pose proof (@split_nonempty slash a).
    by destruct (split slash a).
Qed.

Lemma strip_slashes_append a n :
  has_slash n = false -> n <> "" -> strip_slashes (a +:+ n) = a +:+ n.
Proof.
  intros Hn Hne. induction a as [|c a IH].
  - simpl. clear Hne. induction n as [|c n IH]; [done|].
    simpl in *. apply orb_false_iff in Hn as [Hc Hn]. rewrite IH by done.
    rewrite Hc. by destruct n.
  - simpl. rewrite IH. destruct (a +:+ n) eqn:E; [|done].
    destruct a; [simpl in E; done | discriminate].
Qed.

Lemma Base_name n : has_slash n = false -> n <> "" -> Base n = n.
Proof.
  intros Hn Hne. unfold Base.
  rewrite (proj2 (String.eqb_neq _ _)) by done.
  pose proof (strip_slashes_append "" Hn Hne) as Hs. simpl in Hs. rewrite Hs.
  rewrite elements_no_slash by done. simpl. by destruct n.
Qed.

Lemma Base_snoc a n :
  has_slash n = false -> n <> "" -> Base (a +:+ String slash n) = n.
Proof.
  intros Hn Hne. unfold Base.
  assert (a +:+ String slash n <> "") as Hne' by (by destruct a).
  rewrite (proj2 (String.eqb_neq _ _)) by done.
  replace (a +:+ String slash n) with ((a +:+ "/") +:+ n)
    by (by rewrite append_assoc).
  rewrite strip_slashes_append by done.
  rewrite append_assoc. change ("/" +:+ n) with (String slash n).
  rewrite elements_snoc by done.
  rewrite last_last. by destruct n.
Qed.

Lemma clean_elem_plain rooted out dd e :
  plain e -> clean_elem rooted (out, dd) e = (with_slash rooted out +:+ e, dd).
Proof.
  intros (H1 & H2 & H3). unfold clean_elem, with_slash.
  by rewrite !(proj2 (String.eqb_neq _ _)) by done.
Qed.

Lemma entry_name_plain n :
  entry_name n = true -> has_slash n = false /\ n <> "" /\ plain n.
Proof.
  unfold entry_name, plain. rewrite !andb_true_iff, !negb_true_iff.
  intros [[[H1 H2] H3] H4]. apply String.eqb_neq in H2, H3, H4. done.
Qed.

Lemma back_to_ge out dd w : (dd <= w)%nat -> (dd <= back_to out dd w)%nat.
Proof.
  induction w as [|w IH]; intros Hw; simpl; [lia|].
  destruct (Nat.ltb_spec dd (S w)); simpl; [|lia].
  destruct (negb _); [apply IH|]; lia.
Qed.

Lemma length_substring_le k s : (String.length (substring 0 k s) <= String.length s)%nat.
Proof.
  revert k. induction s as [|c s IH]; intros [|k]; simpl; try lia.
  specialize (IH k). lia.
Qed.

Lemma length_backtrack out dd :
  (String.length (backtrack out dd) <= String.length out)%nat.
Proof. apply length_substring_le. Qed.

Lemma clean_elem_rooted_ok rooted st e :
  rooted_ok rooted st -> rooted_ok rooted (clean_elem rooted st e).
Proof.
  intros Hok Hr. destruct (Hok Hr) as [Hdd [r Hout]].
  destruct st as [out dd]. simpl in Hdd, Hout. subst.
  unfold clean_elem.
  destruct (String.eqb e ""); [by eauto|].
  destruct (String.eqb e "."); [by eauto|].
  destruct (String.eqb e "..").
  - destruct (Nat.ltb_spec 1 (String.length (String slash r))) as [Hlt|Hge];
      simpl; [|by eauto].
    split; [done|]. unfold backtrack.
    pose proof (@back_to_ge (String slash r) 1
                  (String.length (String slash r) - 1)) as Hb.
    destruct (back_to _ _ _) as [|k]; [simpl in *; lia|].
    simpl. eauto.
  - simpl. split; [done|].
    destruct (negb _); simpl; eauto.
Qed.

Lemma fold_clean_rooted_ok rooted es : forall st,
  rooted_ok rooted st -> rooted_ok rooted (fold_left (clean_elem rooted) es st).
Proof.
  induction es as [|e es IH]; intros st Hst; simpl; [done|].
  by apply IH, clean_elem_rooted_ok.
Qed.

Lemma start_rooted_ok rooted :
  rooted_ok rooted (if rooted then ("/", 1%nat) else ("", 0%nat)).
Proof. intros ->. simpl. eauto. Qed.

Lemma Clean_name n : entry_name n = true -> Clean n = n.
Proof.
  intros (Hs & Hne & Hp)%entry_name_plain. unfold Clean.
  rewrite (proj2 (String.eqb_neq _ _)) by done.
  rewrite elements_no_slash by done.
  assert (is_rooted n = false) as ->.
  { destruct n as [|c n]; [done|]. simpl in *. by apply orb_false_iff in Hs as [-> _]. }
  cbn [fold_left]. rewrite clean_elem_plain by done. simpl.
  by rewrite (proj2 (String.eqb_neq _ _)) by done.
Qed.

(** Cleaning keeps a last element that is a file name. *)
Lemma Base_Clean_snoc a n :
  entry_name n = true -> Base (Clean (a +:+ String slash n)) = n.
Proof.
  intros (Hs & Hne & Hp)%entry_name_plain. unfold Clean.
  assert (a +:+ String slash n <> "") as Hp' by (by destruct a).
  rewrite (proj2 (String.eqb_neq _ _)) by done.
  rewrite elements_snoc, fold_left_app by done.
  set (rooted := is_rooted _).
  pose proof (@fold_clean_rooted_ok rooted (elements a) _
                (@start_rooted_ok rooted)) as Hok.
  destruct (fold_left _ (elements a) _) as [out dd]. cbn [fold_left].
  rewrite clean_elem_plain by done. simpl fst.
  assert (with_slash rooted out +:+ n <> "") as Hne'.
  { destruct (with_slash rooted out); [done | discriminate]. }
  rewrite (proj2 (String.eqb_neq _ _)) by done.
  unfold with_slash.
  destruct rooted eqn:Hr; simpl.
  - destruct (Hok eq_refl) as [_ [r Hout]]. simpl in Hout. subst out.
    destruct r as [|c r]; simpl.
    + by apply (Base_snoc "").
    + rewrite append_assoc. by apply (Base_snoc (String slash (String c r))).
  - destruct out as [|c r]; simpl.
    + by apply Base_name.
    + rewrite append_assoc. by apply (Base_snoc (String c r)).
Qed.

Lemma Base_Join dir n : entry_name n = true -> Base (Join dir n) = n.
Proof.
  intros Hn. pose proof (entry_name_plain _ Hn) as (Hs & Hne & Hp).
  unfold Join. destruct (String.eqb_spec dir "") as [->|Hd].
  - rewrite (proj2 (String.eqb_neq _ _)) by done.
    rewrite Clean_name by done. by apply Base_name.
  - by apply Base_Clean_snoc.
Qed.

Lemma length_finish out :
  (String.length (finish out) <= Nat.max 1 (String.length out))%nat.
Proof. unfold finish. destruct out; simpl; lia. Qed.

Lemma length_finish_nonempty out :
  out <> "" -> String.length (finish out) = String.length out.
Proof. unfold finish. intros H. by rewrite (proj2 (String.eqb_neq _ _)). Qed.

Lemma length_with_slash rooted out :
  (String.length out <= String.length (with_slash rooted out))%nat.
Proof. unfold with_slash. destruct (_ || _); rewrite ?length_append; lia. Qed.

Lemma length_nonempty (s : string) : s <> "" -> (0 < String.length s)%nat.
Proof. destruct s; [done|simpl; lia]. Qed.

(** Extending the last element of a path by a suffix [".d..."] makes
    the cleaned path longer: the extended element is always kept. *)
Lemma clean_elem_suffix rooted out dd l s d rest :
  s = String "." (String d rest) -> d <> "."%char ->
  (String.length (finish (clean_elem rooted (out, dd) l).1)
   < String.length (finish (clean_elem rooted (out, dd) (l +:+ s)).1))%nat.
Proof.
  intros -> Hd.
  set (s := String "." (String d rest)).
  assert (plain (l +:+ s)) as Hp.
  { unfold plain, s. destruct l as [|a [|b [|c l]]]; simpl; repeat split; congruence. }
  rewrite (clean_elem_plain rooted out dd Hp). cbn [fst].
  assert (with_slash rooted out +:+ l +:+ s <> "") as Hne.
  { unfold s. destruct (with_slash rooted out); [destruct l|]; discriminate. }
  rewrite (length_finish_nonempty Hne), !length_append.
  assert (2 <= String.length s)%nat as Hs by (unfold s; simpl; lia).
  pose proof (length_with_slash rooted out) as Hw.
  pose proof (length_finish out) as Hf.
  unfold clean_elem.
  destruct (String.eqb_spec l "") as [->|H1]; [simpl in *; lia|].
  destruct (String.eqb_spec l ".") as [->|H2]; [simpl in *; lia|].
  destruct (String.eqb_spec l "..") as [->|H3].
  - destruct (Nat.ltb_spec dd (String.length out)) as [Hlt|Hge]; cbn [fst].
    + pose proof (length_finish (backtrack out dd)).
      pose proof (length_backtrack out dd). simpl in *. lia.
    + destruct rooted; cbn [negb fst]; [simpl in *; lia|].
      rewrite length_finish_nonempty.
      2:{ destruct (0 <? String.length out)%nat; destruct out; discriminate. }
      rewrite length_append. unfold with_slash in *. simpl in *.
      destruct out; simpl in *; rewrite ?length_append; simpl; lia.
  - cbn [fst]. fold (with_slash rooted out).
    rewrite length_finish_nonempty.
    2:{ destruct (with_slash rooted out); [done | discriminate]. }
    rewrite length_append. lia.
Qed.

Lemma is_rooted_append a s : a <> "" -> is_rooted (a +:+ s) = is_rooted a.
Proof. by destruct a. Qed.

Lemma Clean_suffix_longer a s d rest :
  a <> "" -> s = String "." (String d rest) -> d <> "."%char ->
  has_slash s = false ->
  (String.length (Clean a) < String.length (Clean (a +:+ s)))%nat.
Proof.
  intros Ha Hs Hd Hns. unfold Clean.
  assert (a +:+ s <> "") as Ha' by (by destruct a).
  rewrite (proj2 (String.eqb_neq a _)), (proj2 (String.eqb_neq (a +:+ s) _)) by done.
  rewrite is_rooted_append by done.
  destruct (elements_last a) as (init & l & -> & Hel).
  rewrite Hel by done. rewrite !fold_left_app.
  destruct (fold_left _ init _) as [out dd]. cbn [fold_left].
  by apply (clean_elem_suffix _ _ _ _ Hs).
Qed.

Lemma Clean_nonempty p : Clean p <> "".
Proof.
  unfold Clean. destruct (String.eqb p ""); [done|].
  destruct (String.eqb_spec (fold_left (clean_elem (is_rooted p)) (elements p)
              (if is_rooted p then ("/", 1%nat) else ("", 0%nat))).1 ""); done.
Qed.

(** A backup path never coincides with the path it is a backup of. *)
Lemma Join_suffix_ne dir file s d rest :
  s = String "." (String d rest) -> d <> "."%char -> has_slash s = false ->
  Join dir (file +:+ s) <> Join dir file.
Proof.
  intros Hs Hd Hns Heq.
  assert (forall a, a <> "" -> Clean (a +:+ s) <> Clean a) as Hc.
  { intros a Ha E. pose proof (Clean_suffix_longer Ha Hs Hd Hns) as Hl.
    rewrite E in Hl. lia. }
  unfold Join in Heq. destruct (String.eqb_spec dir "") as [->|Hdir].
  - assert (file +:+ s <> "") as Hne by (subst s; destruct file; discriminate).
    rewrite (proj2 (String.eqb_neq _ _)) in Heq by done.
    destruct (String.eqb_spec file "") as [->|Hf].
    + by apply Clean_nonempty in Heq.
    + by apply (Hc file).
  - apply (Hc (dir +:+ "/" +:+ file)); [by destruct dir|].
    by rewrite !append_assoc.
Qed.

Lemma elements_have_no_slash s : Forall (fun e => has_slash e = false) (elements s).
Proof.
  unfold elements. induction s as [|c s IH]; simpl; [by repeat constructor|].
  destruct (Ascii.eqb c slash) eqn:Hc; [by constructor|].
  destruct (split slash s) as [|h t]; [by repeat constructor; simpl; rewrite Hc|].
  inversion IH; subst. constructor; [simpl; by rewrite Hc | done].
Qed.

(** The base of a path holds no slash, unless the path is made of
    slashes only. *)
Lemma Base_no_slash p : Base p = "/" \/ has_slash (Base p) = false.
Proof.
  unfold Base. destruct (String.eqb p ""); [by right|].
  pose proof (elements_have_no_slash (strip_slashes p)) as Hall.
  assert (has_slash (List.last (elements (strip_slashes p)) "") = false) as Hl.
  { induction Hall as [|e [|e' es] He Hes IH]; simpl in *; auto. }
  destruct (List.last _ _); [by left | by right].
Qed.

End PathFacts.

(** ** Backup file names *)

Section Naming.
Import Str Path Strconv.
Context {U : Type}.
Implicit Types p : LogProcessor U.

Lemma HasPrefix_append pre x : HasPrefix (pre +:+ x) pre = true.
Proof.
  unfold HasPrefix. induction pre as [|c pre IH]; simpl; [by destruct x|].
  destruct (ascii_dec c c); [exact IH | done].
Qed.

Lemma drop_append pre x : drop (String.length pre) (pre +:+ x) = x.
Proof. induction pre as [|c pre IH]; simpl; [done | exact IH]. Qed.

Lemma TrimPrefix_append pre x : TrimPrefix (pre +:+ x) pre = x.
Proof. unfold TrimPrefix. by rewrite HasPrefix_append, drop_append. Qed.

Lemma has_slash_append a b : has_slash (a +:+ b) = has_slash a || has_slash b.
Proof. induction a as [|c a IH]; simpl; [done|]. by rewrite IH, orb_assoc. Qed.

Lemma FormatInt_head i :
  exists d rest, FormatInt i = String d rest /\ d <> "."%char.
Proof.
  unfold FormatInt. destruct (Z.ltb_spec i 0) as [Hn|Hp].
  - eexists _, _. split; [reflexivity | discriminate].
  - pose proof (FormatUint_all_digits Hp) as Hd.
    pose proof (@FormatUint_nonempty i) as Hne.
    destruct (FormatUint i) as [|d rest]; [done|].
    exists d, rest. split; [done|]. intros ->. discriminate.
Qed.

(** The last element of a generated backup path is a file name. *)
Lemma backup_entry_name file i :
  has_slash file = false -> entry_name (file +:+ "." +:+ FormatInt i) = true.
Proof.
  intros Hf. destruct (FormatInt_head i) as (d & rest & Hi & Hd).
  pose proof (FormatInt_no_slash i) as Hs. rewrite Hi in *.
  unfold entry_name. rewrite has_slash_append, Hf. simpl in *. rewrite Hs.
  rewrite !andb_true_iff, !negb_true_iff, !String.eqb_neq.
  destruct file as [|a [|b [|c file]]]; simpl; repeat split; congruence.
Qed.

Lemma Base_generateNewBackupFilename p t :
  has_slash (auditLogFile p) = false ->
  Base (generateNewBackupFilename p t)
  = auditLogFile p +:+ "." +:+ FormatInt (GoTime.Unix_of t).
Proof. intros Hf. unfold generateNewBackupFilename. by apply Base_Join, backup_entry_name. Qed.

Lemma generateNewBackupFilename_ne p t :
  generateNewBackupFilename p t <> Join (auditLogDir p) (auditLogFile p).
Proof.
  unfold generateNewBackupFilename.
  destruct (FormatInt_head (GoTime.Unix_of t)) as (d & rest & Hi & Hd).
  eapply Join_suffix_ne; [by rewrite Hi | done |].
  simpl. apply FormatInt_no_slash.
Qed.

(** What the two recognisers compute on a name with the prefix
    ["<base>."]: the verdict of [strconv.ParseInt] on the rest. *)
Lemma parseTimestamp_prefixed p filename suffix :
  Base filename = auditLogFile p +:+ "." +:+ suffix ->
  parseTimestampFromBackupFilename p filename =
    match ParseInt suffix with
    | Ok i => Ok (GoTime.mkTime i 0)
    | Fail e => Fail (fmt_Errorf "invalid timestamp in filename" e)
    end
  /\ isBackupFile p filename = is_ok (ParseInt suffix).
Proof.
  intros Hb. unfold isBackupFile, parseTimestampFromBackupFilename.
  rewrite Hb. rewrite <- append_assoc.
  rewrite HasPrefix_append, TrimPrefix_append. simpl.
  by destruct (ParseInt suffix).
Qed.

(** Every processor built from a log path that is not the root
    directory has a base file name without a slash. *)
Lemma NewLogProcessor_base_name url_Parse options :
  Base (opt_AuditLogPath options) <> "/" ->
  has_slash (auditLogFile (NewLogProcessor U url_Parse options)) = false.
Proof. intros Hr. simpl. by destruct (Base_no_slash (opt_AuditLogPath options)). Qed.

End Naming.

(** C7: backup file names round-trip.  For a processor whose base
    file name is a file name (it holds no slash), the name generated
    for any time [t] is recognised by [isBackupFile], and the time
    parsed back out of it is [t] truncated to whole seconds.
    Conversely, on a name ["<base>.<suffix>"] whose suffix is not a
    decimal 64-bit integer the parser fails and the predicate says
    no. *)
Theorem backup_name_roundtrip {U : Type} (p : LogProcessor U) :
  (forall t : GoTime.Time,
     Str.has_slash (auditLogFile p) = false ->
     Strconv.int64 (GoTime.Unix_of t) ->
     isBackupFile p (generateNewBackupFilename p t) = true
     /\ parseTimestampFromBackupFilename p (generateNewBackupFilename p t)
        = Ok (GoTime.whole_seconds t))
  /\ (forall filename suffix : string,
        Path.Base filename = auditLogFile p +:+ "." +:+ suffix ->
        Strconv.decimal_int64 suffix = None ->
        (exists e, parseTimestampFromBackupFilename p filename = Fail e)
        /\ isBackupFile p filename = false).
Proof.
  split.
  - intros t Hf Ht.
    destruct (@parseTimestamp_prefixed U p _ _ (@Base_generateNewBackupFilename U p t Hf))
      as [Hparse Hrec].
    rewrite Hparse, Hrec, ParseInt_FormatInt by done. done.
  - intros filename suffix Hb Hd.
    destruct (@parseTimestamp_prefixed U p _ _ Hb) as [Hparse Hrec].
    apply ParseInt_fail_iff in Hd. rewrite Hparse, Hrec.
    destruct (Strconv.ParseInt suffix); [done | eauto].
Qed.

Lemma backup_name_roundtrip_witness :
  isBackupFile Demo.p (generateNewBackupFilename Demo.p (GoTime.mkTime 1700000000 999)) = true
  /\ parseTimestampFromBackupFilename Demo.p
       (generateNewBackupFilename Demo.p (GoTime.mkTime 1700000000 999))
     = Ok (GoTime.mkTime 1700000000 0).
Proof.
  apply (proj1 (backup_name_roundtrip Demo.p) (GoTime.mkTime 1700000000 999)).
  - reflexivity.
  - unfold Strconv.int64, Strconv.minInt64, Strconv.maxInt64. simpl. lia.
Defined.

(** ** Operating-system calls *)

Section OsFacts.
Context {U : Type}.
Implicit Types w : World U.

Lemma os_Open_ok path fault w h w1 :
  os_Open path fault w = (Ok h, w1) ->
  h = path /\ fault = false /\ is_Some (fs w !! path) /\ w1 = sys (SysOpen path) w.
Proof.
  unfold os_Open. destruct (fs w !! path) as [n|]; [|discriminate].
  destruct fault; simpl; [discriminate|].
  destruct (bool_decide _); [discriminate|]. intros [= <- <-]. eauto.
Qed.

Lemma os_Open_fail path fault w e w1 :
  os_Open path fault w = (Fail e, w1) -> w1 = w.
Proof.
  unfold os_Open. destruct (fs w !! path) as [n|]; [|by intros [= _ <-]].
  destruct (_ || _); [by intros [= _ <-] | discriminate].
Qed.

Lemma os_Open_fault path w : exists e, os_Open path true w = (Fail e, w).
Proof. unfold os_Open. destruct (fs w !! path); simpl; eauto. Qed.

Lemma os_Create_ok path fault w h w1 :
  os_Create path fault w = (Ok h, w1) ->
  h = path /\ fault = false /\
  w1 = sys (SysCreate path) (set_fs (<[path := mkNode Regular ""]> (fs w)) w).
Proof.
  unfold os_Create. destruct fault; [discriminate|].
  destruct (fs w !! path) as [[[] ?]|]; try discriminate; by intros [= <- <-].
Qed.

Lemma os_Create_fail path fault w e w1 :
  os_Create path fault w = (Fail e, w1) -> w1 = w.
Proof.
  unfold os_Create. destruct fault; [by intros [= _ <-]|].
  destruct (fs w !! path) as [[[] ?]|]; try discriminate; by intros [= _ <-].
Qed.

Lemma os_Create_fault path w : exists e, os_Create path true w = (Fail e, w).
Proof. unfold os_Create. eauto. Qed.

Lemma write_other dst data w k : k <> dst -> fs (write dst data w) !! k = fs w !! k.
Proof.
  intros Hk. unfold write. destruct (fs w !! dst); [|done].
  simpl. by rewrite lookup_insert_ne.
Qed.

Lemma write_same dst data w n :
  fs w !! dst = Some n ->
  fs (write dst data w) !! dst = Some (mkNode (kind n) (content n +:+ data)).
Proof. intros Hn. unfold write. rewrite Hn. simpl. by rewrite lookup_insert_eq. Qed.

Lemma syscalls_write dst data w : syscalls (write dst data w) = syscalls w.
Proof. unfold write. by destruct (fs w !! dst). Qed.

Lemma io_Copy_ok dst src fault w n w1 :
  io_Copy dst src fault w = (Ok n, w1) ->
  fault = None /\ exists data,
    fs w !! src = Some (mkNode Regular data)
    /\ w1 = sys (SysCopy dst src data true) (write dst data w).
Proof.
  unfold io_Copy. destruct (fs w !! src) as [[[] data]|]; try discriminate.
  destruct fault; [discriminate|]. intros [= _ <-]. eauto.
Qed.

Lemma io_Copy_fail dst src fault w e w1 :
  io_Copy dst src fault w = (Fail e, w1) ->
  (forall k, k <> dst -> fs w1 !! k = fs w !! k)
  /\ exists evs, syscalls w1 = syscalls w ++ evs
       /\ forall c, c ∈ evs -> exists part, c = SysCopy dst src part false.
Proof.
  unfold io_Copy. destruct (fs w !! src) as [[[] data]|];
    try (intros [= _ <-]; split; [done|]; exists []; rewrite app_nil_r;
         split; [done|]; by intros c ?%elem_of_nil).
  destruct fault; [|discriminate]. intros [= _ <-]. split.
  - intros k Hk. simpl. by apply write_other.
  - eexists [_]. simpl. rewrite syscalls_write. split; [done|].
    intros c ->%list_elem_of_singleton. eauto.
Qed.

Lemma io_Copy_fault dst src n w : exists e w1, io_Copy dst src (Some n) w = (Fail e, w1).
Proof. unfold io_Copy. destruct (fs w !! src) as [[[] data]|]; eauto. Qed.

Lemma os_Truncate0_ok path fault w u w1 :
  os_Truncate0 path fault w = (Ok u, w1) ->
  w1 = sys (SysTruncate path) (set_fs (<[path := mkNode Regular ""]> (fs w)) w).
Proof.
  unfold os_Truncate0. destruct (fs w !! path) as [[[] data]|]; try discriminate.
  destruct fault; [discriminate|]. by intros [= _ <-].
Qed.

Lemma os_Truncate0_fail path fault w e w1 :
  os_Truncate0 path fault w = (Fail e, w1) -> w1 = w.
Proof.
  unfold os_Truncate0. destruct (fs w !! path) as [[[] data]|];
    try (by intros [= _ <-]).
  destruct fault; [by intros [= _ <-] | discriminate].
Qed.

End OsFacts.

(** ** Rotation *)


(** C1: a successful [rotateLogs] returns the path
    [<dir>/<base>.<unix seconds of the rotation>]; that file then holds
    exactly the bytes the live log held, the live log still exists and
    is empty, and no other file has been created, changed or removed. *)
Theorem rotateLogs_creates_backup {U : Type} (p : LogProcessor U)
  (env : RotateEnv) (w w' : World U) (name : string) :
  rotateLogs p env w = (Ok name, w') ->
  let logPath := Path.Join (auditLogDir p) (auditLogFile p) in
  name = Path.Join (auditLogDir p)
           (auditLogFile p +:+ "." +:+ Strconv.FormatInt (GoTime.sec (rot_now env)))
  /\ name <> logPath
  /\ (exists data,
        fs w !! logPath = Some (mkNode Regular data)
        /\ fs w' !! name = Some (mkNode Regular data))
  /\ fs w' !! logPath = Some (mkNode Regular "")
  /\ (forall k, k <> name -> k <> logPath -> fs w' !! k = fs w !! k).
Proof.
  intros Hrot logPath. unfold rotateLogs in Hrot. fold logPath in Hrot.
  pose proof (generateNewBackupFilename_ne p (rot_now env)) as Hne.
  fold logPath in Hne.
  set (copyName := generateNewBackupFilename p (rot_now env)) in *.
  destruct (os_Open logPath _ w) as [[auditLog|e] w1] eqn:Hopen; [|discriminate].
  apply os_Open_ok in Hopen as (-> & _ & _ & ->).
  destruct (os_Create copyName _ _) as [[copyFile|e] w2] eqn:Hcreate; [|discriminate].
  apply os_Create_ok in Hcreate as (-> & _ & ->).
  destruct (io_Copy copyName logPath _ _) as [[n|e] w3] eqn:Hcopy; [|discriminate].
  apply io_Copy_ok in Hcopy as (_ & data & Hlive & ->).
  simpl in Hlive. rewrite lookup_insert_ne in Hlive by done.
  destruct (os_Truncate0 logPath _ _) as [[u|e] w4] eqn:Htrunc; [|discriminate].
  apply os_Truncate0_ok in Htrunc as ->.
  injection Hrot as <- <-.
  split; [reflexivity|]. split; [exact Hne|].
  simpl. unfold write. simpl. rewrite lookup_insert_eq. simpl.
  split; [|split].
  - exists data. split; [exact Hlive|].
    rewrite lookup_insert_ne by done. by rewrite lookup_insert_eq.
  - by rewrite lookup_insert_eq.
  - intros k Hk1 Hk2. by rewrite !lookup_insert_ne by done.
Qed.

Lemma rotateLogs_creates_backup_witness :
  let w' := (rotateLogs Demo.p (Demo.calm 1700000000) Demo.w0).2 in
  fs w' !! "/var/log/audit.log.1700000000"
    = fs Demo.w0 !! "/var/log/audit.log"
  /\ fs w' !! "/var/log/audit.log" = Some (mkNode Regular "").
Proof.
  destruct (rotateLogs_creates_backup Demo.p (Demo.calm 1700000000) Demo.w0
              (w' := (rotateLogs Demo.p (Demo.calm 1700000000) Demo.w0).2)
              (name := "/var/log/audit.log.1700000000"))
    as (_ & _ & (data & H1 & H2) & H3 & _).
  - vm_compute. reflexivity.
  - split; [|exact H3]. rewrite H2. symmetry. exact H1.
Defined.

(** C2: in every run of [rotateLogs], whatever fails, a truncation of
    the live log comes after a complete copy of everything the live log
    held into the backup file (the bytes are in the backup file when
    the copy returns: writes through an [os.File] are not buffered);
    when opening, creating or copying fails the call returns an error;
    whenever the call returns an error the live log is as it was; and
    the live log is never removed. *)
Theorem rotateLogs_truncates_after_copy {U : Type} (p : LogProcessor U)
  (env : RotateEnv) (w : World U) :
  let logPath := Path.Join (auditLogDir p) (auditLogFile p) in
  let copyName := generateNewBackupFilename p (rot_now env) in
  let r := (rotateLogs p env w).1 in
  let w' := (rotateLogs p env w).2 in
  (exists evs,
     syscalls w' = syscalls w ++ evs
     /\ (forall i, evs !! i = Some (SysTruncate logPath) ->
         exists j data, (j < i)%nat
           /\ evs !! j = Some (SysCopy copyName logPath data true)
           /\ fs w !! logPath = Some (mkNode Regular data)
           /\ fs w' !! copyName = Some (mkNode Regular data))
     /\ (forall path, SysRemove path ∉ evs))
  /\ (rot_open_fault env = true \/ rot_create_fault env = true
      \/ is_Some (rot_copy_fault env) -> exists e, r = Fail e)
  /\ (forall e, r = Fail e -> fs w' !! logPath = fs w !! logPath)
  /\ (is_Some (fs w !! logPath) -> is_Some (fs w' !! logPath)).
Proof.
  intros logPath copyName r w'. subst r w'. unfold rotateLogs.
  fold logPath. fold copyName.
  pose proof (generateNewBackupFilename_ne p (rot_now env)) as Hne.
  fold logPath copyName in Hne.
  assert (forall (l : list Syscall) path,
            Forall (fun c => match c with SysRemove _ => False | _ => True end) l ->
            SysRemove path ∉ l) as Hnorm.
  { intros l path Hall Hin. rewrite Forall_forall in Hall. by apply Hall in Hin. }
  destruct (os_Open logPath _ w) as [[auditLog|e] w1] eqn:Hopen.
  2:{ apply os_Open_fail in Hopen as ->. simpl.
      split; [|by eauto].
      exists []. rewrite app_nil_r. split; [done|].
      split; [by intros [|i] | by intros path ?%elem_of_nil]. }
  apply os_Open_ok in Hopen as (-> & Hof & Hsome & ->).
  destruct (os_Create copyName _ _) as [[copyFile|e] w2] eqn:Hcreate.
  2:{ apply os_Create_fail in Hcreate as ->. simpl.
      split; [|by eauto].
      eexists [_; _]. rewrite <- !app_assoc.
      split; [reflexivity|]. split.
      - intros i Hi. by repeat (destruct i as [|i]; simplify_eq/=).
      - intros path. apply Hnorm. by repeat constructor. }
  apply os_Create_ok in Hcreate as (-> & Hcf & ->).
  unfold io_Copy. cbn [fs sys set_fs]. rewrite lookup_insert_ne by done.
  destruct (fs w !! logPath) as [[k data]|] eqn:Hlive; [|by destruct Hsome].
  destruct k.
  2,3: (cbn [fst snd]; simpl; rewrite (lookup_insert_ne _ copyName logPath) by done;
        split; [|by eauto];
        eexists [_; _; _; _]; rewrite <- !app_assoc;
        split; [reflexivity|]; split;
        [ intros i Hi; by repeat (destruct i as [|i]; simplify_eq/=)
        | intros path; apply Hnorm; by repeat constructor ]).
  destruct (rot_copy_fault env) as [n|] eqn:Hcopyf.
  { cbn [fst snd]. unfold write. simpl. rewrite lookup_insert_eq. simpl.
    rewrite !(lookup_insert_ne _ copyName logPath), Hlive by done.
    split; [|by eauto].
    eexists [_; _; _; _; _]. rewrite <- !app_assoc.
    split; [reflexivity|]. split.
    - intros i Hi. by repeat (destruct i as [|i]; simplify_eq/=).
    - intros path. apply Hnorm. by repeat constructor. }
  unfold os_Truncate0, write. simpl. rewrite lookup_insert_eq. simpl.
  rewrite !(lookup_insert_ne _ copyName logPath), Hlive by done.
  destruct (rot_truncate_fault env) eqn:Htf; simpl.
  { rewrite !(lookup_insert_ne _ copyName logPath), Hlive by done.
    split; [|rewrite Hof, Hcf; split; [|by eauto]].
    - eexists [_; _; _; _; _; _]. rewrite <- !app_assoc.
      split; [reflexivity|]. split.
      + intros i Hi. by repeat (destruct i as [|i]; simplify_eq/=).
      + intros path. apply Hnorm. by repeat constructor.
    - eauto. }
  rewrite lookup_insert_eq.
  split; [|rewrite Hof, Hcf; split; [|split; [done | by eauto]]].
  - eexists [_; _; _; _; _; _; _]. rewrite <- !app_assoc.
    split; [reflexivity|]. split.
    + intros i Hi. repeat (destruct i as [|i]; simplify_eq/=).
      exists 2%nat, data. split; [lia|]. split; [done|]. split; [done|].
      rewrite lookup_insert_ne by done. by rewrite lookup_insert_eq.
    + intros path. apply Hnorm. by repeat constructor.
  - intros [?|[?|[? ?]]]; discriminate.
Qed.

Lemma rotateLogs_truncates_after_copy_witness :
  (exists e, (rotateLogs Demo.p (mkRotateEnv (GoTime.mkTime 1700000000 0)
                                   false false (Some 2%nat) false) Demo.w0).1 = Fail e).
Proof.
  apply (rotateLogs_truncates_after_copy Demo.p
           (mkRotateEnv (GoTime.mkTime 1700000000 0) false false (Some 2%nat) false)
           Demo.w0).
  right; right. simpl. eauto.
Defined.

(** ** The retention sweep *)

Section Sweep.
Import Str Path Strconv.
Context {U : Type}.
Implicit Types (p : LogProcessor U) (w : World U).

Lemma expire_entry_fs p env w file :
  fs (expire_entry p env w file) =
    let path := Join (auditLogDir p) (de_Name file) in
    if expired p (exp_now env) file && negb (exp_remove_fault env path)
    then delete path (fs w) else fs w.
Proof.
  unfold expire_entry, expired. destruct file as [name k]. simpl.
  destruct k; simpl; try done.
  destruct (isBackupFile p name); simpl; [|done].
  destruct (parseTimestampFromBackupFilename p name) as [ts|e]; [|done].
  destruct (LogExpiration p <? GoTime.Sub (exp_now env) ts); [|done].
  simpl. unfold os_Remove.
  destruct (fs w !! Join (auditLogDir p) name) eqn:Hk.
  - by destruct (exp_remove_fault env _).
  - simpl. destruct (negb _); [|done]. symmetry. by apply delete_id.
Qed.

Lemma sweep_lookup p env files : forall w k,
  fs (fold_left (expire_entry p env) files w) !! k =
    if existsb (fun file =>
                  expired p (exp_now env) file
                  && negb (exp_remove_fault env (Join (auditLogDir p) (de_Name file)))
                  && String.eqb (Join (auditLogDir p) (de_Name file)) k) files
    then None else fs w !! k.
Proof.
  induction files as [|file files IH]; intros w k; [done|].
  cbn [fold_left existsb]. rewrite IH, expire_entry_fs. cbv zeta.
  destruct (existsb _ files); [by rewrite orb_true_r|]. rewrite orb_false_r.
  destruct (expired p (exp_now env) file && negb _); simpl; [|done].
  destruct (String.eqb_spec (Join (auditLogDir p) (de_Name file)) k) as [->|Hk].
  - by rewrite lookup_delete_eq.
  - by rewrite lookup_delete_ne.
Qed.

Lemma elem_of_ReadDir dir w files file :
  os_ReadDir dir false w = Ok files ->
  file ∈ files <->
  exists k n, fs w !! k = Some n /\ child_of dir k = true
              /\ file = mkDirEntry (Base k) (kind n).
Proof.
  unfold os_ReadDir. intros [= <-].
  rewrite merge_sort_Permutation, list_elem_of_omap. split.
  - intros ([k n] & Hin & Hf). apply elem_of_map_to_list in Hin.
    simpl in Hf. destruct (child_of dir k) eqn:Hc; [|discriminate].
    injection Hf as <-. eauto.
  - intros (k & n & Hk & Hc & ->). exists (k, n).
    split; [by apply elem_of_map_to_list|]. simpl. by rewrite Hc.
Qed.

Lemma HasPrefix_split s pre : HasPrefix s pre = true -> exists x, s = pre +:+ x.
Proof.
  unfold HasPrefix. revert s. induction pre as [|c pre IH]; intros s H.
  - by exists s.
  - destruct s as [|c' s]; simpl in H; [done|].
    destruct (ascii_dec c c') as [->|]; [|done].
    destruct (IH _ H) as [x ->]. by exists x.
Qed.

(** On the name of a directory entry the code's decision and the
    specification's reading of the naming convention agree. *)
Lemma expired_spec p now name k :
  entry_name name = true ->
  expired p now (mkDirEntry name k) = true <->
  k = Regular /\ exists suffix ts,
    name = auditLogFile p +:+ "." +:+ suffix
    /\ decimal_int64 suffix = Some ts
    /\ LogExpiration p < GoTime.Sub now (GoTime.mkTime ts 0).
Proof.
  intros (Hs & Hne & _)%entry_name_plain.
  pose proof (Base_name Hs Hne) as Hb.
  unfold expired. simpl. rewrite !andb_true_iff, bool_decide_eq_true. split.
  - intros [[Hk Hrec] Hage]. split; [done|].
    unfold isBackupFile in Hrec. rewrite Hb in Hrec.
    destruct (HasPrefix name (auditLogFile p +:+ ".")) eqn:Hpre; [|done].
    apply HasPrefix_split in Hpre as [suffix Hname].
    rewrite append_assoc in Hname.
    assert (Base name = auditLogFile p +:+ "." +:+ suffix) as Hb' by congruence.
    destruct (@parseTimestamp_prefixed U p _ _ Hb') as [Hparse _].
    rewrite Hparse in Hage.
    destruct (ParseInt suffix) as [ts|e] eqn:Hts; [|done].
    exists suffix, ts. split; [done|]. split; [by apply ParseInt_decimal | lia].
  - intros [-> (suffix & ts & Hname & Hts & Hage)].
    assert (Base name = auditLogFile p +:+ "." +:+ suffix) as Hb'
      by (rewrite Hb; exact Hname).
    destruct (@parseTimestamp_prefixed U p _ _ Hb') as [Hparse Hrec].
    apply ParseInt_decimal in Hts. rewrite Hparse, Hrec, Hts.
    simpl. split; [done|]. by apply Z.ltb_lt.
Qed.

Lemma decimal_int64_shape suffix ts :
  decimal_int64 suffix = Some ts ->
  has_slash suffix = false
  /\ exists d rest, suffix = String d rest /\ d <> "."%char.
Proof.
  unfold decimal_int64. destruct suffix as [|c s]; [done|].
  destruct (Ascii.eqb_spec c "+") as [->|Hplus];
    [|destruct (Ascii.eqb_spec c "-") as [->|Hminus]].
  - destruct (bool_decide (s = "")); [done|]. simpl.
    destruct (all_digits s) eqn:Hd; [|done]. intros _.
    split; [simpl; by apply all_digits_no_slash | by eexists _, _].
  - destruct (bool_decide (s = "")); [done|]. simpl.
    destruct (all_digits s) eqn:Hd; [|done]. intros _.
    split; [simpl; by apply all_digits_no_slash | by eexists _, _].
  - rewrite bool_decide_eq_false_2 by done. simpl orb.
    change (bool_decide (is_Some (digit_val c)) && all_digits s)
      with (all_digits (String c s)).
    destruct (all_digits (String c s)) eqn:Hd; [|done]. intros _.
    split; [by apply all_digits_no_slash|].
    exists c, s. split; [done|]. intros ->. discriminate.
Qed.

Lemma child_of_spec dir k :
  child_of dir k = true -> entry_name (Base k) = true /\ Join dir (Base k) = k.
Proof.
  unfold child_of. intros [H1 H2]%andb_true_iff. by apply String.eqb_eq in H2.
Qed.

(** The live log is not a backup of itself. *)
Lemma live_log_not_expired p now w :
  ~ expired_backup p now w (Join (auditLogDir p) (auditLogFile p)).
Proof.
  intros (n & suffix & ts & _ & Hc & _ & Hb & Hts & _).
  apply child_of_spec in Hc as [_ Hj]. rewrite Hb in Hj.
  apply decimal_int64_shape in Hts as (Hs & d & rest & -> & Hd).
  by eapply (@Join_suffix_ne (auditLogDir p) (auditLogFile p)
               (String "." (String d rest))) in Hj.
Qed.

Lemma sweep_target p env w files k :
  os_ReadDir (auditLogDir p) false w = Ok files ->
  existsb (fun file =>
             expired p (exp_now env) file
             && negb (exp_remove_fault env (Join (auditLogDir p) (de_Name file)))
             && String.eqb (Join (auditLogDir p) (de_Name file)) k) files = true
  <-> expired_backup p (exp_now env) w k /\ exp_remove_fault env k = false.
Proof.
  intros Hls. rewrite existsb_exists. split.
  - intros (file & Hin & [[Hexp Hflt]%andb_true_iff Heq%String.eqb_eq]%andb_true_iff).
    apply list_elem_of_In, (elem_of_ReadDir _ Hls) in Hin as (k0 & n & Hk0 & Hc & ->).
    pose proof (child_of_spec _ _ Hc) as [Hname Hj]. simpl in *.
    rewrite Hj in *. subst k0.
    apply negb_true_iff in Hflt. split; [|done].
    apply expired_spec in Hexp as [Hk (suffix & ts & Hb & Hts & Hage)]; [|done].
    by exists n, suffix, ts.
  - intros [(n & suffix & ts & Hk & Hc & Hkind & Hb & Hts & Hage) Hflt].
    pose proof (child_of_spec _ _ Hc) as [Hname Hj].
    exists (mkDirEntry (Base k) (kind n)). split.
    + apply list_elem_of_In, (elem_of_ReadDir _ Hls). eauto.
    + simpl. rewrite Hj, Hflt, String.eqb_refl, !andb_true_r.
      apply expired_spec; [done|]. split; [done|]. eauto.
Qed.

End Sweep.

Lemma sweep_removes {U : Type} (p : LogProcessor U) (env : ExpireEnv)
  (w : World U) (k : string) :
  exp_readdir_fault env = false ->
  expired_backup p (exp_now env) w k ->
  exp_remove_fault env k = false ->
  fs (expireBackupLogFiles p env w).2 !! k = None.
Proof.
  intros Hflt Hexp Hok. unfold expireBackupLogFiles. rewrite Hflt.
  set (w0 := emit LevelInfo _ _ w).
  destruct (os_ReadDir (auditLogDir p) false w0) as [files|e] eqn:Hls;
    [|discriminate].
  cbn [snd]. rewrite sweep_lookup.
  by rewrite (proj2 (@sweep_target U p env w0 files k Hls) (conj Hexp Hok)).
Qed.




Example sweep_demo :
  let env := mkExpireEnv (GoTime.mkTime 1000 0) false (fun _ => false) in
  let w := Demo.world [("/var/log/audit.log", mkNode Regular "live");
                       ("/var/log/audit.log.100", mkNode Regular "old");
                       ("/var/log/audit.log.990", mkNode Regular "recent");
                       ("/var/log/audit.log.-5", mkNode Regular "before 1970");
                       ("/var/log/audit.log.12x", mkNode Regular "not a number");
                       ("/var/log/audit.log.200", mkNode Directory "");
                       ("/var/log/sub/audit.log.100", mkNode Regular "elsewhere");
                       ("/var/log/other.txt", mkNode Regular "x")] in
  map fst (map_to_list (fs (expireBackupLogFiles Demo.p env w).2))
  = ["/var/log/other.txt"; "/var/log/sub/audit.log.100"; "/var/log/audit.log.990";
     "/var/log/audit.log.12x"; "/var/log/audit.log.200"; "/var/log/audit.log"].
Proof. vm_compute. reflexivity. Qed.

(** ** Unset expiration settings *)

Lemma Sub_positive t u :
  0 < GoTime.Sub t u
  <-> 0 < (GoTime.sec t - GoTime.sec u) * GoTime.Second + (GoTime.nsec t - GoTime.nsec u).
Proof.
  unfold GoTime.Sub, GoTime.maxDuration, GoTime.minDuration.
  rewrite pow63_val.
  set (d := (GoTime.sec t - GoTime.sec u) * GoTime.Second + (GoTime.nsec t - GoTime.nsec u)).
  clearbody d.
  destruct (Z.ltb_spec (9223372036854775808 - 1) d); [lia|].
  destruct (Z.ltb_spec d (Z.opp 9223372036854775808)); lia.
Qed.

(** C6, as the code has it: nothing disables expiration when the
    two settings are left at zero.  With a zero interval
    [StartExpirationJob] panics in [time.NewTicker] before its first
    sweep, whatever signals arrive, and leaves every file alone; and a
    sweep with a zero retention removes every regular backup file whose
    time lies before the current time. *)
Theorem unset_expiration_is_not_disabled {U : Type} (p : LogProcessor U) :
  ExpirationJobInterval p = 0 ->
  LogExpiration p = 0 ->
  (forall signals (w : World U),
      (StartExpirationJob p signals w).1 = Panicked "non-positive interval for NewTicker"
      /\ fs (StartExpirationJob p signals w).2 = fs w)
  /\ (forall env (w : World U) k n suffix ts,
        exp_readdir_fault env = false ->
        exp_remove_fault env k = false ->
        fs w !! k = Some n ->
        child_of (auditLogDir p) k = true ->
        kind n = Regular ->
        Path.Base k = auditLogFile p +:+ "." +:+ suffix ->
        Strconv.decimal_int64 suffix = Some ts ->
        0 < (GoTime.sec (exp_now env) - ts) * GoTime.Second + GoTime.nsec (exp_now env) ->
        fs (expireBackupLogFiles p env w).2 !! k = None).
Proof.
  intros Hint Hret. split.
  - intros signals w. unfold StartExpirationJob, NewTicker_panics.
    rewrite Hint. done.
  - intros env w k n suffix ts Hrd Hrm Hk Hc Hkind Hb Hts Hage.
    apply sweep_removes; [done| |done].
    exists n, suffix, ts. repeat split; try done.
    rewrite Hret. apply Sub_positive. simpl. lia.
Qed.

Lemma unset_expiration_is_not_disabled_witness :
  let p := NewLogProcessor (list Log) Demo.parse_url (mkOptions "/var/log/audit.log" 0 0 0) in
  (StartExpirationJob p [StopSignal] Demo.w0).1
    = Panicked "non-positive interval for NewTicker".
Proof.
  intros p.
  apply (proj1 (unset_expiration_is_not_disabled p eq_refl eq_refl) [StopSignal] Demo.w0).
Defined.

(** The claim as the specification words it fails: with both settings
    unset the job crashes when it is started, and a sweep deletes. *)
Lemma unset_expiration_counterexample :
  let p := NewLogProcessor (list Log) Demo.parse_url (mkOptions "/var/log/audit.log" 0 0 0) in
  let env := mkExpireEnv (GoTime.mkTime 1000 0) false (fun _ => false) in
  ExpirationJobInterval p = 0 /\ LogExpiration p = 0
  /\ (StartExpirationJob p [Tick env; StopSignal] Demo.w0).1
     = Panicked "non-positive interval for NewTicker"
  /\ fs Demo.w0 !! "/var/log/audit.log.100" = Some (mkNode Regular "old")
  /\ fs (expireBackupLogFiles p env Demo.w0).2 !! "/var/log/audit.log.100" = None.
Proof. vm_compute. repeat split; reflexivity. Qed.

(** ** Parsing a log file *)

Section Parsing.
Context {U : Type} (json_Unmarshal : string -> result Log).
Implicit Types (p : LogProcessor U) (w : World U) (h : Handler U).

(** The loop handles every line, one after the other, whatever happened
    to the lines before it, and raises the flag exactly when a line
    fails. *)
Lemma process_lines_run h lines : forall w err trace,
  exists outs,
    (process_lines json_Unmarshal h lines w err trace).2 = trace ++ outs
    /\ Forall2 (line_outcome json_Unmarshal) lines outs
    /\ (process_lines json_Unmarshal h lines w err trace).1.2
       = err || existsb failed outs.
Proof.
  induction lines as [|line rest IH]; intros w err trace.
  - exists []. simpl. rewrite app_nil_r, orb_false_r. by repeat split.
  - cbn [process_lines]. cbv zeta.
    set (w1 := emit LevelDebug _ _ w).
    destruct (json_Unmarshal line) as [logEntry|e] eqn:Hdec.
    + destruct (h logEntry w1) as [[u|e] w2].
      * destruct (IH w2 err (trace ++ [Dispatched logEntry (Ok u)]))
          as (outs & Htr & Hall & Hflag).
        exists (Dispatched logEntry (Ok u) :: outs).
        rewrite Htr, Hflag, <- app_assoc. split; [done|]. split; [|done].
        constructor; [|done]. unfold line_outcome. rewrite Hdec. eauto.
      * match goal with
        | |- context [process_lines _ _ _ ?w3 true ?tr] =>
            destruct (IH w3 true tr) as (outs & Htr & Hall & Hflag)
        end.
        exists (Dispatched logEntry (Fail e) :: outs).
        rewrite Htr, Hflag, <- app_assoc. simpl. rewrite orb_true_r.
        split; [done|]. split; [|done].
        constructor; [|done]. unfold line_outcome. rewrite Hdec. eauto.
    + match goal with
      | |- context [process_lines _ _ _ ?w3 true ?tr] =>
          destruct (IH w3 true tr) as (outs & Htr & Hall & Hflag)
      end.
      exists (Skipped e :: outs).
      rewrite Htr, Hflag, <- app_assoc. simpl. rewrite orb_true_r.
      split; [done|]. split; [|done].
      constructor; [|done]. unfold line_outcome. by rewrite Hdec.
Qed.


(** A call that can open its file: the lines the scanner returns are
    all handled, and the result is decided first by the flag and then
    by the scanner's error. *)
Lemma ProcessLogFile_run p env filename w n lines scanner_Err :
  rd_open_fault env = false ->
  fs w !! filename = Some n -> kind n <> Irregular ->
  scanned filename env w = (lines, scanner_Err) ->
  let run := ProcessLogFile json_Unmarshal p env filename w in
  Forall2 (line_outcome json_Unmarshal) lines run.2
  /\ run.1.1 =
       if existsb failed run.2 then Fail aggregate_failure
       else match scanner_Err with
            | Some err => Fail (fmt_Errorf "failed to read log file" err)
            | None => Ok tt
            end.
Proof.
  intros Hof Hn Hk Hscan run. subst run. unfold ProcessLogFile.
  unfold os_Open. cbn [fs emit]. rewrite Hn, Hof.
  rewrite bool_decide_eq_false_2 by done. cbn [orb].
  match goal with
  | |- context [scanned filename env ?w1] =>
      change (scanned filename env w1) with (scanned filename env w);
      rewrite Hscan;
      destruct (process_lines_run (logHandler p) lines w1 false [])
        as (outs & Htr & Hall & Hflag);
      destruct (process_lines json_Unmarshal (logHandler p) lines w1 false [])
        as [[w2 flag] trace]
  end.
  simpl in Htr, Hflag. subst trace flag.
  destruct (existsb failed outs) eqn:Hex; [simpl; by rewrite Hex|].
  destruct scanner_Err; simpl; by rewrite Hex.
Qed.

End Parsing.

Section ParsingClaims.
Context {U : Type} (json_Unmarshal : string -> result Log).
Implicit Types (p : LogProcessor U) (w : World U).


Lemma existsb_failed trace :
  existsb failed trace = true <-> exists o, o ∈ trace /\ failed o = true.
Proof.
  rewrite existsb_exists. split; intros (o & Hin & Hf); exists o;
    (split; [by apply list_elem_of_In | done]).
Qed.

Lemma existsb_failed_false trace :
  existsb failed trace = false <-> forall o, o ∈ trace -> failed o = false.
Proof.
  split.
  - intros Hex o Hin. destruct (failed o) eqn:Hf; [|done].
    assert (existsb failed trace = true) by (apply existsb_failed; eauto).
    congruence.
  - intros Hall. destruct (existsb failed trace) eqn:Hex; [|done].
    apply existsb_failed in Hex as (o & Hin & Hf). rewrite Hall in Hf; done.
Qed.

End ParsingClaims.



Example capture_demo :
  let run := ProcessLogFile Demo.decode (with_handler Demo.capture Demo.p)
               Demo.quiet "/var/log/audit.log.100" Demo.w1 in
  run.1.1 = Fail aggregate_failure
  /\ map (fun l => tx_ID (log_Transaction l)) (user run.1.2) = ["a}"; "b}"].
Proof. vm_compute. split; reflexivity. Qed.



(** C4, as the code has it: when the scanner stops with a read error
    the call always fails, but which error it returns depends on the
    lines scanned before: the read error, wrapped, when none of them
    failed, and the aggregate failure, which is a different error and
    takes the place of the read error, when one of them did. *)
Theorem read_failure_reported_unless_lines_failed {U : Type}
  (json_Unmarshal : string -> result Log) (p : LogProcessor U) (env : ReadEnv)
  (filename : string) (w : World U) (n : Node) (lines : list string) (err : error) :
  rd_open_fault env = false ->
  fs w !! filename = Some n -> kind n <> Irregular ->
  scanned filename env w = (lines, Some err) ->
  let run := ProcessLogFile json_Unmarshal p env filename w in
  let r := run.1.1 in
  let trace := run.2 in
  (exists e, r = Fail e)
  /\ ((forall o, o ∈ trace -> failed o = false) ->
      r = Fail (fmt_Errorf "failed to read log file" err))
  /\ ((exists o, o ∈ trace /\ failed o = true) -> r = Fail aggregate_failure)
  /\ fmt_Errorf "failed to read log file" err <> aggregate_failure
  /\ Forall2 (line_outcome json_Unmarshal) lines trace.
Proof.
  intros Hof Hn Hk Hscan run r trace.
  destruct (ProcessLogFile_run json_Unmarshal p env filename w Hof Hn Hk Hscan)
    as [Hall Hres].
  fold run in Hall, Hres. fold trace in Hall, Hres. fold r in Hres.
  rewrite Hres. split; [destruct (existsb failed trace); eauto|].
  split; [|split; [|split; [discriminate | done]]].
  - intros Hok%existsb_failed_false. by rewrite Hok.
  - intros Hbad%existsb_failed. by rewrite Hbad.
Qed.

Lemma read_failure_reported_unless_lines_failed_witness :
  let env := mkReadEnv false (Some (5%nat, os_Error "read" "/var/log/audit.log.200")) in
  (ProcessLogFile Demo.decode (with_handler Demo.capture Demo.p) env
     "/var/log/audit.log.200" Demo.w1).1.1
  = Fail (fmt_Errorf "failed to read log file" (os_Error "read" "/var/log/audit.log.200")).
Proof.
  intros env.
  destruct (read_failure_reported_unless_lines_failed Demo.decode
              (with_handler Demo.capture Demo.p) env
              "/var/log/audit.log.200" Demo.w1
              (n := mkNode Regular ("{a}" +:+ Demo.nl +:+ "{b}" +:+ Demo.nl))
              (lines := ["{a}"; "{"])
              (err := os_Error "read" "/var/log/audit.log.200"))
    as (_ & Hio & _);
    [reflexivity | reflexivity | discriminate | vm_compute; reflexivity |].
  apply Hio. intros o Hin. vm_compute in Hin.
  apply list_elem_of_In in Hin. destruct Hin as [<-|[<-|[]]]; reflexivity.
Defined.

(** The claim as the specification words it fails: a line that does
    not deserialize before the read error makes the call return the
    aggregate failure, not the read error. *)
Lemma read_failure_masked_counterexample :
  let env := mkReadEnv false (Some (9%nat, os_Error "read" "/var/log/audit.log.100")) in
  let run := ProcessLogFile Demo.decode (with_handler Demo.capture Demo.p) env
               "/var/log/audit.log.100" Demo.w1 in
  scanned "/var/log/audit.log.100" env Demo.w1
    = (["{a}"; "bad"; "{"], Some (os_Error "read" "/var/log/audit.log.100"))
  /\ run.1.1 = Fail (errors_New "errors occurred during log processing")
  /\ run.1.1 <> Fail (fmt_Errorf "failed to read log file"
                        (os_Error "read" "/var/log/audit.log.100")).
Proof. vm_compute. split; [reflexivity|]. split; [reflexivity | discriminate]. Qed.

(** ** The default record handler *)

Section HandlerFacts.
Context {U : Type} (url_Parse : string -> result (string * string)).
Implicit Types (w : World U) (c : gmap (list string) nat).




End HandlerFacts.



(** The hypothesis of [backup_name_roundtrip] on the base file name
    leaves out one configuration only, a log path that is the root
    directory, whose base is ["/"]. *)
Example root_path_edge :
  let p := NewLogProcessor (list Log) Demo.parse_url (mkOptions "/" 0 0 0) in
  auditLogFile p = "/"
  /\ generateNewBackupFilename p (GoTime.mkTime 5 0) = "/.5"
  /\ isBackupFile p (generateNewBackupFilename p (GoTime.mkTime 5 0)) = false.
Proof. vm_compute. repeat split; reflexivity. Qed.

(** ** One tick of the processing job *)

(** A tick that finds the live log missing or empty rotates nothing
    and calls no handler: the world is left as it was. *)
Lemma processing_tick_idle {U : Type} (json_Unmarshal : string -> result Log)
  (p : LogProcessor U) (env : TickEnv) (w : World U) :
  checkIfLogsExist p (tick_stat_fault env) w = Ok false ->
  processing_tick json_Unmarshal p env w = w.
Proof. intros H. unfold processing_tick. by rewrite H. Qed.

(** The scenario of the specification: four well-formed lines, three
    with a rule match.  After one tick and the stop signal the job has
    exited, the handler has been called four times, three warnings have
    been logged and counted, the live log is empty and one backup file
    holds the four lines. *)
Example processing_scenario :
  let run := StartProcessingJob Demo.decode_rules Demo.p
               [Tick (Demo.tick 1700000000); StopSignal] Demo.w2 in
  let w := run.2 in
  run.1 = Exited
  /\ fs w !! "/var/log/audit.log" = Some (mkNode Regular "")
  /\ fs w !! "/var/log/audit.log.1700000000" = Some (mkNode Regular Demo.four_lines)
  /\ length (filter (fun r => lr_Msg r = "Processing log entry") (slog w)) = 4%nat
  /\ length (filter (fun r => lr_Level r = LevelWarn) (slog w)) = 3%nat
  /\ counter (metricAuditLogTransactionsCount w)
       ["unknown"; "unknown"; "unknown"; "unknown"] = 3%nat
  /\ counter (metricAuditLogRuleViolations w)
       ["rules.conf-942100"; "unknown"; "unknown"; "unknown"] = 3%nat.
Proof. vm_compute. repeat split; reflexivity. Qed.

(** ** Rotation, parsing and the sweep together *)

Section Lifecycle.
Import Str Path Strconv.
Context {U : Type}.
Implicit Types (p : LogProcessor U) (w : World U).

(** The world a successful rotation leaves behind. *)
Lemma rotateLogs_ok_world p env w name w' :
  rotateLogs p env w = (Ok name, w') ->
  let logPath := Join (auditLogDir p) (auditLogFile p) in
  let copyName := generateNewBackupFilename p (rot_now env) in
  exists data,
    fs w !! logPath = Some (mkNode Regular data)
    /\ name = copyName
    /\ fs w' = <[logPath := mkNode Regular ""]> (<[copyName := mkNode Regular data]> (fs w))
    /\ syscalls w' = syscalls w ++
         [SysOpen logPath; SysCreate copyName; SysCopy copyName logPath data true;
          SysClose logPath; SysTruncate logPath; SysClose copyName; SysClose logPath]
    /\ slog w' = slog w /\ user w' = user w
    /\ metricAuditLogTransactionsCount w' = metricAuditLogTransactionsCount w
    /\ metricAuditLogRuleViolations w' = metricAuditLogRuleViolations w.
Proof.
  intros Hrot logPath copyName. unfold rotateLogs in Hrot.
  fold logPath copyName in Hrot.
  pose proof (generateNewBackupFilename_ne p (rot_now env)) as Hne.
  fold logPath copyName in Hne.
  destruct (os_Open logPath _ w) as [[auditLog|e] w1] eqn:Hopen; [|discriminate].
  apply os_Open_ok in Hopen as (-> & _ & _ & ->).
  destruct (os_Create copyName _ _) as [[copyFile|e] w2] eqn:Hcreate; [|discriminate].
  apply os_Create_ok in Hcreate as (-> & _ & ->).
  destruct (io_Copy copyName logPath _ _) as [[n|e] w3] eqn:Hcopy; [|discriminate].
  apply io_Copy_ok in Hcopy as (_ & data & Hlive & ->).
  simpl in Hlive. rewrite lookup_insert_ne in Hlive by done.
  destruct (os_Truncate0 logPath _ _) as [[u|e] w4] eqn:Htrunc; [|discriminate].
  apply os_Truncate0_ok in Htrunc as ->.
  injection Hrot as <- <-.
  exists data. split; [done|]. split; [done|].
  simpl. unfold write. simpl. rewrite lookup_insert_eq. simpl.
  rewrite insert_insert_eq, <- !app_assoc. by repeat split.
Qed.

(** What a failed rotation can have done to the files: nothing, or it
    has left a backup file that is empty or holds a part of the live
    log. *)
Lemma rotateLogs_fail_world p env w e w' :
  rotateLogs p env w = (Fail e, w') ->
  fs w' = fs w
  \/ exists part,
       fs w' = <[generateNewBackupFilename p (rot_now env) := mkNode Regular part]> (fs w).
Proof.
  intros Hrot. unfold rotateLogs in Hrot.
  pose proof (generateNewBackupFilename_ne p (rot_now env)) as Hne.
  set (logPath := Join (auditLogDir p) (auditLogFile p)) in *.
  set (copyName := generateNewBackupFilename p (rot_now env)) in *.
  destruct (os_Open logPath _ w) as [[auditLog|e1] w1] eqn:Hopen.
  2:{ apply os_Open_fail in Hopen as ->. injection Hrot as _ <-. by left. }
  apply os_Open_ok in Hopen as (-> & _ & _ & ->).
  destruct (os_Create copyName _ _) as [[copyFile|e1] w2] eqn:Hcreate.
  2:{ apply os_Create_fail in Hcreate as ->. injection Hrot as _ <-. by left. }
  apply os_Create_ok in Hcreate as (-> & _ & ->).
  unfold io_Copy in Hrot. cbn [fs sys set_fs] in Hrot.
  rewrite lookup_insert_ne in Hrot by done.
  destruct (fs w !! logPath) as [[k data]|] eqn:Hlive.
  2:{ injection Hrot as _ <-. right. by exists "". }
  destruct k.
  2,3: injection Hrot as _ <-; right; by exists "".
  destruct (rot_copy_fault env) as [n|].
  { injection Hrot as _ <-. right. exists (substring 0 n data).
    unfold write. simpl. rewrite lookup_insert_eq. simpl.
    by rewrite insert_insert_eq. }
  unfold os_Truncate0, write in Hrot. simpl in Hrot.
  rewrite lookup_insert_eq in Hrot. simpl in Hrot.
  rewrite !(lookup_insert_ne _ copyName logPath), Hlive in Hrot by done.
  destruct (rot_truncate_fault env); [|discriminate].
  injection Hrot as _ <-. right. exists data. simpl. by rewrite insert_insert_eq.
Qed.

End Lifecycle.

Section ReadOnly.
Import Str Path Strconv.
Context {U : Type} (json_Unmarshal : string -> result Log).
Implicit Types (p : LogProcessor U) (w : World U) (h : Handler U).

Lemma process_lines_keeps_files h lines :
  keeps_files h ->
  forall w err trace,
    let w' := (process_lines json_Unmarshal h lines w err trace).1.1 in
    fs w' = fs w /\ syscalls w' = syscalls w.
Proof.
  intros Hh. induction lines as [|line rest IH]; intros w err trace; [done|].
  cbn [process_lines]. cbv zeta.
  set (w1 := emit LevelDebug _ _ w).
  destruct (json_Unmarshal line) as [logEntry|e].
  - destruct (Hh logEntry w1) as [Hfs Hsys].
    destruct (h logEntry w1) as [[u|e] w2]; simpl in Hfs, Hsys.
    + destruct (IH w2 err (trace ++ [Dispatched logEntry (Ok u)])) as [-> ->].
      by rewrite Hfs, Hsys.
    + match goal with
      | |- context [process_lines _ _ _ ?w3 true ?tr] =>
          destruct (IH w3 true tr) as [-> ->]
      end.
      simpl. by rewrite Hfs, Hsys.
  - match goal with
    | |- context [process_lines _ _ _ ?w3 true ?tr] =>
        destruct (IH w3 true tr) as [-> ->]
    end.
    done.
Qed.

Lemma ProcessLogFile_fs p env filename w :
  keeps_files (logHandler p) ->
  fs (ProcessLogFile json_Unmarshal p env filename w).1.2 = fs w.
Proof.
  intros Hh. unfold ProcessLogFile.
  set (w0 := emit LevelInfo _ _ w).
  destruct (os_Open filename _ w0) as [[file|e] w1] eqn:Hopen.
  2:{ by apply os_Open_fail in Hopen as ->. }
  apply os_Open_ok in Hopen as (-> & _ & _ & ->).
  destruct (scanned filename env _) as [lines scanner_Err].
  pose proof (process_lines_keeps_files lines Hh (sys (SysOpen filename) w0) false [])
    as [Hfs _].
  destruct (process_lines _ _ lines _ false []) as [[w2 flag] trace].
  simpl in Hfs. destruct flag; [|destruct scanner_Err]; simpl; by rewrite Hfs.
Qed.

(** X1: [ProcessLogFile] reads and never writes.  With a record handler
    that leaves the files alone the files are after the call what they
    were before it.  Either the file cannot be opened, and then the call
    returns the wrapped error of [os.Open] without a single handler
    call; or the file is opened once and closed once, on every path by
    which the call returns. *)
Theorem ProcessLogFile_only_reads p env filename w :
  keeps_files (logHandler p) ->
  let run := ProcessLogFile json_Unmarshal p env filename w in
  fs run.1.2 = fs w
  /\ ((exists e, run.1.1 = Fail (fmt_Errorf "failed to open log file" e))
      /\ run.2 = [] /\ syscalls run.1.2 = syscalls w
      \/ syscalls run.1.2 = syscalls w ++ [SysOpen filename; SysClose filename]).
Proof.
  intros Hh run. subst run. unfold ProcessLogFile.
  set (w0 := emit LevelInfo _ _ w).
  destruct (os_Open filename _ w0) as [[file|e] w1] eqn:Hopen.
  2:{ apply os_Open_fail in Hopen as ->. simpl. split; [done|]. left. eauto. }
  apply os_Open_ok in Hopen as (-> & _ & _ & ->).
  destruct (scanned filename env _) as [lines scanner_Err].
  pose proof (process_lines_keeps_files lines Hh (sys (SysOpen filename) w0) false [])
    as [Hfs Hsys].
  destruct (process_lines _ _ lines _ false []) as [[w2 flag] trace].
  simpl in Hfs, Hsys.
  destruct flag; [|destruct scanner_Err]; simpl; rewrite Hfs, Hsys, <- app_assoc;
    (split; [done | by right]).
Qed.


(** The files after one tick of the processing job, for a handler that
    leaves the files alone: they are as before, or a backup file has
    been left behind by a failed rotation, or the rotation has
    succeeded. *)
Lemma processing_tick_fs p env w :
  keeps_files (logHandler p) ->
  let logPath := Join (auditLogDir p) (auditLogFile p) in
  let copyName := generateNewBackupFilename p (rot_now (tick_rotate env)) in
  let w' := processing_tick json_Unmarshal p env w in
  fs w' = fs w
  \/ (exists part, fs w' = <[copyName := mkNode Regular part]> (fs w))
  \/ (exists data,
        fs w !! logPath = Some (mkNode Regular data)
        /\ fs w' = <[logPath := mkNode Regular ""]>
                     (<[copyName := mkNode Regular data]> (fs w))).
Proof.
  intros Hh logPath copyName w'. subst w'. unfold processing_tick.
  destruct (checkIfLogsExist p _ w) as [[|]|e]; [|by left..].
  set (w0 := emit LevelInfo _ _ w).
  destruct (rotateLogs p (tick_rotate env) w0) as [[filename|e] w1] eqn:Hrot.
  - destruct (rotateLogs_ok_world _ _ _ Hrot) as (data & Hlive & -> & Hfs & _).
    pose proof (ProcessLogFile_fs p (tick_read env)
                  (generateNewBackupFilename p (rot_now (tick_rotate env))) w1 Hh)
      as Hro.
    destruct (ProcessLogFile _ _ _ _ w1) as [[[u|e] w2] trace]; simpl in Hro;
      right; right; exists data; (split; [done|]); simpl; by rewrite Hro, Hfs.
  - apply rotateLogs_fail_world in Hrot as [Hfs|[part Hfs]]; simpl;
      [left | right; left; exists part]; by rewrite Hfs.
Qed.

(** X3: One tick of the processing job loses no audit data.  With a
    handler that leaves the files alone, a tick touches no path but the
    live log and the backup path of that tick; and either the live log
    is as it was, or the backup file holds everything the live log held
    and the live log is empty. *)
Theorem processing_tick_keeps_data p env w :
  keeps_files (logHandler p) ->
  let logPath := Join (auditLogDir p) (auditLogFile p) in
  let copyName := generateNewBackupFilename p (rot_now (tick_rotate env)) in
  let w' := processing_tick json_Unmarshal p env w in
  (forall k, k <> logPath -> k <> copyName -> fs w' !! k = fs w !! k)
  /\ (fs w' !! logPath = fs w !! logPath
      \/ exists data,
           fs w !! logPath = Some (mkNode Regular data)
           /\ fs w' !! copyName = Some (mkNode Regular data)
           /\ fs w' !! logPath = Some (mkNode Regular "")).
Proof.
  intros Hh logPath copyName w'.
  pose proof (generateNewBackupFilename_ne p (rot_now (tick_rotate env))) as Hne.
  fold logPath copyName in Hne.
  destruct (processing_tick_fs p env w Hh)
    as [Hfs|[[part Hfs]|(data & Hlive & Hfs)]];
    fold logPath copyName w' in Hfs; rewrite Hfs.
  - split; [done | by left].
  - split; [intros k _ Hk; by rewrite lookup_insert_ne|].
    left. by rewrite lookup_insert_ne.
  - fold logPath in Hlive. split.
    + intros k Hk1 Hk2. by rewrite !lookup_insert_ne.
    + right. exists data. split; [done|].
      rewrite lookup_insert_eq, lookup_insert_ne by done.
      by rewrite lookup_insert_eq.
Qed.

(** X4: The processing job never removes a file, whatever signals it
    receives and whatever fails: every path that names a file before
    the job names a file after it.  Backup files pile up until the
    expiration job removes them. *)
Theorem StartProcessingJob_never_deletes p signals w k :
  keeps_files (logHandler p) ->
  is_Some (fs w !! k) ->
  is_Some (fs (StartProcessingJob json_Unmarshal p signals w).2 !! k).
Proof.
  intros Hh. unfold StartProcessingJob.
  destruct (NewTicker_panics _); [done|].
  set (w0 := emit LevelInfo _ _ w). change (fs w) with (fs w0).
  generalize w0. clear w0.
  induction signals as [|[env|] rest IH]; intros w0 Hk; [done| |done].
  cbn [run_job]. apply IH.
  destruct (processing_tick_fs p env w0 Hh)
    as [Hfs|[[part Hfs]|(data & Hlive & Hfs)]]; rewrite Hfs.
  - done.
  - destruct (decide (generateNewBackupFilename p (rot_now (tick_rotate env)) = k))
      as [->|Hne]; [by rewrite lookup_insert_eq | by rewrite lookup_insert_ne].
  - destruct (decide (Join (auditLogDir p) (auditLogFile p) = k)) as [->|Hne1];
      [by rewrite lookup_insert_eq | rewrite lookup_insert_ne by done].
    destruct (decide (generateNewBackupFilename p (rot_now (tick_rotate env)) = k))
      as [->|Hne]; [by rewrite lookup_insert_eq | by rewrite lookup_insert_ne].
Qed.

End ReadOnly.

Lemma ProcessLogFile_only_reads_witness :
  let run := ProcessLogFile Demo.decode Demo.capturing Demo.quiet
               "/var/log/audit.log.100" Demo.w1 in
  fs run.1.2 = fs Demo.w1.
Proof.
  intros run.
  destruct (ProcessLogFile_only_reads Demo.decode Demo.capturing Demo.quiet
              "/var/log/audit.log.100" Demo.w1) as [Hfs _].
  - intros l w. split; reflexivity.
  - exact Hfs.
Defined.


Lemma processing_tick_keeps_data_witness :
  let w' := processing_tick Demo.decode Demo.capturing (Demo.tick 1700000000) Demo.w0 in
  fs w' !! "/var/log/other.txt" = fs Demo.w0 !! "/var/log/other.txt".
Proof.
  intros w'.
  destruct (processing_tick_keeps_data Demo.decode Demo.capturing
              (Demo.tick 1700000000) Demo.w0) as [Hother _].
  - intros l w. split; reflexivity.
  - apply Hother; vm_compute; discriminate.
Defined.

Lemma StartProcessingJob_never_deletes_witness :
  is_Some (fs (StartProcessingJob Demo.decode Demo.capturing
                 [Tick (Demo.tick 1700000000); StopSignal] Demo.w0).2
           !! "/var/log/audit.log.100").
Proof.
  apply (StartProcessingJob_never_deletes Demo.decode Demo.capturing
           [Tick (Demo.tick 1700000000); StopSignal] Demo.w0).
  - intros l w. split; reflexivity.
  - vm_compute. eexists. reflexivity.
Defined.

Section SweepEffects.
Import Str Path Strconv.
Context {U : Type}.
Implicit Types (p : LogProcessor U) (w : World U).

(** [expired_backup] looks at the world through one lookup only. *)
Lemma expired_backup_lookup p now w w' k :
  fs w' !! k = fs w !! k -> expired_backup p now w k -> expired_backup p now w' k.
Proof.
  intros Hk (n & suffix & ts & Hn & H). exists n, suffix, ts.
  split; [by rewrite Hk | exact H].
Qed.

(** X5: The sweep is idempotent on the files: a second sweep at the same
    instant, with the same removals refused by the operating system,
    finds nothing left to remove. *)
Theorem expireBackupLogFiles_idempotent p env w :
  exp_readdir_fault env = false ->
  let w1 := (expireBackupLogFiles p env w).2 in
  fs (expireBackupLogFiles p env w1).2 = fs w1.
Proof.
  intros Hflt w1. subst w1. unfold expireBackupLogFiles. rewrite Hflt.
  set (w0 := emit LevelInfo _ _ w).
  destruct (os_ReadDir (auditLogDir p) false w0) as [files|e] eqn:Hls;
    [|discriminate].
  cbn [snd].
  set (w1 := fold_left (expire_entry p env) files w0).
  set (w2 := emit LevelInfo _ _ w1).
  destruct (os_ReadDir (auditLogDir p) false w2) as [files'|e] eqn:Hls';
    [|discriminate].
  cbn [snd]. apply map_eq. intros k. rewrite sweep_lookup.
  destruct (existsb _ files') eqn:Hex; [|done].
  apply (@sweep_target U p env w2 files' k Hls') in Hex as [Hexp Hok].
  assert (fs w2 !! k = fs w1 !! k) as Hkeep by done.
  destruct Hexp as (n & suffix & ts & Hn & Hrest).
  rewrite Hkeep in Hn. subst w1. rewrite sweep_lookup in Hn.
  destruct (existsb _ files) eqn:Hex1; [done|].
  assert (expired_backup p (exp_now env) w0 k) as Hexp0
    by (exists n, suffix, ts; by split).
  rewrite (proj2 (@sweep_target U p env w0 files k Hls) (conj Hexp0 Hok)) in Hex1.
  done.
Qed.

Lemma expire_entry_effects p env w file :
  let path := Join (auditLogDir p) (de_Name file) in
  exists evs recs,
    syscalls (expire_entry p env w file) = syscalls w ++ evs
    /\ slog (expire_entry p env w file) = slog w ++ recs
    /\ Forall (fun c => c = SysRemove path
                        /\ expired p (exp_now env) file = true
                        /\ exp_remove_fault env path = false) evs
    /\ Forall (fun r => lr_Msg r
                        <> "Failed to parse timestamp from backup log filename, skipping")
         recs.
Proof.
  intros path. subst path. unfold expire_entry, expired.
  assert (exists evs recs : list _,
            syscalls w = syscalls w ++ evs /\ slog w = slog w ++ recs
            /\ Forall (fun c => c = SysRemove (Join (auditLogDir p) (de_Name file))
                        /\ bool_decide (de_Kind file = Regular)
                           && isBackupFile p (de_Name file)
                           && match parseTimestampFromBackupFilename p (de_Name file) with
                              | Ok timestamp =>
                                  LogExpiration p <? GoTime.Sub (exp_now env) timestamp
                              | Fail _ => false
                              end = true
                        /\ exp_remove_fault env (Join (auditLogDir p) (de_Name file))
                           = false) evs
            /\ Forall (fun r => lr_Msg r
                        <> "Failed to parse timestamp from backup log filename, skipping")
                 recs) as Hnone.
  { exists [], []. by rewrite !app_nil_r. }
  destruct (de_Kind file) eqn:Hkind; simpl; try exact Hnone.
  destruct (isBackupFile p (de_Name file)) eqn:Hrec; simpl; [|exact Hnone].
  unfold isBackupFile in Hrec.
  destruct (HasPrefix _ _); simpl in Hrec; [|done].
  destruct (parseTimestampFromBackupFilename p (de_Name file)) as [ts|e]; [|done].
  destruct (LogExpiration p <? GoTime.Sub (exp_now env) ts); [|exact Hnone].
  unfold os_Remove.
  destruct (fs w !! Join (auditLogDir p) (de_Name file)).
  - destruct (exp_remove_fault env _) eqn:Hfault; simpl.
    + eexists [], [_]. rewrite app_nil_r.
      split; [done|]. split; [reflexivity|]. split; [done|].
      constructor; [discriminate | done].
    + eexists [_], [_].
      split; [reflexivity|]. split; [reflexivity|]. split; [by constructor|].
      constructor; [discriminate | done].
  - simpl. eexists [], [_]. rewrite app_nil_r.
    split; [done|]. split; [reflexivity|]. split; [done|].
    constructor; [discriminate | done].
Qed.

Lemma sweep_effects p env files : forall w,
  exists evs recs,
    syscalls (fold_left (expire_entry p env) files w) = syscalls w ++ evs
    /\ slog (fold_left (expire_entry p env) files w) = slog w ++ recs
    /\ Forall (fun c => exists file,
                 file ∈ files
                 /\ c = SysRemove (Join (auditLogDir p) (de_Name file))
                 /\ expired p (exp_now env) file = true
                 /\ exp_remove_fault env (Join (auditLogDir p) (de_Name file)) = false)
         evs
    /\ Forall (fun r => lr_Msg r
                        <> "Failed to parse timestamp from backup log filename, skipping")
         recs.
Proof.
  induction files as [|file files IH]; intros w.
  - exists [], []. by rewrite !app_nil_r.
  - cbn [fold_left].
    destruct (expire_entry_effects p env w file) as (evs1 & recs1 & Hs1 & Hl1 & He1 & Hr1).
    destruct (IH (expire_entry p env w file)) as (evs2 & recs2 & Hs2 & Hl2 & He2 & Hr2).
    exists (evs1 ++ evs2), (recs1 ++ recs2).
    rewrite Hs2, Hl2, Hs1, Hl1, <- !app_assoc.
    split; [done|]. split; [done|]. split; [|by apply Forall_app].
    apply Forall_app. split.
    + eapply Forall_impl; [exact He1|]. intros c (-> & Hexp & Hok).
      exists file. split; [left|done].
    + eapply Forall_impl; [exact He2|]. intros c (f & Hin & H).
      exists f. split; [by right | done].
Qed.


(** X7: The warning about a backup file name whose timestamp does not
    parse is never logged: the loop reaches the parser only for names
    that [isBackupFile] has accepted, and [isBackupFile] accepts a name
    only when the same parser succeeds on it. *)
Theorem expire_parse_warning_unreachable p env w :
  exists recs,
    slog (expireBackupLogFiles p env w).2 = slog w ++ recs
    /\ Forall (fun r => lr_Msg r
                        <> "Failed to parse timestamp from backup log filename, skipping")
         recs.
Proof.
  unfold expireBackupLogFiles.
  set (w0 := emit LevelInfo _ _ w).
  destruct (os_ReadDir (auditLogDir p) (exp_readdir_fault env) w0) as [files|e].
  - cbn [snd]. destruct (sweep_effects p env files w0) as (evs & recs & _ & Hl & _ & Hr).
    eexists (_ :: recs). rewrite Hl. simpl. rewrite <- app_assoc.
    split; [done|]. constructor; [discriminate | done].
  - simpl. eexists [_]. split; [done|]. constructor; [discriminate | done].
Qed.

Lemma expiration_tick_lookup p env w k :
  fs (expiration_tick p env w) !! k = fs w !! k
  \/ fs (expiration_tick p env w) !! k = None /\ expired_backup p (exp_now env) w k.
Proof.
  unfold expiration_tick, expireBackupLogFiles.
  set (w0 := emit LevelInfo _ _ w).
  destruct (exp_readdir_fault env) eqn:Hflt; [by left|].
  destruct (os_ReadDir (auditLogDir p) false w0) as [files|e] eqn:Hls;
    [|discriminate].
  rewrite sweep_lookup. destruct (existsb _ files) eqn:Hex; [|by left].
  apply (@sweep_target U p env w0 files k Hls) in Hex as [Hb _].
  right. split; [done|]. by eapply expired_backup_lookup; [|exact Hb].
Qed.

(** X8: The expiration job only ever deletes, and never the live log:
    whatever signals it receives, every file there is after the job was
    there before it with the same content, and the live log is as it
    was. *)
Theorem StartExpirationJob_only_deletes p signals w :
  let w' := (StartExpirationJob p signals w).2 in
  (forall k n, fs w' !! k = Some n -> fs w !! k = Some n)
  /\ fs w' !! Join (auditLogDir p) (auditLogFile p)
     = fs w !! Join (auditLogDir p) (auditLogFile p).
Proof.
  intros w'. subst w'. unfold StartExpirationJob.
  destruct (NewTicker_panics _); [done|].
  set (w0 := emit LevelInfo _ _ w). change (fs w) with (fs w0).
  generalize w0. clear w0.
  induction signals as [|[env|] rest IH]; intros w0; [done| |done].
  cbn [run_job]. destruct (IH (expiration_tick p env w0)) as [IH1 IH2]. split.
  - intros k n Hk%IH1.
    destruct (expiration_tick_lookup p env w0 k) as [Heq|[Heq _]]; congruence.
  - rewrite IH2.
    destruct (expiration_tick_lookup p env w0 (Join (auditLogDir p) (auditLogFile p)))
      as [Heq|[_ Hb]]; [done|].
    by apply live_log_not_expired in Hb.
Qed.

End SweepEffects.

Lemma expireBackupLogFiles_idempotent_witness :
  let w1 := (expireBackupLogFiles Demo.p (Demo.sweep 1000) Demo.w0).2 in
  fs (expireBackupLogFiles Demo.p (Demo.sweep 1000) w1).2 = fs w1.
Proof.
  apply (expireBackupLogFiles_idempotent Demo.p (Demo.sweep 1000) Demo.w0).
  reflexivity.
Defined.

Section NamingMore.
Import Str Path Strconv.
Context {U : Type}.
Implicit Types (p : LogProcessor U) (w : World U).

Lemma append_inj_l pre x y : pre +:+ x = pre +:+ y -> x = y.
Proof. induction pre as [|c pre IH]; simpl; [done|]. intros [= H]. by apply IH. Qed.

(** X9: What [isBackupFile] accepts: the paths whose last element is the
    base name of the live log, a dot, and an optionally signed run of
    decimal digits with a value in the signed 64-bit range; the
    directories in front of the last element play no part. *)
Theorem isBackupFile_spec p filename :
  isBackupFile p filename = true
  <-> exists suffix ts,
        Base filename = auditLogFile p +:+ "." +:+ suffix
        /\ decimal_int64 suffix = Some ts.
Proof.
  split.
  - unfold isBackupFile.
    destruct (HasPrefix (Base filename) (auditLogFile p +:+ ".")) eqn:Hpre; [|done].
    apply HasPrefix_split in Hpre as [suffix Hname]. rewrite append_assoc in Hname.
    destruct (@parseTimestamp_prefixed U p _ _ Hname) as [Hparse _].
    simpl. rewrite Hparse. destruct (ParseInt suffix) as [ts|e] eqn:Hts; [|done].
    intros _. exists suffix, ts. split; [done | by apply ParseInt_decimal].
  - intros (suffix & ts & Hname & Hts%ParseInt_decimal).
    destruct (@parseTimestamp_prefixed U p _ _ Hname) as [_ Hrec].
    by rewrite Hrec, Hts.
Qed.

(** X10: Backup paths are told apart by the clock second, and by nothing
    else: two rotations of the same processor write to the same backup
    path exactly when their clocks show the same unix second. *)
Theorem backup_names_differ_by_second p (t1 t2 : GoTime.Time) :
  has_slash (auditLogFile p) = false ->
  int64 (GoTime.sec t1) -> int64 (GoTime.sec t2) ->
  generateNewBackupFilename p t1 = generateNewBackupFilename p t2
  <-> GoTime.sec t1 = GoTime.sec t2.
Proof.
  intros Hf H1 H2. split.
  - intros Heq%(f_equal Base).
    rewrite !Base_generateNewBackupFilename in Heq by done.
    rewrite <- !append_assoc in Heq. apply append_inj_l in Heq.
    unfold GoTime.Unix_of in Heq.
    pose proof (ParseInt_FormatInt H1) as Hp1.
    rewrite Heq, (ParseInt_FormatInt H2) in Hp1. congruence.
  - intros Heq. unfold generateNewBackupFilename, GoTime.Unix_of. by rewrite Heq.
Qed.

(** X11: A second rotation within the same clock second replaces the backup
    of the first: when more data has reached the live log after the
    first rotation, the second rotation returns the same path, and the
    file there holds the new data only. *)
Theorem rotateLogs_same_second_replaces_backup p env1 env2 w w1 w2 name1 name2 more :
  rotateLogs p env1 w = (Ok name1, w1) ->
  rotateLogs p env2 (write (Join (auditLogDir p) (auditLogFile p)) more w1)
    = (Ok name2, w2) ->
  GoTime.sec (rot_now env1) = GoTime.sec (rot_now env2) ->
  name2 = name1 /\ fs w2 !! name1 = Some (mkNode Regular more).
Proof.
  intros Hr1 Hr2 Hsec.
  destruct (rotateLogs_ok_world _ _ _ Hr1) as (data1 & _ & -> & Hfs1 & _).
  destruct (rotateLogs_ok_world _ _ _ Hr2) as (data2 & Hlive2 & -> & Hfs2 & _).
  assert (generateNewBackupFilename p (rot_now env2)
          = generateNewBackupFilename p (rot_now env1)) as Hname
    by (unfold generateNewBackupFilename, GoTime.Unix_of; by rewrite Hsec).
  split; [done|]. rewrite Hname in Hfs2.
  pose proof (generateNewBackupFilename_ne p (rot_now env1)) as Hne.
  rewrite Hfs2, lookup_insert_ne, lookup_insert_eq by done.
  unfold write in Hlive2. rewrite Hfs1, lookup_insert_eq in Hlive2.
  simpl in Hlive2. rewrite lookup_insert_eq in Hlive2. congruence.
Qed.

(** X12: From rotation to expiry.  The backup file a rotation has written
    is removed by a later sweep when the time since the second of the
    rotation exceeds the retention, and is kept, with what it holds,
    when it does not; the emptied live log is kept in both cases. *)
Theorem rotated_backup_expires_by_age p renv eenv w name w1 :
  rotateLogs p renv w = (Ok name, w1) ->
  has_slash (auditLogFile p) = false ->
  int64 (GoTime.sec (rot_now renv)) ->
  exp_readdir_fault eenv = false ->
  exp_remove_fault eenv name = false ->
  let w2 := (expireBackupLogFiles p eenv w1).2 in
  let age := GoTime.Sub (exp_now eenv) (GoTime.mkTime (GoTime.sec (rot_now renv)) 0) in
  (LogExpiration p < age -> fs w2 !! name = None)
  /\ (age <= LogExpiration p -> is_Some (fs w1 !! name) /\ fs w2 !! name = fs w1 !! name)
  /\ fs w2 !! Join (auditLogDir p) (auditLogFile p) = Some (mkNode Regular "").
Proof.
  intros Hrot Hf Hi Hflt Hok w2 age.
  destruct (rotateLogs_ok_world _ _ _ Hrot) as (data & _ & -> & Hfs & _).
  pose proof (generateNewBackupFilename_ne p (rot_now renv)) as Hne.
  set (copyName := generateNewBackupFilename p (rot_now renv)) in *.
  set (logPath := Join (auditLogDir p) (auditLogFile p)) in *.
  assert (fs w1 !! copyName = Some (mkNode Regular data)) as Hcopy.
  { rewrite Hfs, lookup_insert_ne by done. by rewrite lookup_insert_eq. }
  assert (Base copyName
          = auditLogFile p +:+ "." +:+ FormatInt (GoTime.sec (rot_now renv))) as Hbase
    by (by apply Base_generateNewBackupFilename).
  assert (expired_backup p (exp_now eenv) w1 copyName <-> LogExpiration p < age) as Hexp.
  { split.
    - intros (n & suffix & ts & _ & _ & _ & Hb & Hts & Hage).
      rewrite Hbase in Hb. rewrite <- !append_assoc in Hb. apply append_inj_l in Hb.
      subst suffix. rewrite (decimal_int64_FormatInt Hi) in Hts. by injection Hts as <-.
    - intros Hage. exists (mkNode Regular data), (FormatInt (GoTime.sec (rot_now renv))),
        (GoTime.sec (rot_now renv)).
      split; [done|]. split.
      + unfold child_of. rewrite Hbase, backup_entry_name by done. simpl.
        apply String.eqb_eq. reflexivity.
      + split; [done|]. split; [done|]. split; [by apply decimal_int64_FormatInt | done]. }
  subst w2. unfold expireBackupLogFiles. rewrite Hflt.
  set (w0 := emit LevelInfo _ _ w1).
  destruct (os_ReadDir (auditLogDir p) false w0) as [files|e] eqn:Hls;
    [|discriminate].
  cbn [snd]. rewrite !sweep_lookup.
  change (expired_backup p (exp_now eenv) w0 copyName <-> LogExpiration p < age)
    in Hexp.
  split; [|split].
  - intros Hage%Hexp.
    by rewrite (proj2 (@sweep_target U p eenv w0 files copyName Hls) (conj Hage Hok)).
  - intros Hage. split; [by rewrite Hcopy|].
    destruct (existsb _ files) eqn:Hex; [|done].
    apply (@sweep_target U p eenv w0 files copyName Hls) in Hex as [Hb%Hexp _]. lia.
  - destruct (existsb _ files) eqn:Hex.
    + apply (@sweep_target U p eenv w0 files logPath Hls) in Hex as [Hb _].
      by apply live_log_not_expired in Hb.
    + change (fs w0) with (fs w1). by rewrite Hfs, lookup_insert_eq.
Qed.

(** [checkIfLogsExist] reports audit data exactly when the live log
    exists and is not empty. *)
Lemma checkIfLogsExist_spec p w :
  (checkIfLogsExist p false w = Ok true
   <-> exists n, fs w !! Join (auditLogDir p) (auditLogFile p) = Some n
                 /\ content n <> "")
  /\ (checkIfLogsExist p false w = Ok false
      <-> forall n, fs w !! Join (auditLogDir p) (auditLogFile p) = Some n
                    -> content n = "").
Proof.
  unfold checkIfLogsExist, os_Stat.
  destruct (fs w !! Join (auditLogDir p) (auditLogFile p)) as [n|].
  - destruct (content n) as [|c s] eqn:Hc; simpl.
    + split; split; try done.
      * intros (n' & [= <-] & Hne). by rewrite Hc in Hne.
      * intros _ n' [= <-]. done.
    + split; split; try done.
      * intros _. exists n. by rewrite Hc.
      * intros H. specialize (H n eq_refl). by rewrite Hc in H.
  - split; split; try done. by intros (n & ? & _).
Qed.

End NamingMore.

Lemma backup_names_differ_by_second_witness :
  generateNewBackupFilename Demo.p (GoTime.mkTime 1700000000 1)
  = generateNewBackupFilename Demo.p (GoTime.mkTime 1700000000 999999999).
Proof.
  apply (backup_names_differ_by_second Demo.p (GoTime.mkTime 1700000000 1)
           (GoTime.mkTime 1700000000 999999999)).
  - reflexivity.
  - unfold Strconv.int64, Strconv.minInt64, Strconv.maxInt64. simpl. lia.
  - unfold Strconv.int64, Strconv.minInt64, Strconv.maxInt64. simpl. lia.
  - reflexivity.
Defined.

Lemma rotateLogs_same_second_replaces_backup_witness :
  let w1 := (rotateLogs Demo.p (Demo.calm 1700000000) Demo.w0).2 in
  let w2 := (rotateLogs Demo.p (Demo.calm 1700000000)
               (write "/var/log/audit.log" "{c}" w1)).2 in
  fs w1 !! "/var/log/audit.log.1700000000"
    = Some (mkNode Regular ("{a}" +:+ Demo.nl +:+ "{b}" +:+ Demo.nl))
  /\ fs w2 !! "/var/log/audit.log.1700000000" = Some (mkNode Regular "{c}").
Proof.
  intros w1 w2. split; [vm_compute; reflexivity|].
  apply (rotateLogs_same_second_replaces_backup Demo.p (Demo.calm 1700000000)
           (Demo.calm 1700000000) Demo.w0 (w1 := w1) (w2 := w2)
           (name1 := "/var/log/audit.log.1700000000")
           (name2 := "/var/log/audit.log.1700000000") "{c}").
  - vm_compute. reflexivity.
  - vm_compute. reflexivity.
  - reflexivity.
Defined.

Lemma rotated_backup_expires_by_age_witness :
  let w1 := (rotateLogs Demo.p (Demo.calm 1700000000) Demo.w0).2 in
  fs (expireBackupLogFiles Demo.p (Demo.sweep 1700000061) w1).2
    !! "/var/log/audit.log.1700000000" = None
  /\ fs (expireBackupLogFiles Demo.p (Demo.sweep 1700000060) w1).2
       !! "/var/log/audit.log.1700000000"
     = fs w1 !! "/var/log/audit.log.1700000000".
Proof.
  intros w1. split.
  - apply (rotated_backup_expires_by_age Demo.p (Demo.calm 1700000000)
             (Demo.sweep 1700000061) Demo.w0
             (name := "/var/log/audit.log.1700000000") (w1 := w1)).
    + vm_compute. reflexivity.
    + reflexivity.
    + unfold Strconv.int64, Strconv.minInt64, Strconv.maxInt64. simpl. lia.
    + reflexivity.
    + reflexivity.
    + vm_compute. reflexivity.
  - apply (rotated_backup_expires_by_age Demo.p (Demo.calm 1700000000)
             (Demo.sweep 1700000060) Demo.w0
             (name := "/var/log/audit.log.1700000000") (w1 := w1)).
    + vm_compute. reflexivity.
    + reflexivity.
    + unfold Strconv.int64, Strconv.minInt64, Strconv.maxInt64. simpl. lia.
    + reflexivity.
    + reflexivity.
    + vm_compute. discriminate.
Defined.

(** ** Lines the scanner cannot hold *)

Section LongLines.
Import Str.
Context {U : Type} (json_Unmarshal : string -> result Log).
Implicit Types (p : LogProcessor U) (w : World U).

Lemma split_app_no_sep sep a s :
  has_byte sep a = false ->
  split sep (a +:+ s)
  = match split sep s with h :: t => (a +:+ h) :: t | [] => [a] end.
Proof.
  induction a as [|c a IH]; simpl.
  - intros _. destruct (split sep s) eqn:E; [by apply split_nonempty in E | done].
  - intros [Hc Ha]%orb_false_iff. rewrite Hc, IH by done. by destruct (split sep s).
Qed.

Lemma split_unlines before s :
  forallb short_line before = true ->
  split "010" (unlines before +:+ s) = before ++ split "010" s.
Proof.
  induction before as [|l before IH]; [done|].
  cbn [forallb unlines fold_right]. intros [[Hl _]%andb_true_iff Hb]%andb_true_iff.
  apply negb_true_iff in Hl. fold (unlines before).
  rewrite !append_assoc, split_app_no_sep by done.
  unfold newline. simpl. rewrite IH by done. by rewrite append_nil_r.
Qed.

Lemma line_pieces_app before X t :
  X <> "" -> exists t', Bufio.line_pieces (before ++ X :: t) = before ++ X :: t'.
Proof.
  intros HX. induction before as [|l before [t' IH]].
  - simpl. destruct t as [|y t]; [|by eexists].
    exists []. by rewrite (proj2 (String.eqb_neq X "") HX).
  - exists t'. simpl. rewrite IH.
    destruct (before ++ X :: t) eqn:E; [by destruct before | done].
Qed.

Lemma tokens_long before X t :
  forallb short_line before = true ->
  Bufio.MaxScanTokenSize <= Z.of_nat (String.length X) ->
  Bufio.tokens (before ++ X :: t) = (map Bufio.dropCR before, Some bufio_ErrTooLong).
Proof.
  intros Hb HX. induction before as [|l before IH]; simpl.
  - by rewrite (proj2 (Z.leb_le _ _) HX).
  - simpl in Hb. apply andb_true_iff in Hb as [[_ Hl%Z.ltb_lt]%andb_true_iff Hb].
    rewrite (proj2 (Z.leb_gt _ _) Hl), IH by done. done.
Qed.

Lemma Scan_long_line before long rest read_err :
  forallb short_line before = true ->
  has_byte "010" long = false ->
  Bufio.MaxScanTokenSize <= Z.of_nat (String.length long) ->
  Bufio.Scan (unlines before +:+ long +:+ rest) read_err
  = (map Bufio.dropCR before, Some bufio_ErrTooLong).
Proof.
  intros Hb Hnl Hlen. unfold Bufio.Scan.
  rewrite split_unlines, split_app_no_sep by done.
  destruct (split "010" rest) as [|h t] eqn:E; [by apply split_nonempty in E|].
  assert (Bufio.MaxScanTokenSize <= Z.of_nat (String.length (long +:+ h))) as Hlen'
    by (rewrite length_append; lia).
  assert (long +:+ h <> "") as Hne.
  { intros Heq. rewrite Heq in Hlen'. unfold Bufio.MaxScanTokenSize in Hlen'.
    simpl in Hlen'. lia. }
  destruct (line_pieces_app before t Hne) as [t' ->].
  by rewrite tokens_long.
Qed.

(** X13: A line of 65536 bytes or more ends the processing of the file:
    the scanner reports [bufio.ErrTooLong], the lines in front of the
    long line are handled, the long line and every line after it are
    not, and the call fails, with the aggregate failure when a handled
    line failed and with the wrapped scanner error otherwise. *)
Theorem long_line_stops_processing p env filename w before long rest :
  rd_open_fault env = false -> rd_read_fault env = None ->
  fs w !! filename = Some (mkNode Regular (unlines before +:+ long +:+ rest)) ->
  forallb short_line before = true ->
  has_byte "010" long = false ->
  Bufio.MaxScanTokenSize <= Z.of_nat (String.length long) ->
  let run := ProcessLogFile json_Unmarshal p env filename w in
  Forall2 (line_outcome json_Unmarshal) (map Bufio.dropCR before) run.2
  /\ run.1.1 = if existsb failed run.2 then Fail aggregate_failure
               else Fail (fmt_Errorf "failed to read log file" bufio_ErrTooLong).
Proof.
  intros Hof Hrf Hfile Hb Hnl Hlen.
  assert (scanned filename env w = (map Bufio.dropCR before, Some bufio_ErrTooLong))
    as Hscan.
  { unfold scanned, delivered. rewrite Hfile, Hrf. by apply Scan_long_line. }
  exact (ProcessLogFile_run json_Unmarshal p env filename w Hof Hfile
           ltac:(discriminate) Hscan).
Qed.

(** X14: A tick that finds the live log missing or empty does nothing at
    all: no rotation, no backup file, no handler call and no log
    output. *)
Theorem processing_tick_idle_on_empty p env w :
  tick_stat_fault env = false ->
  (forall n, fs w !! Path.Join (auditLogDir p) (auditLogFile p) = Some n
             -> content n = "") ->
  processing_tick json_Unmarshal p env w = w.
Proof.
  intros Hsf Hempty. unfold processing_tick. rewrite Hsf.
  by rewrite (proj2 (proj2 (checkIfLogsExist_spec p w)) Hempty).
Qed.

(** X15: The life of the processing job.  With an interval that is not
    positive the ticker cannot be made: the job panics after its first
    log line, before any tick.  With a positive interval the job runs
    one tick for every tick signal it receives before the stop signal,
    in order, and exits at the stop signal whatever follows it. *)
Theorem StartProcessingJob_runs_until_stop p envs rest w :
  let w0 := emit LevelInfo "Starting audit log processing job"
              [AStr "interval"; ADuration (ProcessingJobInterval p)] w in
  let signals := map Tick envs ++ StopSignal :: rest in
  (ProcessingJobInterval p <= 0 ->
   StartProcessingJob json_Unmarshal p signals w
   = (Panicked "non-positive interval for NewTicker", w0))
  /\ (0 < ProcessingJobInterval p ->
      StartProcessingJob json_Unmarshal p signals w
      = (Exited, fold_left (fun w env => processing_tick json_Unmarshal p env w) envs w0)).
Proof.
  intros w0 signals. unfold StartProcessingJob, NewTicker_panics. fold w0. split.
  - intros Hle. by rewrite (proj2 (Z.leb_le _ _) Hle).
  - intros Hlt. rewrite (proj2 (Z.leb_gt _ _) Hlt). subst signals.
    generalize w0. clear w0. induction envs as [|env envs IH]; intros w0; [done|].
    simpl. apply IH.
Qed.

End LongLines.

Lemma long_line_stops_processing_witness :
  let run := ProcessLogFile Demo.decode Demo.capturing Demo.quiet
               "/var/log/audit.log.300" Demo.w3 in
  Forall2 (line_outcome Demo.decode) ["{a}"] run.2.
Proof.
  intros run.
  apply (long_line_stops_processing Demo.decode Demo.capturing Demo.quiet
           "/var/log/audit.log.300" Demo.w3 ["{a}"] Demo.long_line
           (Demo.nl +:+ "{b}" +:+ Demo.nl)).
  - reflexivity.
  - reflexivity.
  - reflexivity.
  - vm_compute. reflexivity.
  - vm_compute. reflexivity.
  - vm_compute. discriminate.
Defined.

Lemma processing_tick_idle_on_empty_witness :
  processing_tick Demo.decode Demo.p (Demo.tick 1700000000) Demo.w1 = Demo.w1.
Proof.
  apply (processing_tick_idle_on_empty Demo.decode Demo.p (Demo.tick 1700000000) Demo.w1).
  - reflexivity.
  - intros n Hn. vm_compute in Hn. injection Hn as <-. reflexivity.
Defined.

Lemma StartProcessingJob_runs_until_stop_witness :
  let p := NewLogProcessor (list Log) Demo.parse_url (mkOptions "/var/log/audit.log" 0 0 0) in
  (StartProcessingJob Demo.decode p [Tick (Demo.tick 1700000000); StopSignal] Demo.w0).1
  = Panicked "non-positive interval for NewTicker".
Proof.
  intros p.
  pose proof (StartProcessingJob_runs_until_stop Demo.decode p
                [Demo.tick 1700000000] [] Demo.w0) as H.
  cbv zeta in H. destruct H as [Hpanic _].
  assert (ProcessingJobInterval p <= 0) as Hle by (simpl; lia).
  exact (f_equal fst (Hpanic Hle)).
Defined.

(** ** Start-up: the options of the processor *)

Section MainFacts.
Variable time_ParseDuration : string -> result Z.

Lemma getEnvOrDefault_nonempty env envVar defaultValue :
  defaultValue <> "" -> getEnvOrDefault env envVar defaultValue <> "".
Proof.
  intros Hd. unfold getEnvOrDefault.
  destruct (String.eqb_spec (os_Getenv env envVar) ""); simpl; congruence.
Qed.

Lemma guard_nonempty (s : string) : s <> "" -> negb (String.eqb s "") = true.
Proof. intros H. by destruct (String.eqb_spec s ""). Qed.

(** X16: The options [main] builds for the processor.  The three guards
    [!= ""] never skip a setting, because [getEnvOrDefault] puts the
    default in the place of an unset or empty variable: the call returns
    options exactly when all three duration strings parse, and then
    every duration of the options is what [time.ParseDuration] made of
    its string; when a string does not parse the process exits with
    code 1 after one call of [slog.Error]. *)
Theorem auditLogProcessorOptions_spec (env : Env) :
  let g := globals env in
  let run := auditLogProcessorOptions time_ParseDuration g in
  (forall opts,
     run.1 = Returns opts
     <-> opt_AuditLogPath opts = auditLogPath g
         /\ time_ParseDuration (expirationStr g) = Ok (opt_LogExpiration opts)
         /\ time_ParseDuration (expirationJobIntervalStr g)
            = Ok (opt_ExpirationJobInterval opts)
         /\ time_ParseDuration (processingJobIntervalStr g)
            = Ok (opt_ProcessingJobInterval opts))
  /\ (forall opts, run.1 = Returns opts -> run.2 = [])
  /\ (forall code,
        run.1 = os_Exit code ->
        code = 1 /\ exists r, run.2 = [r] /\ lr_Level r = LevelError).
Proof.
  intros g run. subst run. unfold auditLogProcessorOptions.
  assert (expirationStr g <> "") as H1 by (by apply getEnvOrDefault_nonempty).
  assert (expirationJobIntervalStr g <> "") as H2 by (by apply getEnvOrDefault_nonempty).
  assert (processingJobIntervalStr g <> "") as H3 by (by apply getEnvOrDefault_nonempty).
  rewrite !guard_nonempty by done.
  destruct (time_ParseDuration (expirationStr g)) as [d1|e1].
  2:{ simpl. split; [|split].
      - intros opts. split; [done | by intros (_ & ? & _)].
      - done.
      - intros code [= <-]. split; [done|]. by eexists. }
  destruct (time_ParseDuration (expirationJobIntervalStr g)) as [d2|e2].
  2:{ simpl. split; [|split].
      - intros opts. split; [done | by intros (_ & _ & ? & _)].
      - done.
      - intros code [= <-]. split; [done|]. by eexists. }
  destruct (time_ParseDuration (processingJobIntervalStr g)) as [d3|e3].
  2:{ simpl. split; [|split].
      - intros opts. split; [done | by intros (_ & _ & _ & ?)].
      - done.
      - intros code [= <-]. split; [done|]. by eexists. }
  simpl. split; [|split].
  - intros [path dp de dl]. simpl. split.
    + by intros [= <- <- <- <-].
    + by intros (-> & [= ->] & [= ->] & [= ->]).
  - done.
  - done.
Qed.

End MainFacts.

(** ** The directives of the WAF *)

Section Directives.
Import Strings.

Lemma prefix_split pre s : String.prefix pre s = true -> exists x, s = pre +:+ x.
Proof. apply (HasPrefix_split s pre). Qed.

Lemma prefix_append pre x : String.prefix pre (pre +:+ x) = true.
Proof. apply (HasPrefix_append pre x). Qed.

(** [Contains] finds the substring wherever it stands. *)
Lemma Contains_spec s substr :
  Contains s substr = true <-> exists a b, s = a +:+ substr +:+ b.
Proof.
  split.
  - induction s as [|c s IH]; cbn [Contains].
    + rewrite orb_false_r. intros [x Hx]%prefix_split. by exists "", x.
    + intros [[x Hx]%prefix_split|(a & b & ->)%IH]%orb_true_iff.
      * by exists "", x.
      * by exists (String c a), b.
  - intros (a & b & ->). induction a as [|c a IH].
    + simpl. destruct (substr +:+ b) eqn:E; cbn [Contains].
      * rewrite <- E, prefix_append. done.
      * rewrite <- E, prefix_append. done.
    + simpl. cbn [Contains]. rewrite IH. apply orb_true_r.
Qed.

(** X17: The directives from the environment.  An unset variable and an
    empty one are the same thing, an error, and nothing is logged for
    it.  Any other value is returned as it is, whatever it holds, with
    one information record that tells its length in bytes; a warning
    comes before that record exactly when the text [SecRuleEngine]
    stands nowhere in the value. *)
Theorem loadDirectivesFromEnv_spec (env : Env) :
  let run := loadDirectivesFromEnv env in
  let info directives :=
    mkLogRecord LevelInfo "Loaded WAF directives from environment"
      [AStr "length"; AInt (Z.of_nat (String.length directives))] in
  let warning :=
    mkLogRecord LevelWarn "Missing recommended directive"
      [AStr "directive"; AStr "SecRuleEngine"] in
  (env !! "DIRECTIVES" = None \/ env !! "DIRECTIVES" = Some ""
   -> (exists e, run.1 = Fail e) /\ run.2 = [])
  /\ (forall directives,
        env !! "DIRECTIVES" = Some directives -> directives <> "" ->
        run.1 = Ok directives
        /\ ((exists a b, directives = a +:+ "SecRuleEngine" +:+ b)
            -> run.2 = [info directives])
        /\ (~ (exists a b, directives = a +:+ "SecRuleEngine" +:+ b)
            -> run.2 = [warning; info directives])).
Proof.
  intros run info warning. subst run. unfold loadDirectivesFromEnv, os_Getenv. split.
  - intros [->| ->]; simpl; eauto.
  - intros directives -> Hne.
    change (default "" (Some directives)) with directives.
    rewrite (proj2 (String.eqb_neq directives "") Hne).
    cbn [flat_map]. rewrite app_nil_r.
    pose proof (Contains_spec directives "SecRuleEngine") as Hspec.
    destruct (Contains directives "SecRuleEngine"); cbn [negb app fst snd].
    + split; [done|]. split; [done|]. intros Hno. destruct Hno. by apply Hspec.
    + split; [done|]. split; [|done]. intros Hex%Hspec. done.
Qed.

End Directives.

Lemma loadDirectivesFromEnv_spec_witness :
  (loadDirectivesFromEnv (<["DIRECTIVES" := "SecRuleEngineOff"]> ∅)).1
  = Ok "SecRuleEngineOff".
Proof.
  apply (proj2 (loadDirectivesFromEnv_spec (<["DIRECTIVES" := "SecRuleEngineOff"]> ∅))
           "SecRuleEngineOff").
  - reflexivity.
  - discriminate.
Defined.

(** ** Host and port of an address: [net.SplitHostPort] and [net.JoinHostPort] *)

Example SplitHostPort_ex1 :
  Net.SplitHostPort "192.168.1.100:12345" = inr ("192.168.1.100", "12345").
Proof. reflexivity. Qed.
Example SplitHostPort_ex2 : Net.SplitHostPort "[::1]:80" = inr ("::1", "80").
Proof. reflexivity. Qed.
Example SplitHostPort_ex3 :
  Net.SplitHostPort "192.168.1.100"
  = inl (Net.mkAddrError "missing port in address" "192.168.1.100").
Proof. reflexivity. Qed.
Example SplitHostPort_ex4 :
  Net.SplitHostPort "::1:80" = inl (Net.mkAddrError "too many colons in address" "::1:80").
Proof. reflexivity. Qed.
Example SplitHostPort_ex5 :
  Net.SplitHostPort "[::1]" = inl (Net.mkAddrError "missing port in address" "[::1]").
Proof. reflexivity. Qed.
Example SplitHostPort_ex6 : Net.SplitHostPort ":80" = inr ("", "80").
Proof. reflexivity. Qed.
Example JoinHostPort_ex1 : Net.JoinHostPort "::1" "80" = "[::1]:80".
Proof. reflexivity. Qed.
Example JoinHostPort_ex2 : Net.JoinHostPort "203.0.113.195" "0" = "203.0.113.195:0".
Proof. reflexivity. Qed.
Example TrimSpace_ex1 :
  Strings.TrimSpace id id "  203.0.113.195  " = "203.0.113.195".
Proof. reflexivity. Qed.
Example TrimSpace_ex2 : Strings.TrimSpace id id (String "009" " ") = "".
Proof. reflexivity. Qed.

Section NetFacts.
Import Net.

Lemma has_byte_append c a b : has_byte c (a +:+ b) = has_byte c a || has_byte c b.
Proof. induction a as [|x a IH]; simpl; [done|]. by rewrite IH, orb_assoc. Qed.

Lemma IndexByte_None s c : IndexByte s c = None <-> has_byte c s = false.
Proof.
  induction s as [|x s IH]; simpl; [done|].
  destruct (Ascii.eqb x c); simpl; [done|].
  rewrite <- IH. by destruct (IndexByte s c).
Qed.

Lemma IndexByte_absent s c :
  has_byte c s = false -> bool_decide (is_Some (IndexByte s c)) = false.
Proof.
  intros H%IndexByte_None. rewrite H. apply bool_decide_eq_false_2. by intros [? ?].
Qed.

Lemma IndexByte_present s c :
  has_byte c s = true -> bool_decide (is_Some (IndexByte s c)) = true.
Proof.
  intros H. apply bool_decide_eq_true_2.
  destruct (IndexByte s c) eqn:E; [done|].
  apply IndexByte_None in E. congruence.
Qed.

Lemma IndexByte_append a c b :
  has_byte c a = false -> IndexByte (a +:+ String c b) c = Some (String.length a).
Proof.
  induction a as [|x a IH]; simpl.
  - by rewrite Ascii.eqb_refl.
  - intros [Hx Ha]%orb_false_iff. by rewrite Hx, IH.
Qed.

Lemma LastIndexByte_None s c : LastIndexByte s c = None <-> has_byte c s = false.
Proof.
  induction s as [|x s IH]; simpl; [done|].
  destruct (LastIndexByte s c) eqn:E.
  - split; [done|]. intros [_ H]%orb_false_iff. by apply IH in H.
  - rewrite (proj1 IH eq_refl), orb_false_r. by destruct (Ascii.eqb x c).
Qed.

Lemma LastIndexByte_append a c b :
  has_byte c b = false -> LastIndexByte (a +:+ String c b) c = Some (String.length a).
Proof.
  intros Hb. induction a as [|x a IH]; simpl.
  - by rewrite (proj2 (LastIndexByte_None b c) Hb), Ascii.eqb_refl.
  - by rewrite IH.
Qed.

Lemma substring_append a b : substring 0 (String.length a) (a +:+ b) = a.
Proof.
  induction a as [|x a IH]; simpl; [by destruct b|]. by rewrite IH.
Qed.

Lemma first_is_append a b c :
  has_byte c a = false -> first_is (a +:+ String c b) c = bool_decide (a = "").
Proof.
  destruct a as [|x a]; simpl; [by rewrite Ascii.eqb_refl|].
  intros [Hx _]%orb_false_iff. by rewrite Hx.
Qed.

Lemma has_byte_drop c n : forall s, has_byte c s = false -> has_byte c (Str.drop n s) = false.
Proof.
  induction n as [|n IH]; intros [|x s]; simpl; try done.
  intros [_ H]%orb_false_iff. by apply IH.
Qed.

Lemma drop_add n m : forall s, Str.drop (n + m) s = Str.drop m (Str.drop n s).
Proof.
  induction n as [|n IH]; intros s; simpl; [done|].
  destruct s as [|x s]; [by destruct m | apply IH].
Qed.

Lemma LastIndexByte_drop c : forall s i,
  LastIndexByte s c = Some i -> has_byte c (Str.drop (S i) s) = false.
Proof.
  induction s as [|x s IH]; intros i; simpl; [done|].
  destruct (LastIndexByte s c) as [j|] eqn:E.
  - intros [= <-]. by apply IH.
  - destruct (Ascii.eqb x c); [|done]. intros [= <-]. simpl.
    by apply LastIndexByte_None.
Qed.

(** A port that [SplitHostPort] returns holds no colon and no
    bracket. *)
Lemma SplitHostPort_port hostport host port :
  SplitHostPort hostport = inr (host, port) ->
  has_byte ":" port = false /\ has_byte "[" port = false /\ has_byte "]" port = false.
Proof.
  unfold SplitHostPort.
  destruct (LastIndexByte hostport ":") as [i|] eqn:Hi; [|done].
  apply LastIndexByte_drop in Hi.
  assert (forall (h : string) (j k : nat),
            (j <= i + 1)%nat -> (k <= i + 1)%nat ->
            (if bool_decide (is_Some (IndexByte (Str.drop j hostport) "[")) then
               inl (mkAddrError "unexpected '[' in address" hostport)
             else if bool_decide (is_Some (IndexByte (Str.drop k hostport) "]")) then
               inl (mkAddrError "unexpected ']' in address" hostport)
             else inr (h, Str.drop (i + 1) hostport)) = inr (host, port) ->
            has_byte ":" port = false /\ has_byte "[" port = false
            /\ has_byte "]" port = false) as Hfinish.
  { intros h j k Hj Hk.
    destruct (has_byte "[" (Str.drop j hostport)) eqn:Hl;
      [by rewrite IndexByte_present|rewrite IndexByte_absent by done].
    destruct (has_byte "]" (Str.drop k hostport)) eqn:Hr;
      [by rewrite IndexByte_present|rewrite IndexByte_absent by done].
    intros [= <- <-]. replace (i + 1)%nat with (S i) by lia. split; [done|].
    split.
    - replace (S i) with (j + (S i - j))%nat by lia. rewrite drop_add.
      by apply has_byte_drop.
    - replace (S i) with (k + (S i - k))%nat by lia. rewrite drop_add.
      by apply has_byte_drop. }
  destruct (first_is hostport "[").
  - destruct (IndexByte hostport "]") as [end_|]; [|done].
    destruct (end_ + 1 =? String.length hostport)%nat; [done|].
    destruct (Nat.eqb_spec (end_ + 1) i) as [<-|]; [apply Hfinish; lia|].
    by destruct (first_is _ _).
  - destruct (bool_decide _); [done|]. apply Hfinish; lia.
Qed.

Lemma drop_past a c rest : Str.drop (S (String.length a)) (a +:+ String c rest) = rest.
Proof. induction a as [|x a IH]; simpl; [done | exact IH]. Qed.

Lemma drop_past2 a c d rest :
  Str.drop (S (S (String.length a))) (a +:+ String c (String d rest)) = rest.
Proof. induction a as [|x a IH]; simpl; [done | exact IH]. Qed.

Lemma LastIndexByte_bracketed host port :
  has_byte ":" port = false ->
  LastIndexByte (host +:+ String "]" (String ":" port)) ":"
  = Some (S (String.length host)).
Proof.
  intros Hp. induction host as [|x host IH]; simpl.
  - by rewrite (proj2 (LastIndexByte_None port ":") Hp).
  - by rewrite IH.
Qed.

(** What [JoinHostPort] puts together [SplitHostPort] takes apart
    again, as long as the host holds no bracket and the port no colon
    and no bracket. *)
Lemma SplitHostPort_JoinHostPort host port :
  has_byte "[" host = false -> has_byte "]" host = false ->
  has_byte ":" port = false -> has_byte "[" port = false -> has_byte "]" port = false ->
  SplitHostPort (JoinHostPort host port) = inr (host, port).
Proof.
  intros Hhl Hhr Hpc Hpl Hpr. unfold JoinHostPort.
  destruct (has_byte ":" host) eqn:Hc.
  - rewrite IndexByte_present by done. unfold SplitHostPort.
    cbn [String.append]. set (inner := host +:+ String "]" (String ":" port)).
    assert (LastIndexByte (String "[" inner) ":" = Some (S (S (String.length host)))) as ->.
    { simpl. subst inner. by rewrite LastIndexByte_bracketed. }
    assert (IndexByte (String "[" inner) "]" = Some (S (String.length host))) as ->.
    { simpl. subst inner. by rewrite IndexByte_append. }
    cbn [first_is Ascii.eqb Bool.eqb].
    assert (String.length (String "[" inner) = (String.length host + String.length port + 3)%nat)
      as ->.
    { subst inner. simpl. rewrite length_append. simpl. lia. }
    rewrite (proj2 (Nat.eqb_neq _ _)) by lia.
    rewrite (proj2 (Nat.eqb_eq _ _)) by lia.
    assert (Str.drop 1 (String "[" inner) = inner) as -> by done.
    assert (Str.drop (S (String.length host) + 1) (String "[" inner) = String ":" port) as ->.
    { replace (S (String.length host) + 1)%nat with (S (S (String.length host))) by lia.
      subst inner. simpl. apply drop_past. }
    assert (Str.drop (S (S (String.length host)) + 1) (String "[" inner) = port) as ->.
    { replace (S (S (String.length host)) + 1)%nat
        with (S (S (S (String.length host)))) by lia.
      change (Str.drop (S (S (S (String.length host)))) (String "[" inner))
        with (Str.drop (S (S (String.length host))) inner).
      subst inner. apply drop_past2. }
    rewrite IndexByte_absent
      by (subst inner; rewrite has_byte_append; simpl; by rewrite Hhl, Hpl).
    rewrite IndexByte_absent by (simpl; done).
    unfold slice. replace (S (String.length host) - 1)%nat with (String.length host) by lia.
    subst inner. simpl substring. by rewrite substring_append.
  - rewrite IndexByte_absent by done. unfold SplitHostPort.
    cbn [String.append].
    rewrite LastIndexByte_append by done.
    assert (first_is (host +:+ String ":" port) "[" = false) as ->.
    { destruct host as [|x host]; [done|]. simpl in *.
      by apply orb_false_iff in Hhl as [-> _]. }
    unfold slice. rewrite Nat.sub_0_r, substring_append.
    rewrite IndexByte_absent by done. cbn [Str.drop].
    rewrite IndexByte_absent by (rewrite has_byte_append; simpl; by rewrite Hhl, Hpl).
    rewrite IndexByte_absent by (rewrite has_byte_append; simpl; by rewrite Hhr, Hpr).
    replace (String.length host + 1)%nat with (S (String.length host)) by lia.
    by rewrite drop_past.
Qed.

End NetFacts.

(** ** The proxy-header middleware *)

Section ProxyFacts.
Variables TrimFunc_IsSpace TrimRightFunc_IsSpace : string -> string.
Local Notation "'fwd'" := (forwarded TrimFunc_IsSpace TrimRightFunc_IsSpace).
Local Notation "'cip'" := (client_ip TrimFunc_IsSpace TrimRightFunc_IsSpace).
Local Notation "'proxy'" := (ProxyHeaderMiddleware TrimFunc_IsSpace TrimRightFunc_IsSpace).

Lemma split_no_sep sep a : has_byte sep a = false -> Str.split sep a = [a].
Proof.
  intros Ha. rewrite <- (append_nil_r a) at 1.
  rewrite split_app_no_sep by done. simpl. by rewrite append_nil_r.
Qed.

(** The later steps of the middleware leave the address and the
    headers alone. *)
Lemma forwarded_fields r :
  rq_Header (fwd r) = rq_Header r
  /\ rq_RemoteAddr (fwd r)
     = if String.eqb (cip r) "" then rq_RemoteAddr r
       else match Net.SplitHostPort (rq_RemoteAddr r) with
            | inr (_, port) => Net.JoinHostPort (cip r) port
            | inl _ => cip r +:+ ":0"
            end.
Proof.
  unfold forwarded, client_ip.
  set (xff := Header_Get (rq_Header r) "X-Forwarded-For").
  match goal with
  | |- context [Header_Get (rq_Header ?x) "X-Forwarded-Proto"] => set (r1 := x)
  end.
  assert (rq_Header r1 = rq_Header r
          /\ rq_RemoteAddr r1
             = if String.eqb
                    (Strings.TrimSpace TrimFunc_IsSpace TrimRightFunc_IsSpace
                       (hd "" (Strings.Split xff ","))) ""
               then rq_RemoteAddr r
               else match Net.SplitHostPort (rq_RemoteAddr r) with
                    | inr (_, port) =>
                        Net.JoinHostPort
                          (Strings.TrimSpace TrimFunc_IsSpace TrimRightFunc_IsSpace
                             (hd "" (Strings.Split xff ","))) port
                    | inl _ =>
                        Strings.TrimSpace TrimFunc_IsSpace TrimRightFunc_IsSpace
                          (hd "" (Strings.Split xff ",")) +:+ ":0"
                    end) as [Hh Ha].
  { subst r1. destruct (String.eqb_spec xff "") as [->|Hne]; [done|].
    cbn [negb]. destruct (Strings.Split xff ",") as [|ips0 ips]; [done|].
    cbn [hd].
    destruct (String.eqb (Strings.TrimSpace _ _ ips0) ""); [done|]. cbn [negb].
    by destruct (Net.SplitHostPort (rq_RemoteAddr r)) as [|[h port]]. }
  rewrite <- Hh, <- Ha. clearbody r1. clear.
  repeat match goal with
         | |- context [negb (String.eqb ?x "")] => destruct (negb (String.eqb x ""))
         end; done.
Qed.

(** X18: The address the next handler sees.  When the leftmost entry of
    [X-Forwarded-For] is empty (no header, an empty header, nothing but
    commas or space in front of the first comma) the address is left as
    it was.  Otherwise, for a client address without brackets: when the
    old address has a port, the new address is one that
    [net.SplitHostPort] takes apart into the client address and that
    port; when it has none, the new address is the client address
    followed by [":0"], which [net.SplitHostPort] takes apart only if
    the client address holds no colon. *)
Theorem forwarded_client_address r :
  let clientIP := cip r in
  (clientIP = "" -> rq_RemoteAddr (fwd r) = rq_RemoteAddr r)
  /\ (clientIP <> "" -> has_byte "[" clientIP = false -> has_byte "]" clientIP = false ->
      match Net.SplitHostPort (rq_RemoteAddr r) with
      | inr (_, port) =>
          Net.SplitHostPort (rq_RemoteAddr (fwd r)) = inr (clientIP, port)
      | inl _ =>
          rq_RemoteAddr (fwd r) = clientIP +:+ ":0"
          /\ (has_byte ":" clientIP = false ->
              Net.SplitHostPort (rq_RemoteAddr (fwd r)) = inr (clientIP, "0"))
      end).
Proof.
  intros clientIP. destruct (forwarded_fields r) as [_ Ha]. fold clientIP in Ha.
  rewrite Ha. split.
  - intros ->. done.
  - intros Hne Hl Hr. rewrite (proj2 (String.eqb_neq _ _) Hne).
    destruct (Net.SplitHostPort (rq_RemoteAddr r)) as [e|[h port]] eqn:Hsplit.
    + split; [done|]. intros Hc.
      pose proof (@SplitHostPort_JoinHostPort clientIP "0" Hl Hr eq_refl eq_refl eq_refl)
        as Hrt.
      unfold Net.JoinHostPort in Hrt. by rewrite IndexByte_absent in Hrt.
    + apply SplitHostPort_port in Hsplit as (Hpc & Hpl & Hpr).
      by apply SplitHostPort_JoinHostPort.
Qed.

(** X19: Only the leftmost entry of [X-Forwarded-For] counts: what stands
    behind the first comma has no effect on the address the next
    handler sees. *)
Theorem forwarded_leftmost_only r1 r2 first rest :
  rq_RemoteAddr r1 = rq_RemoteAddr r2 ->
  Header_Get (rq_Header r1) "X-Forwarded-For" = first +:+ "," +:+ rest ->
  Header_Get (rq_Header r2) "X-Forwarded-For" = first ->
  has_byte "," first = false ->
  rq_RemoteAddr (fwd r1) = rq_RemoteAddr (fwd r2).
Proof.
  intros Haddr H1 H2 Hf.
  destruct (forwarded_fields r1) as [_ ->]. destruct (forwarded_fields r2) as [_ ->].
  assert (cip r1 = cip r2) as ->.
  { unfold client_ip, Strings.Split. rewrite H1, H2.
    rewrite (@split_no_sep "," first Hf), (@split_app_no_sep "," first _ Hf).
    simpl. by rewrite append_nil_r. }
  by rewrite Haddr.
Qed.

Lemma last_cons {A : Type} (x d : A) l : List.last (x :: l) d = List.last l x.
Proof.
  revert x d. induction l as [|y l IH]; intros x d; [done|].
  change (List.last (x :: y :: l) d) with (List.last (y :: l) d). by rewrite !IH.
Qed.

Lemma statusCode_after_spec calls : forall statusCode,
  statusCode_after calls statusCode = List.last (omap status_of calls) statusCode.
Proof.
  unfold statusCode_after. induction calls as [|call calls IH]; intros sc; [done|].
  cbn [fold_left]. rewrite IH.
  destruct call; cbn [omap list_omap status_of]; by rewrite ?last_cons.
Qed.

(** X20: [LoggingMiddleware] passes on what the wrapped handler does, calls
    on the response writer and panic alike.  When the handler returns,
    one record is logged, at the level given, with the status of the
    response: the code of the last [WriteHeader] the handler called,
    and 200 when it called none.  When the handler panics, nothing is
    logged for the request. *)
Theorem LoggingMiddleware_logs_status next logLevel elapsed r :
  let served := next r in
  let logged := LoggingMiddleware next logLevel elapsed r in
  sv_calls logged = sv_calls served
  /\ sv_request logged = sv_request served
  /\ sv_panic logged = sv_panic served
  /\ (sv_panic served = None ->
      sv_slog logged
      = sv_slog served
        ++ [access_record logLevel elapsed (sv_request served)
              (last_status (sv_calls served))])
  /\ (sv_panic served <> None -> sv_slog logged = sv_slog served).
Proof.
  intros served logged. subst logged. unfold LoggingMiddleware. fold served.
  destruct (sv_panic served) as [err|] eqn:Hp.
  - rewrite Hp. by repeat split.
  - cbn [sv_calls sv_request sv_panic sv_slog]. repeat split; try done.
    intros _. unfold access_record, last_status. by rewrite statusCode_after_spec.
Qed.

(** X21: The chain [NewCorazaWAFHandler] builds around the WAF handler
    never panics.  When the WAF handler panics, the chain logs the
    error, answers with status 500 after whatever the handler had
    already sent, and writes no access record; when the handler
    returns, its calls on the response writer are passed on unchanged
    and one access record is written for the request as the handler
    left it. *)
Theorem waf_chain_recovers next logLevel elapsed r :
  let handler :=
    PanicMiddleware (LoggingMiddleware (proxy next) logLevel elapsed) in
  let served := next (fwd r) in
  sv_panic (handler r) = None
  /\ (forall err,
        sv_panic served = Some err ->
        sv_calls (handler r) = sv_calls served ++ [RW_Error "Internal Server Error" 500]
        /\ sv_slog (handler r)
           = sv_slog served
             ++ [mkLogRecord LevelError "Recovered from panic in HTTP handler"
                   [AStr "error"; err]])
  /\ (sv_panic served = None ->
      sv_calls (handler r) = sv_calls served
      /\ sv_slog (handler r)
         = sv_slog served
           ++ [access_record logLevel elapsed (sv_request served)
                 (last_status (sv_calls served))]).
Proof.
  intros handler served. subst handler.
  unfold PanicMiddleware, LoggingMiddleware, ProxyHeaderMiddleware.
  fold served. destruct (sv_panic served) as [err|] eqn:Hp.
  - rewrite Hp. cbn [sv_calls sv_request sv_panic sv_slog].
    split; [done|]. split; [|done]. by intros ? [= <-].
  - cbn [sv_calls sv_request sv_panic sv_slog].
    split; [done|]. split; [done|]. intros _. split; [done|].
    unfold access_record, last_status. by rewrite statusCode_after_spec.
Qed.

Lemma forwarded_method_path r m u :
  Header_Get (rq_Header r) "X-Forwarded-Method" = m -> m <> "" ->
  Header_Get (rq_Header r) "X-Forwarded-Uri" = u -> u <> "" ->
  rq_Method (fwd r) = m /\ url_Path (rq_URL (fwd r)) = u.
Proof.
  intros Hm Hmne Hu Hune. unfold forwarded.
  match goal with
  | |- context [Header_Get (rq_Header ?x) "X-Forwarded-Proto"] => set (r1 := x)
  end.
  assert (rq_Header r1 = rq_Header r) as Hh.
  { subst r1. destruct (negb _); [|done]. destruct (Strings.Split _ _); [done|].
    destruct (negb _); [|done]. by destruct (Net.SplitHostPort _) as [|[? ?]]. }
  clearbody r1.
  destruct (negb (String.eqb (Header_Get (rq_Header r1) "X-Forwarded-Proto") ""));
    destruct (negb (String.eqb (Header_Get _ "X-Forwarded-Host") ""));
    cbn [rq_Header set_Scheme set_Hosts set_Path set_Method];
    rewrite Hh, Hu, (guard_nonempty Hune);
    cbn [rq_Header set_Scheme set_Hosts set_Path set_Method];
    rewrite Hh, Hm, (guard_nonempty Hmne); done.
Qed.

(** X22: The access log tells of the request as forwarded, not of the
    request as it came in: the middleware rewrites the request in
    place, and [LoggingMiddleware], which wraps it, reads the request
    after the chain has returned.  With a handler that returns and
    leaves the request alone, the record holds the method of
    [X-Forwarded-Method] and the path of [X-Forwarded-Uri]. *)
Theorem access_log_shows_forwarded_request next logLevel elapsed r m u :
  (forall r', sv_panic (next r') = None /\ sv_request (next r') = r') ->
  Header_Get (rq_Header r) "X-Forwarded-Method" = m -> m <> "" ->
  Header_Get (rq_Header r) "X-Forwarded-Uri" = u -> u <> "" ->
  let logged := LoggingMiddleware (proxy next) logLevel elapsed r in
  exists record rest,
    sv_slog logged = sv_slog (next (fwd r)) ++ [record]
    /\ lr_Msg record = "HTTP request"
    /\ lr_Args record = [AStr "method"; AStr m; AStr "path"; AStr u] ++ rest.
Proof.
  intros Hnext Hm Hmne Hu Hune logged. subst logged.
  unfold LoggingMiddleware, ProxyHeaderMiddleware.
  destruct (Hnext (fwd r)) as [Hp Hr]. rewrite Hp, Hr.
  destruct (forwarded_method_path r Hm Hmne Hu Hune) as [-> ->].
  cbn [sv_slog]. eexists _, _. split; [reflexivity|]. split; reflexivity.
Qed.

End ProxyFacts.

(** The cases of the test suite of the middleware. *)
Example forwarded_ex1 :
  rq_RemoteAddr (Demo.fwd (Demo.request "192.168.1.100:12345"
                             [("X-Forwarded-For", "203.0.113.195")]))
  = "203.0.113.195:12345".
Proof. reflexivity. Qed.
Example forwarded_ex2 :
  rq_RemoteAddr (Demo.fwd (Demo.request "192.168.1.100:8080"
                             [("X-Forwarded-For",
                               "203.0.113.195, 198.51.100.178, 192.168.1.100")]))
  = "203.0.113.195:8080".
Proof. reflexivity. Qed.
Example forwarded_ex3 :
  rq_RemoteAddr (Demo.fwd (Demo.request "192.168.1.100:443"
                             [("X-Forwarded-For", "  203.0.113.195  ,  198.51.100.178  ")]))
  = "203.0.113.195:443".
Proof. reflexivity. Qed.
Example forwarded_ex4 :
  rq_RemoteAddr (Demo.fwd (Demo.request "192.168.1.100"
                             [("X-Forwarded-For", "203.0.113.195")]))
  = "203.0.113.195:0".
Proof. reflexivity. Qed.
Example forwarded_ex5 :
  rq_RemoteAddr (Demo.fwd (Demo.request "192.168.1.100:8080" [("X-Forwarded-For", ",,,")]))
  = "192.168.1.100:8080".
Proof. reflexivity. Qed.
Example forwarded_ex6 :
  let r := Demo.fwd (Demo.request "192.168.1.100:8080"
                       [("X-Forwarded-Proto", "https");
                        ("X-Forwarded-Host", "api.example.com");
                        ("X-Forwarded-Uri", "/new-path");
                        ("X-Forwarded-Method", "POST")]) in
  r = mkHttpRequest "POST" (mkURL "https" "api.example.com" "/new-path")
        "api.example.com" "192.168.1.100:8080" (rq_Header r).
Proof. reflexivity. Qed.
Example forwarded_ex7 :
  let r := Demo.request "192.168.1.100:8080" [] in Demo.fwd r = r.
Proof. reflexivity. Qed.

(** An IPv6 client behind a proxy address without a port gets an
    address that [net.SplitHostPort] refuses. *)
Example forwarded_ipv6_without_port :
  let r := Demo.fwd (Demo.request "192.168.1.100" [("X-Forwarded-For", "2001:db8::1")]) in
  rq_RemoteAddr r = "2001:db8::1:0"
  /\ Net.SplitHostPort (rq_RemoteAddr r)
     = inl (Net.mkAddrError "too many colons in address" "2001:db8::1:0").
Proof. split; reflexivity. Qed.

Lemma forwarded_client_address_witness :
  Net.SplitHostPort
    (rq_RemoteAddr (Demo.fwd (Demo.request "192.168.1.100:8080"
                                [("X-Forwarded-For", "2001:db8::1, 198.51.100.178")])))
  = inr ("2001:db8::1", "8080").
Proof.
  apply (proj2 (forwarded_client_address id id
                  (Demo.request "192.168.1.100:8080"
                     [("X-Forwarded-For", "2001:db8::1, 198.51.100.178")]))).
  - vm_compute. discriminate.
  - reflexivity.
  - reflexivity.
Defined.

Lemma forwarded_leftmost_only_witness :
  rq_RemoteAddr (Demo.fwd (Demo.request "192.168.1.100:8080"
                             [("X-Forwarded-For", "203.0.113.195, 198.51.100.178")]))
  = rq_RemoteAddr (Demo.fwd (Demo.request "192.168.1.100:8080"
                               [("X-Forwarded-For", "203.0.113.195")])).
Proof.
  apply (@forwarded_leftmost_only id id
           (Demo.request "192.168.1.100:8080"
              [("X-Forwarded-For", "203.0.113.195, 198.51.100.178")])
           (Demo.request "192.168.1.100:8080" [("X-Forwarded-For", "203.0.113.195")])
           "203.0.113.195" " 198.51.100.178").
  - reflexivity.
  - reflexivity.
  - reflexivity.
  - reflexivity.
Defined.

Lemma waf_chain_recovers_witness :
  let handler :=
    PanicMiddleware (LoggingMiddleware (ProxyHeaderMiddleware id id Demo.panics)
                       LevelDebug 1500000) in
  sv_calls (handler (Demo.request "192.168.1.100:8080" []))
  = [RW_WriteHeader 200; RW_Error "Internal Server Error" 500].
Proof.
  intros handler.
  pose proof (waf_chain_recovers id id Demo.panics LevelDebug 1500000
                (Demo.request "192.168.1.100:8080" [])) as H.
  cbv zeta in H. destruct H as (_ & Hpanic & _).
  destruct (Hpanic (AStr "boom") eq_refl) as [Hcalls _]. exact Hcalls.
Defined.

Lemma access_log_shows_forwarded_request_witness :
  let logged :=
    LoggingMiddleware (ProxyHeaderMiddleware id id Demo.answers) LevelDebug 1500000
      (Demo.request "192.168.1.100:8080"
         [("X-Forwarded-Method", "POST"); ("X-Forwarded-Uri", "/login")]) in
  exists record rest,
    sv_slog logged = [record]
    /\ lr_Args record = [AStr "method"; AStr "POST"; AStr "path"; AStr "/login"] ++ rest.
Proof.
  intros logged.
  destruct (access_log_shows_forwarded_request id id Demo.answers LevelDebug 1500000
              (Demo.request "192.168.1.100:8080"
                 [("X-Forwarded-Method", "POST"); ("X-Forwarded-Uri", "/login")])
              (m := "POST") (u := "/login"))
    as (record & rest & Hlog & _ & Hargs).
  - intros r'. split; reflexivity.
  - reflexivity.
  - discriminate.
  - reflexivity.
  - discriminate.
  - exists record, rest. split; [exact Hlog | exact Hargs].
Defined.

(** ** The configured log path *)

Example plain_path_ex1 :
  plain_path true ["var"; "log"; "coraza-audit.log"] = "/var/log/coraza-audit.log".
Proof. reflexivity. Qed.
Example plain_path_ex2 : plain_path false ["logs"; "audit.log"] = "logs/audit.log".
Proof. reflexivity. Qed.

Section PlainPaths.
Import Str Path Strconv.

Lemma join_with_slash_snoc init l :
  init <> [] -> join_with_slash (init ++ [l]) = join_with_slash init +:+ String slash l.
Proof.
  induction init as [|e init IH]; [done|]. intros _.
  destruct init as [|e' init]; [done|].
  change (join_with_slash ((e :: e' :: init) ++ [l]))
    with (e +:+ "/" +:+ join_with_slash ((e' :: init) ++ [l])).
  rewrite IH by done.
  change (join_with_slash (e :: e' :: init))
    with (e +:+ "/" +:+ join_with_slash (e' :: init)).
  by rewrite !append_assoc.
Qed.

Lemma plain_path_snoc rooted init l :
  init <> [] ->
  plain_path rooted (init ++ [l]) = plain_path rooted init +:+ String slash l.
Proof.
  intros Hi. unfold plain_path. by rewrite join_with_slash_snoc, append_assoc.
Qed.

Lemma plain_path_snoc_append rooted init l x :
  plain_path rooted (init ++ [l +:+ x]) = plain_path rooted (init ++ [l]) +:+ x.
Proof.
  destruct init as [|e init].
  - unfold plain_path. simpl. by rewrite append_assoc.
  - rewrite !plain_path_snoc by done.
    change (String slash (l +:+ x)) with (String slash l +:+ x).
    by rewrite append_assoc.
Qed.

Lemma join_with_slash_nonempty es :
  es <> [] -> forallb entry_name es = true ->
  exists c s, join_with_slash es = String c s /\ c <> slash.
Proof.
  destruct es as [|e es]; [done|]. intros _ [He _]%andb_true_iff.
  apply entry_name_plain in He as (Hs & Hne & _).
  destruct e as [|c e]; [done|]. simpl in Hs. apply orb_false_iff in Hs as [Hc _].
  exists c. destruct es as [|e' es].
  - exists e. split; [done|]. intros ->. done.
  - eexists. split; [reflexivity|]. intros ->. done.
Qed.

Lemma plain_path_shape rooted es :
  es <> [] -> forallb entry_name es = true ->
  plain_path rooted es <> ""
  /\ is_rooted (plain_path rooted es) = rooted
  /\ ((if rooted then 2 else 1) <= String.length (plain_path rooted es))%nat.
Proof.
  intros Hne Hall. destruct (join_with_slash_nonempty Hne Hall) as (c & s & Hj & Hc).
  unfold plain_path. rewrite Hj. destruct rooted; simpl.
  - split; [done|]. split; [done | lia].
  - split; [done|]. split; [|lia]. by apply Ascii.eqb_neq.
Qed.

Lemma Clean_unfold p :
  p <> "" ->
  Clean p = finish (fold_left (clean_elem (is_rooted p)) (elements p)
                      (if is_rooted p then ("/", 1%nat) else ("", 0%nat))).1.
Proof. intros Hp. unfold Clean, finish. by rewrite (proj2 (String.eqb_neq _ _) Hp). Qed.

(** Cleaning a plain path: the state of the loop at its end. *)
Lemma fold_clean_plain_path rooted es :
  es <> [] -> forallb entry_name es = true ->
  fold_left (clean_elem rooted) (elements (plain_path rooted es))
    (if rooted then ("/", 1%nat) else ("", 0%nat))
  = (plain_path rooted es, if rooted then 1%nat else 0%nat).
Proof.
  induction es as [|l init IH] using rev_ind; [done|]. intros _ Hall.
  rewrite forallb_app in Hall. apply andb_true_iff in Hall as [Hinit Hl].
  simpl in Hl. rewrite andb_true_r in Hl.
  pose proof (entry_name_plain _ Hl) as (Hs & Hlne & Hp).
  destruct init as [|e init].
  - unfold plain_path. destruct rooted; simpl.
    + change (elements (String "/" l)) with ("" :: elements l).
      rewrite elements_no_slash by done. cbn [fold_left].
      change (clean_elem true ("/", 1%nat) "") with ("/", 1%nat).
      by rewrite clean_elem_plain.
    + rewrite elements_no_slash by done. cbn [fold_left].
      by rewrite clean_elem_plain.
  - rewrite plain_path_snoc, elements_snoc, fold_left_app, IH by done.
    cbn [fold_left]. rewrite clean_elem_plain by done. f_equal.
    destruct (@plain_path_shape rooted (e :: init) ltac:(done) Hinit) as (_ & _ & Hlen).
    unfold with_slash.
    destruct rooted; cbn [andb orb negb];
      rewrite (proj2 (Nat.eqb_neq _ _)) by lia; cbn [andb orb negb];
      by rewrite append_assoc.
Qed.

Lemma Clean_plain_path rooted es :
  es <> [] -> forallb entry_name es = true ->
  Clean (plain_path rooted es) = plain_path rooted es.
Proof.
  intros Hne Hall. destruct (plain_path_shape rooted Hne Hall) as (Hp & Hr & _).
  unfold Clean. rewrite (proj2 (String.eqb_neq _ _) Hp), Hr.
  rewrite fold_clean_plain_path by done. simpl.
  by rewrite (proj2 (String.eqb_neq _ _) Hp).
Qed.

Lemma up_to_last_slash_name n : has_slash n = false -> up_to_last_slash n = "".
Proof. intros H. destruct n as [|c n]; [done|]. cbn [up_to_last_slash]. by rewrite H. Qed.

Lemma up_to_last_slash_snoc a n :
  has_slash n = false -> up_to_last_slash (a +:+ String slash n) = a +:+ "/".
Proof.
  intros Hn. induction a as [|c a IH].
  - cbn [String.append up_to_last_slash]. simpl has_slash.
    by rewrite up_to_last_slash_name.
  - cbn [String.append up_to_last_slash].
    assert (has_slash (String c (a +:+ String slash n)) = true) as ->.
    { simpl. rewrite has_slash_append. simpl. by rewrite !orb_true_r. }
    by rewrite IH.
Qed.

(** The directory part of a plain path, joined with a file name, is
    the path with that name in the place of its last element. *)
Lemma Join_Dir_plain_path rooted init l n :
  forallb entry_name init = true -> entry_name l = true -> entry_name n = true ->
  Join (Dir (plain_path rooted (init ++ [l]))) n = plain_path rooted (init ++ [n]).
Proof.
  intros Hinit Hl Hn.
  pose proof (entry_name_plain _ Hl) as (Hls & Hlne & Hlp).
  pose proof (entry_name_plain _ Hn) as (Hns & Hnne & Hnp).
  destruct init as [|e init].
  - unfold plain_path, Dir. destruct rooted; simpl.
    + rewrite up_to_last_slash_name by done.
      change (Clean "/") with "/". unfold Join. simpl.
      rewrite Clean_unfold by done.
      change (is_rooted (String "/" (String "/" n))) with true.
      change (elements (String "/" (String "/" n))) with ("" :: "" :: elements n).
      rewrite elements_no_slash by done. cbn [fold_left].
      change (clean_elem true ("/", 1%nat) "") with ("/", 1%nat).
      change (clean_elem true ("/", 1%nat) "") with ("/", 1%nat).
      by rewrite clean_elem_plain.
    + rewrite up_to_last_slash_name by done.
      change (Clean "") with ".". unfold Join. simpl.
      rewrite Clean_unfold by done.
      change (is_rooted (String "." (String "/" n))) with false.
      change (elements (String "." (String "/" n))) with ("." :: elements n).
      rewrite elements_no_slash by done. cbn [fold_left].
      change (clean_elem false ("", 0%nat) ".") with ("", 0%nat).
      rewrite clean_elem_plain by done. unfold finish. simpl.
      by rewrite (proj2 (String.eqb_neq _ _) Hnne).
  - set (Pi := plain_path rooted (e :: init)).
    destruct (@plain_path_shape rooted (e :: init) ltac:(done) Hinit) as (Hp & Hr & _).
    fold Pi in Hp, Hr.
    assert (Dir (plain_path rooted ((e :: init) ++ [l])) = Pi) as ->.
    { unfold Dir. rewrite plain_path_snoc by done. fold Pi.
      rewrite up_to_last_slash_snoc by done.
      unfold Clean.
      assert (Pi +:+ "/" <> "") as Hne' by (by destruct Pi).
      rewrite (proj2 (String.eqb_neq _ _) Hne'), is_rooted_append, Hr by done.
      change (Pi +:+ "/") with (Pi +:+ String slash "").
      rewrite elements_snoc, fold_left_app by done.
      subst Pi. rewrite fold_clean_plain_path by done. simpl.
      by rewrite (proj2 (String.eqb_neq _ _) Hp). }
    unfold Join. rewrite (proj2 (String.eqb_neq _ _) Hp).
    change (Pi +:+ "/" +:+ n) with (Pi +:+ String slash n).
    subst Pi. rewrite <- plain_path_snoc by done.
    apply Clean_plain_path; [by destruct init|].
    rewrite forallb_app, Hinit. simpl. by rewrite Hn.
Qed.

Lemma Base_plain_path rooted init l :
  entry_name l = true -> Base (plain_path rooted (init ++ [l])) = l.
Proof.
  intros (Hs & Hne & _)%entry_name_plain. destruct init as [|e init].
  - unfold plain_path. destruct rooted; simpl.
    + by apply (Base_snoc "").
    + by apply Base_name.
  - rewrite plain_path_snoc by done. by apply Base_snoc.
Qed.

(** X23: A log path that is written without redundancy is used as it is.
    For such a path the processor polls and rotates exactly the path of
    the options, the WAF is told to write to the same path, and the
    backup of a rotation is written beside it, under the path itself
    followed by a dot and the unix second of the rotation. *)
Theorem NewLogProcessor_plain_path {U : Type}
  (url_Parse : string -> result (string * string)) (options : AuditLogProcessorOptions)
  (rooted : bool) (init : list string) (name : string) :
  forallb entry_name init = true -> entry_name name = true ->
  opt_AuditLogPath options = plain_path rooted (init ++ [name]) ->
  let p := NewLogProcessor U url_Parse options in
  auditLogFile p = name
  /\ Join (auditLogDir p) (auditLogFile p) = opt_AuditLogPath options
  /\ (forall t, generateNewBackupFilename p t
                = opt_AuditLogPath options +:+ "." +:+ FormatInt (GoTime.Unix_of t))
  /\ (forall cfg, exists before after,
        SetAuditLogDirectives p cfg
        = cfg ++ [before +:+ "SecAuditLog " +:+ opt_AuditLogPath options +:+ after]).
Proof.
  intros Hinit Hname Hpath p.
  pose proof (entry_name_plain _ Hname) as (Hs & Hne & _).
  assert (auditLogFile p = name) as Hfile.
  { simpl. rewrite Hpath. by apply Base_plain_path. }
  assert (Join (auditLogDir p) (auditLogFile p) = opt_AuditLogPath options) as Hlog.
  { rewrite Hfile. simpl. rewrite Hpath. by apply Join_Dir_plain_path. }
  split; [done|]. split; [done|]. split.
  - intros t. unfold generateNewBackupFilename. rewrite Hfile. simpl auditLogDir.
    rewrite Hpath, Join_Dir_plain_path by (done || by apply backup_entry_name).
    by rewrite plain_path_snoc_append.
  - intros cfg. unfold SetAuditLogDirectives, WithDirectives. rewrite Hlog.
    eexists (String "010" (tab +:+ "  ")), _. f_equal.
Qed.

End PlainPaths.

(** A log path with a slash at its end is not used as it is: its last
    element is taken for the file name a second time. *)
Example trailing_slash_edge :
  let p := NewLogProcessor (list Log) Demo.parse_url (mkOptions "/var/log/audit/" 0 0 0) in
  Path.Join (auditLogDir p) (auditLogFile p) = "/var/log/audit/audit".
Proof. reflexivity. Qed.

Lemma NewLogProcessor_plain_path_witness :
  Path.Join (auditLogDir Demo.p) (auditLogFile Demo.p) = "/var/log/audit.log"
  /\ generateNewBackupFilename Demo.p (GoTime.mkTime 1700000000 5)
     = "/var/log/audit.log" +:+ "." +:+ Strconv.FormatInt 1700000000.
Proof.
  destruct (NewLogProcessor_plain_path (U := list Log) Demo.parse_url Demo.options
              true ["var"; "log"] "audit.log") as (_ & Hlog & Hbackup & _).
  - reflexivity.
  - reflexivity.
  - reflexivity.
  - split; [exact Hlog | exact (Hbackup (GoTime.mkTime 1700000000 5))].
Defined.

(** ** The processor as [main] runs it *)


Section Counting.
Import Str Path.
Context {U : Type} (json_Unmarshal : string -> result Log).
Context (url_Parse : string -> result (string * string)).
Implicit Types (p : LogProcessor U) (w : World U).






End Counting.


